(** * VROOM: the VRPTW local-search engine

    A shallow embedding of [src/problems/vrptw/local_search/local_search.cpp]
    (class [vrptw_local_search]: [try_job_additions], [run],
    [straighten_route], [indicators]) together with the properties that its
    specification states about it and further properties of the code.

    Conventions.
    - [index_t] and ranks are [nat]; [gain_t] and [cost_t] values are [Z]
      (the code never relies on wrap-around; [cost_t] is unsigned, which
      shows up as a non-negativity assumption where it matters).
    - A [std::vector] is a [list]; [v[i]] is the total lookup [v !!! i] and
      [v[i] = x] is [<[i:=x]> v].  Reading out of range is undefined in
      C++; the invariants proved below keep every access in range.
    - The [std::unordered_set] of unassigned jobs is the list of its
      elements in iteration order.
    - Logging ([log_current_solution]) only writes files behind a switch
      that the constructor turns off; it is not represented. *)

From Stdlib Require Import ZArith Lia.
From stdpp Require Import list.

Local Open Scope Z_scope.
Local Open Scope nat_scope.

(** ** Amounts *)

Abbreviation index := nat (only parsing).
Abbreviation route := (list nat) (only parsing).
Abbreviation amount := (list Z) (only parsing).

(** Modelled from the spec: class [amount_t] ([structures/vroom/amount.h] is
    not among the sources).  "Fixed-dimension D tuple of integers.  Addition
    is pointwise; comparison [a <= b] is pointwise.  The zero vector is the
    additive identity."  [amount_t(D)] is the zero vector of dimension [D]. *)
Definition amount_zero (D : nat) : amount := replicate D 0%Z.

(** Modelled from the spec: [operator+] and [operator+=] of [amount_t],
    "addition is pointwise". *)
Definition amount_add (a b : amount) : amount := zip_with Z.add a b.

(** Modelled from the spec: [operator-] and [operator-=] of [amount_t],
    pointwise like the addition. *)
Definition amount_sub (a b : amount) : amount := zip_with Z.sub a b.

(** Modelled from the spec: [operator<=] of [amount_t], "comparison
    [a <= b] is pointwise" (between amounts of the same dimension). *)
Fixpoint amount_le (a b : amount) : bool :=
  match a, b with
  | [], [] => true
  | x :: a', y :: b' => (x <=? y)%Z && amount_le a' b'
  | _, _ => false
  end.

(** ** Collaborators of the engine *)

(** The six operator classes of [run()]. *)
Inductive operator_kind :=
  | Exchange | CrossExchange | TwoOpt | ReverseTwoOpt | Relocate | OrOpt.

(** Everything [local_search.cpp] calls but does not define: the [input]
    object, the helpers of [utils/helpers.h], the Solomon heuristic, the
    time-window route class, the cost functions of [solution_state] and the
    operator classes (only three of their headers are at hand).

    Modelled from the spec: an operator is built from
    [(s_vehicle, s_rank, t_vehicle, t_rank)] on the two routes it will edit
    ([cvrp_two_opt]'s constructor receives exactly [s_route] and
    [t_route]); "operators never touch more than two routes", the gain is
    "computed once at construction".  Hence [op_is_valid], [op_gain] and
    [op_apply] are functions of the two routes, and [op_apply] returns the
    new source and target routes.

    The arithmetic on [double] in [try_job_additions] is kept abstract: a
    type with the conversion from integers, subtraction, multiplication,
    the comparison [<] and [numeric_limits<double>::max()]. *)
Class Collaborators := {
  (* local_search::V, the number of vehicles *)
  V : nat;
  (* _input._jobs.size() *)
  jobs_size : nat;
  (* _input.amount_size() *)
  amount_size : nat;
  (* _input._jobs[j].amount *)
  job_amount : index → amount;
  (* _input._vehicles[v].capacity *)
  capacity : index → amount;
  (* _input.vehicle_ok_with_job(v, j) *)
  vehicle_ok_with_job : index → index → bool;
  (* local_search::_amount_lower_bound, _double_amount_lower_bound *)
  amount_lower_bound : amount;
  double_amount_lower_bound : amount;
  (* std::numeric_limits<gain_t>::max() *)
  gain_max : Z;
  (* double, static_cast<double>, -, *, <, numeric_limits<double>::max() *)
  double : Type;
  to_double : Z → double;
  double_sub : double → double → double;
  double_mul : double → double → double;
  double_lt : double → double → bool;
  double_max : double;
  (* _tw_sol[v].is_valid_addition_for_tw(_input, j, r), route of vehicle v *)
  is_valid_addition_for_tw : index → route → index → nat → bool;
  (* addition_cost(_input, _m, j, _input._vehicles[v], route, r) *)
  addition_cost : index → index → route → nat → Z;
  (* _sol_state.route_cost_for_vehicle(v, route) *)
  route_cost_for_vehicle : index → route → Z;
  (* what set_node_gains(route, v) / set_edge_gains(route, v) store for v *)
  node_gains_for : index → route → list Z;
  edge_gains_for : index → route → list Z;
  (* single_route_heuristic(_input, tw_route of vehicle v, forward flag) *)
  single_route_heuristic : index → route → bool → route;
  (* operator(kind, s_vehicle, s_route, s_rank, t_vehicle, t_route, t_rank) *)
  op_is_valid : operator_kind → index → route → nat → index → route → nat → bool;
  op_gain : operator_kind → index → route → nat → index → route → nat → Z;
  op_apply : operator_kind → index → route → nat → index → route → nat → route * route;
  (* addition_candidates() of the operator built on (s_vehicle, t_vehicle) *)
  addition_candidates : operator_kind → index → index → list index
}.

(** ** Solution state *)

(** The fields of [solution_state] that [local_search.cpp] reads or writes.
    Caches that only the operator classes read (forward and backward costs,
    skills) are behind [op_is_valid] and [op_gain]. *)
Record solution_state := {
  route_costs : list Z;
  fwd_amounts : list (list amount);
  bwd_amounts : list (list amount);
  node_gains : list (list Z);
  edge_gains : list (list Z);
  unassigned : list index
}.

(** The stored move: what a [std::unique_ptr<ls_operator>] in [best_ops]
    points to.  Its gain is the one computed when it was built; [apply()]
    works on the routes as they are when it is called. *)
Record ls_operator := {
  kind : operator_kind;
  s_vehicle : index;
  s_rank : nat;
  t_vehicle : index;
  t_rank : nat;
  gain : Z
}.

(** [_tw_sol] and [_sol_state]: what the engine mutates. *)
Record solution := {
  tw_sol : list route;
  sol_state : solution_state
}.

(** [run()]'s local variables around the solution. *)
Record search := {
  sol : solution;
  best_ops : list (list (option ls_operator));
  s_t_pairs : list (index * index);
  best_gains : list (list Z)
}.

(** [assert] failures of [run()], and running out of fuel in the model. *)
Inductive failure := null_operator | gain_mismatch | out_of_fuel.

(** [solution_indicators], what [indicators()] reports. *)
Module si.
Record solution_indicators := {
  unassigned : nat;
  cost : Z;
  used_vehicles : nat
}.
End si.

Section Engine.
Context `{Collaborators}.

(** *** Amount caches *)

(** Modelled from the spec: [solution_state::update_amounts] is not among
    the sources.  "recompute [fwd_amounts[v]], then derive [bwd_amounts[v]]",
    with "[fwd_amounts[v][r]]: sum of delivery amounts of jobs at ranks 0..r
    inclusive"; the derivation is the one [try_job_additions] uses,
    [total_amount - fwd_amounts[v][i]]. *)
Fixpoint cumulated (acc : amount) (l : list amount) : list amount :=
  match l with
  | [] => []
  | a :: l' => let acc' := amount_add acc a in acc' :: cumulated acc' l'
  end.

(** Modelled from the spec: the forward amounts [update_amounts]
    recomputes for a route, its running sums of job amounts. *)
Definition fwd_from_scratch (r : route) : list amount :=
  cumulated (amount_zero amount_size) (job_amount <$> r).

(** [fwd.back()], the total amount of the route (zero without jobs). *)
Definition back (fwd : list amount) : amount :=
  default (amount_zero amount_size) (last fwd).

(** Modelled from the spec: the backward amounts [update_amounts] derives
    from the forward ones, as line 134 does. *)
Definition bwd_from_fwd (fwd : list amount) : list amount :=
  (λ a, amount_sub (back fwd) a) <$> fwd.

(** Modelled from the spec: [solution_state::update_amounts(route, v)]. *)
Definition update_amounts (r : route) (v : index) (st : solution_state) : solution_state :=
  let fwd := fwd_from_scratch r in
  {| route_costs := route_costs st;
     fwd_amounts := <[v := fwd]> (fwd_amounts st);
     bwd_amounts := <[v := bwd_from_fwd fwd]> (bwd_amounts st);
     node_gains := node_gains st;
     edge_gains := edge_gains st;
     unassigned := unassigned st |}.

(** Modelled from the spec: "[total_amount(v)] := [fwd_amounts[v].back()]"
    (the zero amount for an empty route). *)
Definition total_amount (st : solution_state) (v : index) : amount :=
  back (fwd_amounts st !!! v).

(** Sum of a list of amounts, for stating what the caches hold. *)
Definition amount_sum (l : list amount) : amount :=
  fold_left amount_add l (amount_zero amount_size).

(** [std::vector::insert(begin() + r, x)]. *)
Definition insert_at {A} (r : nat) (x : A) (l : list A) : list A :=
  take r l ++ x :: drop r l.

(** Lines 118-126: the forward amounts after adding [job] at [rank]. *)
Definition fwd_after_addition (job : index) (rank : nat) (fwd : list amount) : list amount :=
  let previous_cumul :=
    if decide (rank = 0) then amount_zero amount_size else fwd !!! (rank - 1) in
  let fwd1 := insert_at rank (amount_add previous_cumul (job_amount job)) fwd in
  take (rank + 1) fwd1
    ++ ((λ a, amount_add a (job_amount job)) <$> drop (rank + 1) fwd1).

(** Lines 128-135: the backward amounts, given the new forward amounts. *)
Definition bwd_after_addition (rank : nat) (fwd' bwd : list amount) : list amount :=
  let bwd1 := insert_at rank (amount_zero amount_size) bwd in
  let total_amount := back fwd' in
  fold_left (λ b i, <[i := amount_sub total_amount (fwd' !!! i)]> b)
            (seq 0 (rank + 1)) bwd1.

(** The two readings of a backward amount.  In the words of the spec,
    [bwd_amounts[v][r]] is the "sum of delivery amounts of jobs at ranks
    r..end"; the other reading leaves the job at rank [r] out. *)
Definition bwd_sums_from_rank (s : solution) (v : index) : Prop :=
  ∀ r, r < length (tw_sol s !!! v) →
    (bwd_amounts (sol_state s) !!! v) !!! r
    = amount_sum (job_amount <$> drop r (tw_sol s !!! v)).

Definition bwd_sums_after_rank (s : solution) (v : index) : Prop :=
  ∀ r, r < length (tw_sol s !!! v) →
    (bwd_amounts (sol_state s) !!! v) !!! r
    = amount_sum (job_amount <$> drop (S r) (tw_sol s !!! v)).

(** The amount caches of vehicle [v] agree with a recomputation. *)
Definition amounts_coherent (s : solution) (v : index) : Prop :=
  fwd_amounts (sol_state s) !!! v = fwd_from_scratch (tw_sol s !!! v)
  ∧ bwd_amounts (sol_state s) !!! v
    = bwd_from_fwd (fwd_amounts (sol_state s) !!! v).

(** *** Job reinsertion: [try_job_additions] *)

(** [for (i = 0; i < l.size(); ++i) body(i, l[i])], started at index [i]. *)
Fixpoint fold_indexed {A St} (body : St → nat → A → St) (i : nat) (l : list A) (s : St) : St :=
  match l with
  | [] => s
  | x :: l' => fold_indexed body (S i) l' (body s i x)
  end.

(** Lines 58-68: the entry of [best_costs] and [best_ranks] that the scan of
    all ranks of route [r] of vehicle [v] leaves for job [j]. *)
Definition scan_ranks (j v : index) (r : route) : Z * nat :=
  fold_left
    (λ best rank,
       if is_valid_addition_for_tw v r j rank then
         let current_cost := addition_cost j v r rank in
         if (current_cost <? best.1)%Z then (current_cost, rank) else best
       else best)
    (seq 0 (S (length r))) (gain_max, 0).

(** Lines 47-70: [(best_costs[i], best_ranks[i])] for [v = routes[i]]. *)
Definition best_for_route (s : solution) (j v : index) : Z * nat :=
  if vehicle_ok_with_job v j
     && amount_le (amount_add (total_amount (sol_state s) v) (job_amount j))
                  (capacity v)
  then scan_ranks j v (tw_sol s !!! v)
  else (gain_max, 0).

Definition best_per_route (s : solution) (routes : list index) (j : index) : list (Z * nat) :=
  best_for_route s j <$> routes.

(** Lines 72-84: [(smallest, second_smallest, smallest_idx)]; the sentinel
    value of [smallest_idx], which is no index, is [None]. *)
Definition two_smallest (best_costs : list Z) : Z * Z * option nat :=
  fold_indexed
    (λ '(smallest, second_smallest, smallest_idx) i c,
       if (c <? smallest)%Z then (c, smallest, Some i)
       else if (c <? second_smallest)%Z then (smallest, c, smallest_idx)
       else (smallest, second_smallest, smallest_idx))
    0 best_costs (gain_max, gain_max, None).

(** [best_cost], [best_job], [best_route], [best_rank] of lines 40-43. *)
Record choice := {
  best_cost : double;
  best_job : index;
  best_route : index;
  best_rank : nat
}.

(** Lines 100-101. *)
Definition eval (regret_coeff : double) (addition_cost regret_cost : Z) : double :=
  double_sub (to_double addition_cost)
             (double_mul regret_coeff (to_double regret_cost)).

(** Lines 93-98. *)
Definition regret_cost (two : Z * Z * option nat) (i : nat) : Z :=
  let '(smallest, second_smallest, smallest_idx) := two in
  if decide (Some i = smallest_idx) then second_smallest else smallest.

(** Lines 88-109, for one job [j]. *)
Definition choose_route (regret_coeff : double) (routes : list index) (j : index)
    (bests : list (Z * nat)) (b : choice) : choice :=
  let two := two_smallest (bests.*1) in
  fold_indexed
    (λ b i best,
       if decide (best.1 = gain_max) then b
       else
         let e := eval regret_coeff best.1 (regret_cost two i) in
         if double_lt e (best_cost b) then
           {| best_cost := e; best_job := j;
              best_route := routes !!! i; best_rank := best.2 |}
         else b)
    0 bests b.

(** Lines 40-110: one pass over the unassigned jobs. *)
Definition best_addition (routes : list index) (regret_coeff : double) (s : solution) : choice :=
  fold_left
    (λ b j, choose_route regret_coeff routes j (best_per_route s routes j) b)
    (unassigned (sol_state s))
    {| best_cost := double_max; best_job := 0; best_route := 0; best_rank := 0 |}.

(** Line 112. *)
Definition job_added (b : choice) : bool := double_lt (best_cost b) double_max.

(** Modelled from the spec: [solution_state::update_route_cost] is not among
    the sources; "recompute and store". *)
Definition update_route_cost (r : route) (v : index) (st : solution_state) : solution_state :=
  {| route_costs := <[v := route_cost_for_vehicle v r]> (route_costs st);
     fwd_amounts := fwd_amounts st;
     bwd_amounts := bwd_amounts st;
     node_gains := node_gains st;
     edge_gains := edge_gains st;
     unassigned := unassigned st |}.

(** Lines 114-141.  Modelled from the spec: [tw_route::add(j, r)] "mutates
    the sequence", that is inserts [j] at rank [r]; erasing from the set of
    unassigned jobs removes the job from the list. *)
Definition add_job (b : choice) (s : solution) : solution :=
  let v := best_route b in
  let r' := insert_at (best_rank b) (best_job b) (tw_sol s !!! v) in
  let st := sol_state s in
  let fwd' := fwd_after_addition (best_job b) (best_rank b) (fwd_amounts st !!! v) in
  let bwd' := bwd_after_addition (best_rank b) fwd' (bwd_amounts st !!! v) in
  let st1 :=
    {| route_costs := route_costs st;
       fwd_amounts := <[v := fwd']> (fwd_amounts st);
       bwd_amounts := <[v := bwd']> (bwd_amounts st);
       node_gains := node_gains st;
       edge_gains := edge_gains st;
       unassigned := unassigned st |} in
  let st2 := update_route_cost r' v st1 in
  {| tw_sol := <[v := r']> (tw_sol s);
     sol_state :=
       {| route_costs := route_costs st2;
          fwd_amounts := fwd_amounts st2;
          bwd_amounts := bwd_amounts st2;
          node_gains := node_gains st2;
          edge_gains := edge_gains st2;
          unassigned := filter (λ j, j ≠ best_job b) (unassigned st2) |} |}.

(** The [do ... while (job_added)] loop.  Every pass that adds a job erases
    it from the unassigned jobs, so [fuel] passes are enough once [fuel]
    exceeds their number ([try_job_additions_fixpoint] below). *)
Fixpoint try_job_additions_loop (fuel : nat) (routes : list index)
    (regret_coeff : double) (s : solution) : solution :=
  match fuel with
  | 0 => s
  | S fuel' =>
      let b := best_addition routes regret_coeff s in
      if job_added b then
        try_job_additions_loop fuel' routes regret_coeff (add_job b s)
      else s
  end.

Definition try_job_additions (routes : list index) (regret_coeff : double)
    (s : solution) : solution :=
  try_job_additions_loop (S (length (unassigned (sol_state s)))) routes regret_coeff s.

(** *** Route straightening: [straighten_route] *)

Definition straighten_route (route_rank : index) (s : solution) : solution :=
  let current := tw_sol s !!! route_rank in
  if decide (0 < length current) then
    let before_cost := route_costs (sol_state s) !!! route_rank in
    let new_tw_r := single_route_heuristic route_rank current true in
    let other_tw_r := single_route_heuristic route_rank current false in
    let new_tw_r :=
      if (length new_tw_r <? length other_tw_r)
         || ((length other_tw_r =? length new_tw_r)
             && (route_cost_for_vehicle route_rank other_tw_r
                 <? route_cost_for_vehicle route_rank new_tw_r)%Z)
      then other_tw_r else new_tw_r in
    if length new_tw_r =? length current then
      let after_cost := route_cost_for_vehicle route_rank new_tw_r in
      if (after_cost <? before_cost)%Z then
        let st := sol_state s in
        {| tw_sol := <[route_rank := new_tw_r]> (tw_sol s);
           sol_state :=
             {| route_costs := <[route_rank := after_cost]> (route_costs st);
                fwd_amounts := fwd_amounts st;
                bwd_amounts := bwd_amounts st;
                node_gains := node_gains st;
                edge_gains := edge_gains st;
                unassigned := unassigned st |} |}
      else s
    else s
  else s.

(** *** The round loop: [run] *)

Definition size (x : search) (v : index) : nat := length (tw_sol (sol x) !!! v).

(** [m[s][t]] and [m[s][t] = a] on a vector of vectors. *)
Definition get2 {A} `{Inhabited A} (m : list (list A)) (s t : nat) : A :=
  (m !!! s) !!! t.

Definition set2 {A} (m : list (list A)) (s t : nat) (a : A) : list (list A) :=
  <[s := <[t := a]> (m !!! s)]> m.

(** A candidate move: [(s_vehicle, s_rank, t_vehicle, t_rank)]. *)
Abbreviation candidate := (nat * nat * nat * nat)%type (only parsing).

(** The body shared by the six operator loops (lines 189-200 and alike):
    build the move on the current routes, keep it when it is valid and
    beats the best gain known for the pair. *)
Definition consider (k : operator_kind) (x : search) (c : candidate) : search :=
  let '(s, sr, t, tr) := c in
  let rs := tw_sol (sol x) !!! s in
  let rt := tw_sol (sol x) !!! t in
  let g := op_gain k s rs sr t rt tr in
  if op_is_valid k s rs sr t rt tr && (get2 (best_gains x) s t <? g)%Z then
    {| sol := sol x;
       best_ops :=
         set2 (best_ops x) s t
           (Some {| kind := k; s_vehicle := s; s_rank := sr;
                    t_vehicle := t; t_rank := tr; gain := g |});
       s_t_pairs := s_t_pairs x;
       best_gains := set2 (best_gains x) s t g |}
  else x.

(** Lines 178-203: the moves the Exchange loop builds, in order. *)
Definition exchange_candidates (x : search) : list candidate :=
  '(s, t) ← s_t_pairs x;
  if (t <=? s) || (size x s =? 0) || (size x t =? 0) then []
  else sr ← seq 0 (size x s); tr ← seq 0 (size x t); [(s, sr, t, tr)].

(** Lines 206-231: CROSS-exchange. *)
Definition cross_exchange_candidates (x : search) : list candidate :=
  '(s, t) ← s_t_pairs x;
  if (t <=? s) || (size x s <? 2) || (size x t <? 2) then []
  else sr ← seq 0 (size x s - 1); tr ← seq 0 (size x t - 1); [(s, sr, t, tr)].

(** A scan of the ranks [l] that stops at the first rank where the bound
    [ok] fails ([if (!(...)) break;]). *)
Fixpoint ranks_until_break (ok : nat → bool) (l : list nat) : list nat :=
  match l with
  | [] => []
  | r :: l' => if ok r then r :: ranks_until_break ok l' else []
  end.

(** Lines 241-242 and 268-269. *)
Definition s_free_amount (x : search) (s sr : nat) : amount :=
  amount_sub (capacity s) (get2 (fwd_amounts (sol_state (sol x))) s sr).

(** Line 245, and the target ranks of lines 243-247 (downwards). *)
Definition two_opt_bound (x : search) (s sr t tr : nat) : bool :=
  amount_le (get2 (bwd_amounts (sol_state (sol x))) t tr) (s_free_amount x s sr).

Definition two_opt_t_ranks (x : search) (s sr t : nat) : list nat :=
  ranks_until_break (two_opt_bound x s sr t) (reverse (seq 0 (size x t))).

(** Lines 234-262: 2-opt*. *)
Definition two_opt_candidates (x : search) : list candidate :=
  '(s, t) ← s_t_pairs x;
  if t <=? s then []
  else sr ← seq 0 (size x s); tr ← two_opt_t_ranks x s sr t; [(s, sr, t, tr)].

(** Line 272, and the target ranks of lines 270-274 (upwards). *)
Definition reverse_two_opt_bound (x : search) (s sr t tr : nat) : bool :=
  amount_le (get2 (fwd_amounts (sol_state (sol x))) t tr) (s_free_amount x s sr).

Definition reverse_two_opt_t_ranks (x : search) (s sr t : nat) : list nat :=
  ranks_until_break (reverse_two_opt_bound x s sr t) (seq 0 (size x t)).

(** Lines 265-289: Reverse 2-opt*. *)
Definition reverse_two_opt_candidates (x : search) : list candidate :=
  '(s, t) ← s_t_pairs x;
  sr ← seq 0 (size x s); tr ← reverse_two_opt_t_ranks x s sr t; [(s, sr, t, tr)].

(** The two scans as the spec describes what they achieve: every target
    rank is visited, and a move is built for those within the capacity
    bound. *)
Definition two_opt_candidates_exhaustive (x : search) : list candidate :=
  '(s, t) ← s_t_pairs x;
  if t <=? s then []
  else sr ← seq 0 (size x s);
       tr ← filter (λ tr, two_opt_bound x s sr t tr = true) (reverse (seq 0 (size x t)));
       [(s, sr, t, tr)].

Definition reverse_two_opt_candidates_exhaustive (x : search) : list candidate :=
  '(s, t) ← s_t_pairs x;
  sr ← seq 0 (size x s);
  tr ← filter (λ tr, reverse_two_opt_bound x s sr t tr = true) (seq 0 (size x t));
  [(s, sr, t, tr)].

(** Lines 292-324: Relocate.  Whether a source rank is skipped depends on
    the best gain known so far, so this loop is a fold over the state. *)
Definition relocate_loop (x : search) : search :=
  fold_left
    (λ x '(s, t),
       if (size x s =? 0)
          || negb (amount_le (amount_add (total_amount (sol_state (sol x)) t)
                                         amount_lower_bound)
                             (capacity t))
       then x
       else
         fold_left
           (λ x sr,
              if (get2 (node_gains (sol_state (sol x))) s sr
                  <=? get2 (best_gains x) s t)%Z
              then x
              else fold_left (λ x tr, consider Relocate x (s, sr, t, tr))
                             (seq 0 (S (size x t))) x)
           (seq 0 (size x s)) x)
    (s_t_pairs x) x.

(** Lines 327-358: Or-opt. *)
Definition or_opt_loop (x : search) : search :=
  fold_left
    (λ x '(s, t),
       if (size x s <? 2)
          || negb (amount_le (amount_add (total_amount (sol_state (sol x)) t)
                                         double_amount_lower_bound)
                             (capacity t))
       then x
       else
         fold_left
           (λ x sr,
              if (get2 (edge_gains (sol_state (sol x))) s sr
                  <=? get2 (best_gains x) s t)%Z
              then x
              else fold_left (λ x tr, consider OrOpt x (s, sr, t, tr))
                             (seq 0 (S (size x t))) x)
           (seq 0 (size x s - 1)) x)
    (s_t_pairs x) x.

(** Lines 177-358: the evaluation phase of a round. *)
Definition evaluate (x : search) : search :=
  let x := fold_left (consider Exchange) (exchange_candidates x) x in
  let x := fold_left (consider CrossExchange) (cross_exchange_candidates x) x in
  let x := fold_left (consider TwoOpt) (two_opt_candidates x) x in
  let x := fold_left (consider ReverseTwoOpt) (reverse_two_opt_candidates x) x in
  let x := relocate_loop x in
  or_opt_loop x.

(** Lines 360-376: [(best_gain, best_source, best_target)]. *)
Definition find_best (gains : list (list Z)) : Z * nat * nat :=
  fold_left
    (λ b s_v,
       fold_left
         (λ b t_v,
            if decide (s_v = t_v) then b
            else if (b.1.1 <? get2 gains s_v t_v)%Z
                 then (get2 gains s_v t_v, s_v, t_v) else b)
         (seq 0 V) b)
    (seq 0 V) (0%Z, 0, 0).

(** [apply()] of a stored move: the two routes it was built on are
    replaced by the edited ones. *)
Definition apply_operator (o : ls_operator) (s : solution) : solution :=
  let r := op_apply (kind o) (s_vehicle o) (tw_sol s !!! s_vehicle o) (s_rank o)
                    (t_vehicle o) (tw_sol s !!! t_vehicle o) (t_rank o) in
  {| tw_sol := <[t_vehicle o := r.2]> (<[s_vehicle o := r.1]> (tw_sol s));
     sol_state := sol_state s |}.

Definition with_state (f : solution_state → solution_state) (s : solution) : solution :=
  {| tw_sol := tw_sol s; sol_state := f (sol_state s) |}.

(** Modelled from the spec: [solution_state::set_node_gains] and
    [set_edge_gains] are not among the sources; they "recompute removal
    savings" of a route, here the values [node_gains_for] and
    [edge_gains_for]. *)
Definition set_node_gains (r : route) (v : index) (st : solution_state) : solution_state :=
  {| route_costs := route_costs st;
     fwd_amounts := fwd_amounts st;
     bwd_amounts := bwd_amounts st;
     node_gains := <[v := node_gains_for v r]> (node_gains st);
     edge_gains := edge_gains st;
     unassigned := unassigned st |}.

(** Modelled from the spec: [solution_state::set_edge_gains], as above. *)
Definition set_edge_gains (r : route) (v : index) (st : solution_state) : solution_state :=
  {| route_costs := route_costs st;
     fwd_amounts := fwd_amounts st;
     bwd_amounts := bwd_amounts st;
     node_gains := node_gains st;
     edge_gains := <[v := edge_gains_for v r]> (edge_gains st);
     unassigned := unassigned st |}.

(** Lines 416-419. *)
Definition set_gains (best_source best_target : index) (s : solution) : solution :=
  let s := with_state (set_node_gains (tw_sol s !!! best_source) best_source) s in
  let s := with_state (set_node_gains (tw_sol s !!! best_target) best_target) s in
  let s := with_state (set_edge_gains (tw_sol s !!! best_source) best_source) s in
  with_state (set_edge_gains (tw_sol s !!! best_target) best_target) s.

(** Lines 423-443: the pairs to test in the next round ... *)
Definition next_pairs (best_source best_target : index) : list (index * index) :=
  [(best_source, best_target); (best_target, best_source)]
  ++ (v ← seq 0 V;
      if decide (v = best_source ∨ v = best_target) then []
      else [(best_source, v); (v, best_source); (best_target, v); (v, best_target)]).

(** ... and the gains set to zero. *)
Definition reset_gains (best_source best_target : index) (gains : list (list Z)) : list (list Z) :=
  let gains := <[best_source := replicate V 0%Z]> gains in
  let gains := <[best_target := replicate V 0%Z]> gains in
  fold_left
    (λ g v,
       if decide (v = best_source ∨ v = best_target) then g
       else
         let g := set2 g v best_source 0%Z in
         let g := set2 g best_source v 0%Z in
         let g := set2 g v best_target 0%Z in
         set2 g best_target v 0%Z)
    (seq 0 V) gains.

(** Two stages of [apply_best] below, named for the statements about them.
    Lines 382-388 for the stored move [o]: the move applied and the two
    route costs recomputed. *)
Definition after_costs (o : ls_operator) (bs bt : index) (s : solution) : solution :=
  let s := apply_operator o s in
  let s := with_state (update_route_cost (tw_sol s !!! bs) bs) s in
  with_state (update_route_cost (tw_sol s !!! bt) bt) s.

(** Lines 382-402 for the stored move [o]: the solution on which
    [try_job_additions] is called. *)
Definition before_reinsertion (o : ls_operator) (bs bt : index) (s : solution) : solution :=
  let s := apply_operator o s in
  let s := with_state (update_route_cost (tw_sol s !!! bs) bs) s in
  let s := with_state (update_route_cost (tw_sol s !!! bt) bt) s in
  let s := straighten_route bs s in
  let s := straighten_route bt s in
  let s := with_state (update_amounts (tw_sol s !!! bs) bs) s in
  with_state (update_amounts (tw_sol s !!! bt) bt) s.

(** Lines 379-444: what [run()] does with the selected pair when
    [best_gain > 0].  [update_costs] and [update_skills] (lines 409-413)
    refresh caches that only the operators read. *)
Definition apply_best (best_gain : Z) (best_source best_target : index)
    (x : search) : failure + search :=
  match get2 (best_ops x) best_source best_target with
  | None => inl null_operator
  | Some o =>
      let s := apply_operator o (sol x) in
      let previous_cost :=
        (route_costs (sol_state s) !!! best_source
         + route_costs (sol_state s) !!! best_target)%Z in
      let s := with_state (update_route_cost (tw_sol s !!! best_source) best_source) s in
      let s := with_state (update_route_cost (tw_sol s !!! best_target) best_target) s in
      let new_cost :=
        (route_costs (sol_state s) !!! best_source
         + route_costs (sol_state s) !!! best_target)%Z in
      if decide (new_cost + best_gain = previous_cost)%Z then
        let s := straighten_route best_source s in
        let s := straighten_route best_target s in
        let s := with_state (update_amounts (tw_sol s !!! best_source) best_source) s in
        let s := with_state (update_amounts (tw_sol s !!! best_target) best_target) s in
        let s :=
          try_job_additions
            (addition_candidates (kind o) (s_vehicle o) (t_vehicle o))
            (to_double 0) s in
        let s := set_gains best_source best_target s in
        inr {| sol := s;
               best_ops := best_ops x;
               s_t_pairs := next_pairs best_source best_target;
               best_gains := reset_gains best_source best_target (best_gains x) |}
      else inl gain_mismatch
  end.

(** One iteration of [while (best_gain > 0)]: the new state and the value
    of the loop condition for the next iteration. *)
Definition round (x : search) : failure + (search * bool) :=
  let x := evaluate x in
  let '(best_gain, best_source, best_target) := find_best (best_gains x) in
  if (0 <? best_gain)%Z then
    match apply_best best_gain best_source best_target x with
    | inl f => inl f
    | inr x' => inr (x', true)
    end
  else inr (x, false).

(** Lines 156-174: the state before the first round. *)
Definition all_pairs : list (index * index) :=
  s_v ← seq 0 V; t_v ← seq 0 V; if decide (s_v = t_v) then [] else [(s_v, t_v)].

Definition initial_search (s : solution) : search :=
  {| sol := s;
     best_ops := replicate V (replicate V None);
     s_t_pairs := all_pairs;
     best_gains := replicate V (replicate V 0%Z) |}.

(** Modelled from the spec: [solution_state::setup], which the constructor
    calls, is not among the sources.  "compute every cache field for every
    route; compute unassigned = all_jobs \ (union of the routes)". *)
Definition setup (routes : list route) : solution_state :=
  {| route_costs := imap route_cost_for_vehicle routes;
     fwd_amounts := fwd_from_scratch <$> routes;
     bwd_amounts := (λ r, bwd_from_fwd (fwd_from_scratch r)) <$> routes;
     node_gains := imap node_gains_for routes;
     edge_gains := imap edge_gains_for routes;
     unassigned := filter (λ j, j ∉ concat routes) (seq 0 jobs_size) |}.

(** Lines 25-33: the engine on the solution it is given. *)
Definition initial_solution (routes : list route) : solution :=
  {| tw_sol := routes; sol_state := setup routes |}.

(** The [while] loop, bounded by [fuel] rounds. *)
Fixpoint run_loop (fuel : nat) (x : search) : failure + search :=
  match fuel with
  | 0 => inl out_of_fuel
  | S fuel' =>
      match round x with
      | inl f => inl f
      | inr (x', true) => run_loop fuel' x'
      | inr (x', false) => inr x'
      end
  end.

Definition run (fuel : nat) (s : solution) : failure + solution :=
  match run_loop fuel (initial_search s) with
  | inl f => inl f
  | inr x => inr (sol x)
  end.

(** The states [run()] goes through when started on the solution [s0]:
    the state before each round. *)
Inductive reachable (s0 : solution) : search → Prop :=
  | reachable_initial : reachable s0 (initial_search s0)
  | reachable_round x x' :
      reachable s0 x → round x = inr (x', true) → reachable s0 x'.

(** Lines 480-493: [indicators().cost]. *)
Definition total_cost (s : solution) : Z :=
  fold_left Z.add (route_costs (sol_state s)) 0%Z.

(** Lines 480-493: [indicators()].  The cost is summed over the vehicles
    [0 .. V-1]; the used vehicles are counted over all of [_tw_sol]. *)
Definition indicators (s : solution) : si.solution_indicators :=
  {| si.unassigned := length (unassigned (sol_state s));
     si.cost :=
       fold_left (λ cost v, (cost + route_costs (sol_state s) !!! v)%Z)
                 (seq 0 V) 0%Z;
     si.used_vehicles := length (filter (λ r, r ≠ []) (tw_sol s)) |}.

End Engine.

(** ** A small instance

    Three unit jobs on a line, at 5, 5 and 20, and two vehicles based at 0
    with capacities 1 and 2; job 2 may only go on vehicle 0.  Travel costs
    are distances, the only operator that is ever valid is Relocate, and
    the route heuristic returns the route as it is or reversed. *)
Module Demo.

Definition location (j : nat) : Z :=
  match j with 0 | 1 => 5%Z | _ => 20%Z end.

Fixpoint travel (from : Z) (r : route) : Z :=
  match r with
  | [] => Z.abs from
  | j :: r' => (Z.abs (location j - from) + travel (location j) r')%Z
  end.

Definition cost (r : route) : Z := travel 0 r.

Definition vehicle_capacity (v : nat) : nat :=
  match v with 0 => 1 | _ => 2 end.

Definition relocate (rs : route) (sr : nat) (rt : route) (tr : nat) : route * route :=
  match rs !! sr with
  | Some j => (delete sr rs, insert_at tr j rt)
  | None => (rs, rt)
  end.

#[export] Instance instance : Collaborators := {|
  V := 2;
  jobs_size := 3;
  amount_size := 1;
  job_amount := λ _, [1%Z];
  capacity := λ v, [Z.of_nat (vehicle_capacity v)];
  vehicle_ok_with_job := λ v j, negb ((v =? 1) && (j =? 2));
  amount_lower_bound := [1%Z];
  double_amount_lower_bound := [2%Z];
  gain_max := (2 ^ 63 - 1)%Z;
  double := Z;
  to_double := λ z, z;
  double_sub := Z.sub;
  double_mul := Z.mul;
  double_lt := Z.ltb;
  double_max := (2 ^ 1024)%Z;
  is_valid_addition_for_tw := λ _ _ _ _, true;
  addition_cost := λ j _ r rank, (cost (insert_at rank j r) - cost r)%Z;
  route_cost_for_vehicle := λ _ r, cost r;
  node_gains_for := λ _ r, (λ i, (cost r - cost (delete i r))%Z) <$> seq 0 (length r);
  edge_gains_for :=
    λ _ r, (λ i, (cost r - cost (delete i (delete i r)))%Z) <$> seq 0 (length r - 1);
  single_route_heuristic := λ _ r forward, if forward then r else reverse r;
  op_is_valid :=
    λ k _ rs sr t rt tr,
      match k with
      | Relocate =>
          (sr <? length rs) && (tr <=? length rt)
          && (length rt + 1 <=? vehicle_capacity t)
      | _ => false
      end;
  op_gain :=
    λ k _ rs sr _ rt tr,
      match k with
      | Relocate =>
          let r := relocate rs sr rt tr in
          (cost rs + cost rt - cost r.1 - cost r.2)%Z
      | _ => 0%Z
      end;
  op_apply :=
    λ k _ rs sr _ rt tr,
      match k with
      | Relocate => relocate rs sr rt tr
      | _ => (rs, rt)
      end;
  addition_candidates :=
    λ k s t, match k with Relocate => [s] | _ => [s; t] end
|}.

(** Jobs 0 and 1 are on separate vehicles; job 2 did not fit. *)
Definition routes : list route := [[0]; [1]].

Definition start : solution := initial_solution routes.

Definition after_first_round : search :=
  Eval vm_compute in
    match round (initial_search start) with
    | inr (x, _) => x
    | inl _ => initial_search start
    end.

(** The move of the first round: job 0 goes to vehicle 1. *)
Definition move : ls_operator :=
  {| kind := Relocate; s_vehicle := 0; s_rank := 0;
     t_vehicle := 1; t_rank := 0; gain := 10 |}.

(** The solution of the first round when it calls [try_job_additions]:
    job 0 has moved to vehicle 1, job 2 now fits on vehicle 0. *)
Definition relocated : solution :=
  Eval vm_compute in before_reinsertion move 0 1 start.

(** Another start: job 1 alone on vehicle 1, jobs 0 and 2 unassigned.  A
    pass over route 1 adds job 0 in front of job 1, at no cost. *)
Definition unloaded : solution := initial_solution [[]; [1]].

Definition addition : choice :=
  Eval vm_compute in best_addition [1] (to_double 0) unloaded.

(** What [run()] returns on the first start, after two rounds: job 0 has
    moved to vehicle 1 and job 2 is on vehicle 0. *)
Definition finish : solution :=
  Eval vm_compute in
    match run 2 start with
    | inr s => s
    | inl _ => start
    end.

(** A start without any job on a route, and one with job 0 alone on
    vehicle 1: moving it to vehicle 0 is valid and gains nothing. *)
Definition idle : solution := initial_solution [[]; []].

Definition parked : solution := initial_solution [[]; [0]].

End Demo.

(** * Properties *)

(** ** The amount algebra *)

Section AmountFacts.

Lemma amount_le_spec (a b : amount) :
  amount_le a b = true ↔ Forall2 Z.le a b.
Proof.
  revert b; induction a as [|x a IH]; intros [|y b]; simpl.
  - split; [constructor | done].
  - split; [done | inversion 1].
  - split; [done | inversion 1].
  - rewrite andb_true_iff, IH, Z.leb_le. split.
    + intros [??]; by constructor.
    + inversion 1; subst; done.
Qed.

Lemma amount_le_trans (a b c : amount) :
  amount_le a b = true → amount_le b c = true → amount_le a c = true.
Proof.
  rewrite !amount_le_spec. revert b c.
  induction a as [|x a IH]; intros b c Hab Hbc.
  - inversion Hab; subst. inversion Hbc; subst. constructor.
  - inversion Hab as [|? y ? b' Hxy Hab']; subst.
    inversion Hbc as [|? z ? c' Hyz Hbc']; subst.
    constructor; [lia | by eapply IH].
Qed.

Lemma length_amount_zero D : length (amount_zero D) = D.
Proof. apply length_replicate. Qed.

Lemma length_amount_add (a b : amount) :
  length (amount_add a b) = length a `min` length b.
Proof. apply length_zip_with. Qed.

Lemma length_amount_sub (a b : amount) :
  length (amount_sub a b) = length a `min` length b.
Proof. apply length_zip_with. Qed.

Lemma amount_add_swap (p a x : amount) :
  amount_add (amount_add p a) x = amount_add (amount_add p x) a.
Proof.
  revert a x; induction p as [|z p IH]; intros [|u a] [|w x]; simpl; try done.
  f_equal; [lia | apply IH].
Qed.

Lemma amount_add_assoc (a b c : amount) :
  amount_add (amount_add a b) c = amount_add a (amount_add b c).
Proof.
  revert b c; induction a as [|z a IH]; intros [|u b] [|w c]; simpl; try done.
  f_equal; [lia | apply IH].
Qed.

Lemma amount_add_comm (a b : amount) : amount_add a b = amount_add b a.
Proof.
  revert b; induction a as [|z a IH]; intros [|u b]; simpl; try done.
  f_equal; [lia | apply IH].
Qed.

Lemma amount_add_zero_l D (a : amount) :
  length a = D → amount_add (amount_zero D) a = a.
Proof.
  intros <-. unfold amount_add, amount_zero.
  induction a as [|z a IH]; simpl; [done|]. by rewrite IH.
Qed.

Lemma amount_add_zero_r D (a : amount) :
  length a = D → amount_add a (amount_zero D) = a.
Proof. intros. rewrite amount_add_comm. by apply amount_add_zero_l. Qed.

Lemma amount_sub_add_cancel (t f a : amount) :
  length t = length a → length f = length a →
  amount_sub (amount_add t a) (amount_add f a) = amount_sub t f.
Proof.
  revert f a; induction t as [|z t IH]; intros [|u f] [|w a]; simpl; try done.
  intros [=] [=]. f_equal; [lia | by apply IH].
Qed.

Lemma amount_add_sub_cancel (x y : amount) :
  length x = length y → amount_sub (amount_add x y) x = y.
Proof.
  revert y; induction x as [|z x IH]; intros [|u y]; simpl; try done.
  intros [=]. f_equal; [lia | by apply IH].
Qed.

Lemma amount_add_le_mono_l (a b : amount) :
  length a = length b → Forall (λ z, 0 ≤ z)%Z b →
  amount_le a (amount_add a b) = true.
Proof.
  rewrite amount_le_spec.
  revert b; induction a as [|z a IH]; intros [|u b]; simpl; try done.
  intros [=] Hb. inversion Hb; subst. constructor; [lia | by apply IH].
Qed.

Lemma amount_sub_le_mono (t a b : amount) :
  length t = length a → amount_le a b = true →
  amount_le (amount_sub t b) (amount_sub t a) = true.
Proof.
  rewrite !amount_le_spec.
  revert a b; induction t as [|z t IH]; intros a b Hl Hab.
  - destruct a; [|done]. inversion Hab; subst. constructor.
  - destruct a as [|u a]; [done|]. inversion Hab as [|? w ? b' ? Hab']; subst.
    injection Hl as Hl. simpl. constructor; [lia | by apply IH].
Qed.

End AmountFacts.

(** ** The amount caches and their incremental update *)

Section AmountCaches.
Context `{Collaborators}.

Definition sized (a : amount) : Prop := length a = amount_size.

Lemma sized_zero : sized (amount_zero amount_size).
Proof. apply length_amount_zero. Qed.

Lemma sized_add (a b : amount) : sized a → sized b → sized (amount_add a b).
Proof. unfold sized. rewrite length_amount_add. lia. Qed.

Lemma sized_fold (l : list amount) (acc : amount) :
  sized acc → Forall sized l → sized (fold_left amount_add l acc).
Proof.
  revert acc; induction l as [|a l IH]; intros acc Hacc Hl; simpl; [done|].
  inversion Hl; subst. apply IH; [by apply sized_add | done].
Qed.

Lemma length_cumulated (acc : amount) (l : list amount) :
  length (cumulated acc l) = length l.
Proof. revert acc; induction l; intros; simpl; [done | by rewrite IHl]. Qed.

Lemma cumulated_app (acc : amount) (l1 l2 : list amount) :
  cumulated acc (l1 ++ l2)
  = cumulated acc l1 ++ cumulated (fold_left amount_add l1 acc) l2.
Proof.
  revert acc; induction l1 as [|a l1 IH]; intros acc; simpl; [done|].
  by rewrite IH.
Qed.

Lemma cumulated_shift (acc a : amount) (l : list amount) :
  cumulated (amount_add acc a) l = (λ x, amount_add x a) <$> cumulated acc l.
Proof.
  revert acc; induction l as [|b l IH]; intros acc; simpl; [done|].
  rewrite (amount_add_swap acc a b). by rewrite IH.
Qed.

Lemma cumulated_sized (acc : amount) (l : list amount) :
  sized acc → Forall sized l → Forall sized (cumulated acc l).
Proof.
  revert acc; induction l as [|a l IH]; intros acc Hacc Hl; simpl; [done|].
  inversion Hl; subst. constructor; [by apply sized_add|].
  apply IH; [by apply sized_add | done].
Qed.

Lemma last_cumulated (acc : amount) (l : list amount) :
  l ≠ [] → last (cumulated acc l) = Some (fold_left amount_add l acc).
Proof.
  revert acc; induction l as [|a l IH]; intros acc Hne; [done|].
  destruct l as [|b l]; [done|].
  change (last (cumulated acc (a :: b :: l)))
    with (last (cumulated (amount_add acc a) (b :: l))).
  by rewrite IH.
Qed.

Lemma cumulated_lookup (acc : amount) (l : list amount) (i : nat) :
  i < length l →
  cumulated acc l !! i = Some (fold_left amount_add (take (S i) l) acc).
Proof.
  revert acc i; induction l as [|a l IH]; intros acc i Hi; simpl in *; [lia|].
  destruct i as [|i]; simpl.
  - done.
  - rewrite IH by lia. done.
Qed.

(** Writing entries [0..n-1] one after the other. *)
Lemma fold_left_insert_seq {A} (f : nat → A) (n : nat) (l : list A) :
  n ≤ length l →
  fold_left (λ b i, <[i := f i]> b) (seq 0 n) l = (f <$> seq 0 n) ++ drop n l.
Proof.
  induction n as [|n IH]; intros Hn; [by rewrite drop_0|].
  rewrite seq_S, fold_left_app, IH by lia. simpl.
  destruct (lookup_lt_is_Some_2 l n) as [x Hx]; [lia|].
  rewrite (drop_S l x n Hx), fmap_app. simpl.
  rewrite insert_app_r_alt by (rewrite length_fmap, length_seq; lia).
  rewrite length_fmap, length_seq, Nat.sub_diag. simpl.
  by rewrite <- app_assoc.
Qed.

Lemma fmap_lookup_total_seq {A B} `{Inhabited A} (g : A → B) (n : nat) (l : list A) :
  n ≤ length l → (λ i, g (l !!! i)) <$> seq 0 n = g <$> take n l.
Proof.
  intros Hn. apply list_eq; intros i.
  rewrite !list_lookup_fmap.
  destruct (decide (i < n)) as [Hi|Hi].
  - rewrite lookup_seq_lt by done. simpl.
    rewrite lookup_take_lt by done.
    destruct (lookup_lt_is_Some_2 l i) as [x Hx]; [lia|].
    rewrite Hx. simpl. by rewrite (list_lookup_total_correct _ _ _ Hx).
  - rewrite lookup_seq_ge by lia. rewrite lookup_take_ge by lia. done.
Qed.

(** The forward amounts after an addition are the recomputed ones. *)
Lemma fwd_after_addition_cumulated (A1 A2 : list amount) (j : index) :
  fwd_after_addition j (length A1)
    (cumulated (amount_zero amount_size) (A1 ++ A2))
  = cumulated (amount_zero amount_size) (A1 ++ job_amount j :: A2).
Proof.
  unfold fwd_after_addition, insert_at.
  set (z := amount_zero amount_size).
  set (s1 := fold_left amount_add A1 z).
  assert (Hprev : (if decide (length A1 = 0) then z
                   else cumulated z (A1 ++ A2) !!! (length A1 - 1)) = s1).
  { destruct (decide (length A1 = 0)) as [H0|H0].
    - apply nil_length_inv in H0. by subst.
    - apply list_lookup_total_correct.
      rewrite cumulated_app, lookup_app_l by (rewrite length_cumulated; lia).
      rewrite cumulated_lookup by lia.
      replace (S (length A1 - 1)) with (length A1) by lia.
      by rewrite take_ge. }
  rewrite Hprev. rewrite !cumulated_app. fold s1. simpl.
  assert (Hl : length (cumulated z A1) = length A1) by apply length_cumulated.
  rewrite (take_app_length' (cumulated z A1)) by done.
  rewrite (drop_app_length' (cumulated z A1)) by done.
  rewrite (cons_middle _ (cumulated z A1)), app_assoc.
  rewrite take_app_length' by (rewrite length_app, Hl; simpl; lia).
  rewrite drop_app_length' by (rewrite length_app, Hl; simpl; lia).
  rewrite <- app_assoc. simpl. by rewrite cumulated_shift.
Qed.

(** The backward amounts after an addition are the derived ones, although
    only the entries up to the rank of the addition are written. *)
Lemma bwd_after_addition_derived (A1 A2 : list amount) (a : amount) :
  Forall sized (A1 ++ A2) → sized a →
  bwd_after_addition (length A1)
    (cumulated (amount_zero amount_size) (A1 ++ a :: A2))
    (bwd_from_fwd (cumulated (amount_zero amount_size) (A1 ++ A2)))
  = bwd_from_fwd (cumulated (amount_zero amount_size) (A1 ++ a :: A2)).
Proof.
  intros HA Ha. apply Forall_app in HA as [HA1 HA2].
  unfold bwd_after_addition, insert_at.
  set (z := amount_zero amount_size).
  set (s1 := fold_left amount_add A1 z).
  assert (Hs1 : sized s1) by (apply sized_fold; [apply sized_zero | done]).
  set (fwd' := cumulated z (A1 ++ a :: A2)).
  set (bwd := bwd_from_fwd (cumulated z (A1 ++ A2))).
  assert (Hl1 : length (cumulated z A1) = length A1) by apply length_cumulated.
  assert (Hlf : length fwd' = S (length A1 + length A2)).
  { unfold fwd'. rewrite length_cumulated, length_app. simpl. lia. }
  assert (Hlb : length bwd = length A1 + length A2).
  { unfold bwd, bwd_from_fwd. by rewrite length_fmap, length_cumulated, length_app. }
  rewrite fold_left_insert_seq
    by (rewrite length_app, length_take; simpl; rewrite length_drop; lia).
  rewrite (fmap_lookup_total_seq (λ x, amount_sub (back fwd') x)) by lia.
  replace (drop (length A1 + 1) (take (length A1) bwd ++ z :: drop (length A1) bwd))
    with (drop (length A1) bwd).
  2:{ rewrite (cons_middle z), app_assoc.
      rewrite drop_app_length'; [done|].
      rewrite length_app, length_take. simpl. lia. }
  assert (Hsplit : bwd_from_fwd fwd'
                   = ((λ x, amount_sub (back fwd') x) <$> take (length A1 + 1) fwd')
                     ++ ((λ x, amount_sub (back fwd') x) <$> drop (length A1 + 1) fwd')).
  { unfold bwd_from_fwd. by rewrite <- fmap_app, take_drop. }
  rewrite Hsplit. f_equal.
  unfold bwd, bwd_from_fwd. rewrite <- fmap_drop.
  unfold fwd'. rewrite !cumulated_app. fold s1. simpl.
  rewrite (drop_app_length' (cumulated z A1)) by done.
  rewrite (cons_middle _ (cumulated z A1)), app_assoc.
  rewrite drop_app_length' by (rewrite length_app, Hl1; simpl; lia).
  destruct A2 as [|b A2]; [done|].
  assert (Hback : ∀ pre acc, back (pre ++ cumulated acc (b :: A2))
                             = fold_left amount_add (b :: A2) acc).
  { intros pre acc. unfold back.
    rewrite last_app, last_cumulated by done. done. }
  rewrite !Hback.
  rewrite cumulated_shift, <- list_fmap_compose.
  apply Forall_fmap_ext_1.
  assert (Hsz : Forall sized (cumulated s1 (b :: A2))) by by apply cumulated_sized.
  eapply Forall_impl; [exact Hsz|]. intros x Hx. simpl.
  assert (Hshift : ∀ l acc, fold_left amount_add l (amount_add acc a)
                            = amount_add (fold_left amount_add l acc) a).
  { induction l as [|c l IH]; intros acc; simpl; [done|].
    by rewrite (amount_add_swap acc a c), IH. }
  change (fold_left amount_add A2 (amount_add (amount_add s1 a) b))
    with (fold_left amount_add (b :: A2) (amount_add s1 a)).
  rewrite Hshift.
  change (fold_left amount_add A2 (amount_add s1 b))
    with (fold_left amount_add (b :: A2) s1).
  symmetry. apply amount_sub_add_cancel.
  - assert (sized (fold_left amount_add (b :: A2) s1)) by by apply sized_fold.
    unfold sized in *. congruence.
  - unfold sized in *. congruence.
Qed.

Lemma fold_amount_add (l : list amount) (acc : amount) :
  sized acc → Forall sized l →
  fold_left amount_add l acc = amount_add acc (amount_sum l).
Proof.
  unfold amount_sum. intros Hacc Hl.
  revert acc Hacc. induction Hl as [|a l Ha Hl IH]; intros acc Hacc; simpl.
  - symmetry. by apply amount_add_zero_r.
  - rewrite IH by by apply sized_add.
    rewrite (IH (amount_add _ a)) by (apply sized_add; [apply sized_zero | done]).
    rewrite (amount_add_zero_l _ a) by done.
    apply amount_add_assoc.
Qed.

Lemma fwd_from_scratch_lookup (r : route) (i : nat) :
  i < length r →
  fwd_from_scratch r !!! i = amount_sum (job_amount <$> take (S i) r).
Proof.
  intros Hi. apply list_lookup_total_correct. unfold fwd_from_scratch.
  rewrite cumulated_lookup by by rewrite length_fmap.
  by rewrite fmap_take.
Qed.

Lemma back_fwd_from_scratch (r : route) :
  back (fwd_from_scratch r) = amount_sum (job_amount <$> r).
Proof.
  unfold back, fwd_from_scratch, amount_sum.
  destruct r as [|j r]; [done|]. by rewrite last_cumulated.
Qed.

Lemma bwd_from_fwd_lookup (fwd : list amount) (i : nat) :
  i < length fwd →
  bwd_from_fwd fwd !!! i = amount_sub (back fwd) (fwd !!! i).
Proof.
  intros Hi. apply list_lookup_total_correct. unfold bwd_from_fwd.
  rewrite list_lookup_fmap.
  destruct (lookup_lt_is_Some_2 fwd i Hi) as [x Hx].
  by rewrite Hx, (list_lookup_total_correct _ _ _ Hx).
Qed.

(** What the derived backward amount at rank [i] is: the amounts of the
    jobs after rank [i]. *)
Lemma bwd_is_suffix_sum (r : route) (i : nat) :
  (∀ j, sized (job_amount j)) → i < length r →
  amount_sub (back (fwd_from_scratch r)) (fwd_from_scratch r !!! i)
  = amount_sum (job_amount <$> drop (S i) r).
Proof.
  intros Hsz Hi.
  assert (Hall : ∀ l : route, Forall sized (job_amount <$> l)).
  { intros l. apply Forall_fmap, Forall_forall. intros; apply Hsz. }
  rewrite back_fwd_from_scratch, fwd_from_scratch_lookup by done.
  rewrite <- (take_drop (S i) r) at 1.
  rewrite fmap_app. unfold amount_sum at 1. rewrite fold_left_app.
  fold (amount_sum (job_amount <$> take (S i) r)).
  rewrite fold_amount_add; [| apply sized_fold; [apply sized_zero | apply Hall] | apply Hall].
  apply amount_add_sub_cancel.
  transitivity amount_size.
  - apply sized_fold; [apply sized_zero | apply Hall].
  - symmetry. apply sized_fold; [apply sized_zero | apply Hall].
Qed.

(** The effect of [add_job] on the route and on the two amount caches of
    the chosen vehicle, when they were coherent before. *)
Lemma add_job_amounts (b : choice) (s : solution) :
  (∀ j, sized (job_amount j)) →
  best_route b < length (tw_sol s) →
  best_route b < length (fwd_amounts (sol_state s)) →
  best_route b < length (bwd_amounts (sol_state s)) →
  best_rank b ≤ length (tw_sol s !!! best_route b) →
  fwd_amounts (sol_state s) !!! best_route b
    = fwd_from_scratch (tw_sol s !!! best_route b) →
  bwd_amounts (sol_state s) !!! best_route b
    = bwd_from_fwd (fwd_amounts (sol_state s) !!! best_route b) →
  let s' := add_job b s in
  let r' := tw_sol s' !!! best_route b in
  r' = insert_at (best_rank b) (best_job b) (tw_sol s !!! best_route b)
  ∧ fwd_amounts (sol_state s') !!! best_route b = fwd_from_scratch r'
  ∧ bwd_amounts (sol_state s') !!! best_route b
    = bwd_from_fwd (fwd_from_scratch r').
Proof.
  intros Hsz Hv Hvf Hvb Hr Hfwd Hbwd. simpl.
  rewrite !list_lookup_total_insert_eq by done.
  split; [done|].
  rewrite Hbwd, Hfwd.
  set (r := tw_sol s !!! best_route b) in *.
  assert (Hr' : insert_at (best_rank b) (best_job b) r
                = take (best_rank b) r ++ best_job b :: drop (best_rank b) r) by done.
  assert (Hl : length (job_amount <$> take (best_rank b) r) = best_rank b).
  { rewrite length_fmap, length_take. lia. }
  assert (Hold : fwd_from_scratch r
                 = cumulated (amount_zero amount_size)
                     ((job_amount <$> take (best_rank b) r)
                      ++ (job_amount <$> drop (best_rank b) r))).
  { unfold fwd_from_scratch. by rewrite <- fmap_app, take_drop. }
  assert (Hnew : fwd_from_scratch (insert_at (best_rank b) (best_job b) r)
                 = cumulated (amount_zero amount_size)
                     ((job_amount <$> take (best_rank b) r)
                      ++ job_amount (best_job b)
                         :: (job_amount <$> drop (best_rank b) r))).
  { unfold fwd_from_scratch. by rewrite Hr', fmap_app. }
  assert (Hf : fwd_after_addition (best_job b) (best_rank b) (fwd_from_scratch r)
               = fwd_from_scratch (insert_at (best_rank b) (best_job b) r)).
  { rewrite Hold, Hnew. rewrite <- Hl at 1. apply fwd_after_addition_cumulated. }
  split; [done|].
  rewrite Hf, Hnew, Hold. rewrite <- Hl at 1.
  apply bwd_after_addition_derived; [|apply Hsz].
  rewrite <- fmap_app. apply Forall_fmap, Forall_forall. intros; apply Hsz.
Qed.

(** C9.  After an insertion by [try_job_additions] (lines 114-135) at a
    rank of a route whose amount caches were coherent, the caches are those
    a recomputation gives: at every rank [i] of the new route the forward
    amount is the sum of the job amounts at ranks 0..i and the backward
    amount is [fwd_amounts[v].back() - fwd_amounts[v][i]], also at the
    shifted ranks that the update loop does not write. *)
Theorem addition_keeps_amounts_coherent (b : choice) (s : solution) :
  (∀ j, length (job_amount j) = amount_size) →
  best_route b < length (tw_sol s) →
  best_route b < length (fwd_amounts (sol_state s)) →
  best_route b < length (bwd_amounts (sol_state s)) →
  best_rank b ≤ length (tw_sol s !!! best_route b) →
  amounts_coherent s (best_route b) →
  let s' := add_job b s in
  let r' := tw_sol s' !!! best_route b in
  let fwd' := fwd_amounts (sol_state s') !!! best_route b in
  let bwd' := bwd_amounts (sol_state s') !!! best_route b in
  r' = insert_at (best_rank b) (best_job b) (tw_sol s !!! best_route b)
  ∧ amounts_coherent s' (best_route b)
  ∧ length fwd' = length r' ∧ length bwd' = length r'
  ∧ ∀ i, i < length r' →
      fwd' !!! i = amount_sum (job_amount <$> take (S i) r')
      ∧ bwd' !!! i = amount_sub (back fwd') (fwd' !!! i).
Proof.
  intros Hsz Hv Hvf Hvb Hr [Hfwd Hbwd].
  destruct (add_job_amounts b s Hsz Hv Hvf Hvb Hr Hfwd Hbwd) as (Hr' & Hf' & Hb').
  cbv zeta in *.
  set (s' := add_job b s) in *. set (r' := tw_sol s' !!! best_route b) in *.
  assert (Hlf : length (fwd_from_scratch r') = length r').
  { unfold fwd_from_scratch. by rewrite length_cumulated, length_fmap. }
  split; [done|]. split; [split; [done | by rewrite Hb', Hf']|].
  rewrite Hb', Hf'. unfold bwd_from_fwd at 1. rewrite length_fmap.
  split; [done|]. split; [done|]. intros i Hi. split.
  - by apply fwd_from_scratch_lookup.
  - apply bwd_from_fwd_lookup. lia.
Qed.

(** C3, as amended.  After an insertion by [try_job_additions] into a
    route whose amount caches were coherent, the backward amount at every
    rank [r] of the route is the sum of the amounts of the jobs at the
    ranks after [r] (the job at rank [r] itself is not counted), and
    [total_amount(v)], which is [fwd_amounts[v].back()], is the sum of the
    amounts of all the jobs of the route. *)
Theorem addition_bwd_amounts_after_rank (b : choice) (s : solution) :
  (∀ j, length (job_amount j) = amount_size) →
  best_route b < length (tw_sol s) →
  best_route b < length (fwd_amounts (sol_state s)) →
  best_route b < length (bwd_amounts (sol_state s)) →
  best_rank b ≤ length (tw_sol s !!! best_route b) →
  amounts_coherent s (best_route b) →
  let s' := add_job b s in
  bwd_sums_after_rank s' (best_route b)
  ∧ total_amount (sol_state s') (best_route b)
    = back (fwd_amounts (sol_state s') !!! best_route b)
  ∧ total_amount (sol_state s') (best_route b)
    = amount_sum (job_amount <$> tw_sol s' !!! best_route b).
Proof.
  intros Hsz Hv Hvf Hvb Hr [Hfwd Hbwd].
  destruct (add_job_amounts b s Hsz Hv Hvf Hvb Hr Hfwd Hbwd) as (Hr' & Hf' & Hb').
  cbv zeta in *.
  set (s' := add_job b s) in *. split; [|split].
  - intros r Hlt. rewrite Hb'.
    rewrite bwd_from_fwd_lookup
      by (unfold fwd_from_scratch; by rewrite length_cumulated, length_fmap).
    by apply bwd_is_suffix_sum.
  - done.
  - unfold total_amount. rewrite Hf'. apply back_fwd_from_scratch.
Qed.

End AmountCaches.

Section AmountCachesDemo.
#[local] Existing Instance Demo.instance.

(** C9 on the small instance: job 0 is added in front of job 1; the entry
    of job 1 is shifted, not rewritten. *)
Lemma addition_keeps_amounts_coherent_witness :
  amounts_coherent (add_job Demo.addition Demo.unloaded) 1
  ∧ bwd_amounts (sol_state (add_job Demo.addition Demo.unloaded)) !!! 1
    = [[1%Z]; [0%Z]].
Proof.
  split; [|reflexivity].
  apply (addition_keeps_amounts_coherent Demo.addition Demo.unloaded);
    [intros j; reflexivity | simpl; lia | simpl; lia | simpl; lia | simpl; lia
    | split; reflexivity].
Defined.

(** C3 as the spec words it fails: after that addition the route of
    vehicle 1 is [0; 1] and its backward amount at rank 0 is 1 (job 1
    alone), not 2 (jobs 0 and 1); and after the first round of [run()] on
    the first start, whose reinsertion adds job 2 to the empty route of
    vehicle 0, the backward amount of that route at rank 0 is 0, not 1. *)
Lemma bwd_sums_from_rank_counterexample :
  amounts_coherent Demo.unloaded 1
  ∧ Demo.addition = best_addition [1] (to_double 0) Demo.unloaded
  ∧ ¬ bwd_sums_from_rank (add_job Demo.addition Demo.unloaded) 1
  ∧ ¬ bwd_sums_from_rank (sol Demo.after_first_round) 0.
Proof.
  split; [split; reflexivity|]. split; [vm_compute; reflexivity|]. split.
  - intros Hclaim. specialize (Hclaim 0). vm_compute in Hclaim.
    specialize (Hclaim (le_S _ _ (le_n 1))). discriminate Hclaim.
  - intros Hclaim. specialize (Hclaim 0). vm_compute in Hclaim.
    specialize (Hclaim (le_n 1)). discriminate Hclaim.
Qed.

Lemma addition_bwd_amounts_after_rank_witness :
  bwd_sums_after_rank (add_job Demo.addition Demo.unloaded) 1.
Proof.
  apply (addition_bwd_amounts_after_rank Demo.addition Demo.unloaded);
    [intros j; reflexivity | simpl; lia | simpl; lia | simpl; lia | simpl; lia
    | split; reflexivity].
Defined.

End AmountCachesDemo.

(** ** Route straightening *)

Section Straighten.
Context `{Collaborators}.

Lemma straighten_route_unassigned (v : index) (s : solution) :
  unassigned (sol_state (straighten_route v s)) = unassigned (sol_state s).
Proof. unfold straighten_route. repeat case_match; done. Qed.

Lemma straighten_route_other (v v' : index) (s : solution) :
  v ≠ v' → tw_sol (straighten_route v s) !!! v' = tw_sol s !!! v'.
Proof.
  intros Hne. unfold straighten_route.
  repeat case_match; try done; simpl; by rewrite list_lookup_total_insert_ne.
Qed.

Lemma straighten_route_length (v v' : index) (s : solution) :
  length (tw_sol (straighten_route v s) !!! v') = length (tw_sol s !!! v').
Proof.
  destruct (decide (v = v')) as [<-|Hne];
    [|by rewrite straighten_route_other].
  unfold straighten_route.
  destruct (decide (0 < length (tw_sol s !!! v))) as [Hpos|]; [|done].
  set (c := if _ || _ then _ else _).
  destruct (length c =? length (tw_sol s !!! v)) eqn:Hlen; [|done].
  destruct (route_cost_for_vehicle v c <? _)%Z; [|done]. simpl.
  apply Nat.eqb_eq in Hlen.
  rewrite list_lookup_total_insert_eq; [done|].
  apply lookup_lt_is_Some. rewrite list_lookup_total_alt in Hpos.
  destruct (tw_sol s !! v); [eauto | simpl in Hpos; lia].
Qed.

(** C7.  With [fw] and [bw] the routes the constructive heuristic rebuilds
    from route [v] forwards and backwards, the variant that is kept is [bw]
    when it serves more jobs, or as many at a strictly lower cost, and [fw]
    otherwise.  [straighten_route] replaces route [v] and its cached cost
    by that variant and its cost exactly when the route is not empty, the
    variant serves as many jobs as the route and costs strictly less than
    the cached cost; in every other case nothing changes.  The number of
    jobs of every route and the unassigned jobs are never changed, and as
    the heuristic only returns jobs of the route it is given, each once,
    the route keeps exactly its jobs. *)
Theorem straighten_route_spec (v : index) (s : solution) :
  let r := tw_sol s !!! v in
  let cost := route_cost_for_vehicle v in
  let fw := single_route_heuristic v r true in
  let bw := single_route_heuristic v r false in
  let chosen :=
    if decide (length fw < length bw
               ∨ (length bw = length fw ∧ (cost bw < cost fw)%Z))
    then bw else fw in
  let replace :=
    0 < length r ∧ length chosen = length r
    ∧ (cost chosen < route_costs (sol_state s) !!! v)%Z in
  let s' := straighten_route v s in
  NoDup r →
  (∀ forward, NoDup (single_route_heuristic v r forward)
              ∧ single_route_heuristic v r forward ⊆ r) →
  (replace →
     tw_sol s' = <[v := chosen]> (tw_sol s)
     ∧ route_costs (sol_state s') = <[v := cost chosen]> (route_costs (sol_state s)))
  ∧ (¬ replace → s' = s)
  ∧ (∀ v', length (tw_sol s' !!! v') = length (tw_sol s !!! v'))
  ∧ unassigned (sol_state s') = unassigned (sol_state s)
  ∧ tw_sol s' !!! v ≡ₚ r.
Proof.
  intros r cost fw bw chosen replace s' Hnd Hheur.
  assert (Hchosen :
    (if (length fw <? length bw)
        || ((length bw =? length fw) && (cost bw <? cost fw)%Z)
     then bw else fw) = chosen).
  { unfold chosen. destruct (decide _) as [Hd|Hd].
    - destruct Hd as [Hlt|[Heq Hc]].
      + apply Nat.ltb_lt in Hlt. by rewrite Hlt.
      + apply Nat.eqb_eq in Heq. apply Z.ltb_lt in Hc.
        rewrite Heq, Hc. by rewrite orb_true_r.
    - destruct (length fw <? length bw) eqn:Hlt.
      { apply Nat.ltb_lt in Hlt. exfalso; apply Hd; by left. }
      destruct (length bw =? length fw) eqn:Heq; [|done].
      destruct (cost bw <? cost fw)%Z eqn:Hc; [|done].
      apply Nat.eqb_eq in Heq. apply Z.ltb_lt in Hc.
      exfalso; apply Hd; by right. }
  assert (Hunfold : s' =
    if decide (0 < length r) then
      if length chosen =? length r then
        if (cost chosen <? route_costs (sol_state s) !!! v)%Z then
          {| tw_sol := <[v := chosen]> (tw_sol s);
             sol_state :=
               {| route_costs := <[v := cost chosen]> (route_costs (sol_state s));
                  fwd_amounts := fwd_amounts (sol_state s);
                  bwd_amounts := bwd_amounts (sol_state s);
                  node_gains := node_gains (sol_state s);
                  edge_gains := edge_gains (sol_state s);
                  unassigned := unassigned (sol_state s) |} |}
        else s
      else s
    else s).
  { rewrite <- Hchosen. reflexivity. }
  split; [|split; [|split; [|split]]].
  - intros (Hpos & Hlen & Hc). rewrite Hunfold.
    apply Nat.eqb_eq in Hlen. apply Z.ltb_lt in Hc.
    destruct (decide (0 < length r)); [|done]. by rewrite Hlen, Hc.
  - intros Hno. rewrite Hunfold.
    destruct (decide (0 < length r)) as [Hpos|]; [|done].
    destruct (length chosen =? length r) eqn:Hlen; [|done].
    destruct (cost chosen <? _)%Z eqn:Hc; [|done].
    apply Nat.eqb_eq in Hlen. apply Z.ltb_lt in Hc. exfalso; by apply Hno.
  - intros v'. apply straighten_route_length.
  - apply straighten_route_unassigned.
  - rewrite Hunfold.
    destruct (decide (0 < length r)) as [Hpos|]; [|done].
    destruct (length chosen =? length r) eqn:Hlen; [|done].
    destruct (cost chosen <? _)%Z eqn:Hc; [|done]. simpl.
    apply Nat.eqb_eq in Hlen.
    rewrite list_lookup_total_insert_eq.
    2:{ apply lookup_lt_is_Some. unfold r in Hpos.
        rewrite list_lookup_total_alt in Hpos.
        destruct (tw_sol s !! v); [eauto | simpl in Hpos; lia]. }
    assert (Hc' : NoDup chosen ∧ chosen ⊆ r).
    { unfold chosen. destruct (decide _); apply Hheur. }
    destruct Hc' as [Hndc Hsub].
    apply submseteq_length_Permutation; [|lia].
    by apply NoDup_submseteq.
Qed.

End Straighten.

Section StraightenDemo.
#[local] Existing Instance Demo.instance.

(** C7 on the small instance: the reversed route of vehicle 1 is no
    cheaper, the solution stays as it is. *)
Lemma straighten_route_spec_witness :
  straighten_route 1 Demo.start = Demo.start.
Proof.
  apply (straighten_route_spec 1 Demo.start).
  - apply NoDup_singleton.
  - intros [|]; (split; [apply NoDup_singleton | done]).
  - vm_compute. intros (_ & _ & Hc). discriminate Hc.
Defined.

End StraightenDemo.

(** ** The early break of the 2-opt* scans *)

Section EarlyBreak.
Context `{Collaborators}.

(** Along [l], once the bound fails it fails for good. *)
Definition fails_for_good (ok : nat → bool) (l : list nat) : Prop :=
  ∀ i j y z, l !! i = Some y → l !! j = Some z → i < j →
    ok y = false → ok z = false.

Lemma filter_none {A} (P : A → Prop) `{∀ a, Decision (P a)} (l : list A) :
  Forall (λ a, ¬ P a) l → filter P l = [].
Proof.
  induction 1 as [|a l Ha Hl IH]; [done|].
  by rewrite filter_cons, decide_False.
Qed.

Lemma ranks_until_break_filter (ok : nat → bool) (l : list nat) :
  fails_for_good ok l →
  ranks_until_break ok l = filter (λ r, ok r = true) l.
Proof.
  induction l as [|r l IH]; intros Hl; [done|].
  assert (Htail : fails_for_good ok l).
  { intros i j y z Hi Hj Hij. apply (Hl (S i) (S j)); [done | done | lia]. }
  simpl. rewrite filter_cons. destruct (ok r) eqn:Hr.
  - rewrite decide_True by done. by rewrite IH.
  - rewrite decide_False by done.
    symmetry. apply filter_none, Forall_forall. intros z Hz.
    apply list_elem_of_lookup in Hz as [j Hj].
    rewrite (Hl 0 (S j) r z); [done | done | done | lia | done].
Qed.

Lemma bind_ext_elem {A B} (f g : A → list B) (l : list A) :
  (∀ a, a ∈ l → f a = g a) → l ≫= f = l ≫= g.
Proof.
  induction l as [|a l IH]; intros Hfg; [done|].
  rewrite !bind_cons, (Hfg a), IH; [done | | by left].
  intros b Hb. apply Hfg. by right.
Qed.

Lemma nonneg_add (a b : amount) :
  Forall (λ z, 0 ≤ z)%Z a → Forall (λ z, 0 ≤ z)%Z b →
  Forall (λ z, 0 ≤ z)%Z (amount_add a b).
Proof.
  intros Ha. revert b. induction Ha as [|z a Hz Ha IH]; intros b Hb; [constructor|].
  destruct Hb as [|u b Hu Hb]; simpl; constructor; [lia | by apply IH].
Qed.

Lemma nonneg_sum (l : list amount) :
  Forall (Forall (λ z, 0 ≤ z)%Z) l → Forall (λ z, 0 ≤ z)%Z (amount_sum l).
Proof.
  unfold amount_sum.
  assert (Hz : Forall (λ z, 0 ≤ z)%Z (amount_zero amount_size)).
  { apply Forall_replicate. lia. }
  revert Hz. generalize (amount_zero amount_size).
  intros acc Hacc Hl. revert acc Hacc.
  induction Hl as [|a l Ha Hl IH]; intros acc Hacc; simpl; [done|].
  apply IH. by apply nonneg_add.
Qed.

Section Monotone.
Hypothesis amounts_sized : ∀ j, length (job_amount j) = amount_size.
Hypothesis amounts_nonneg : ∀ j, Forall (λ z, 0 ≤ z)%Z (job_amount j).

Lemma sized_lookup (r : route) (i : nat) :
  i < length r → sized (fwd_from_scratch r !!! i).
Proof.
  intros Hi. rewrite fwd_from_scratch_lookup by done.
  apply sized_fold; [apply sized_zero|].
  apply Forall_fmap, Forall_forall. intros; apply amounts_sized.
Qed.

(** Forward amounts grow with the rank. *)
Lemma fwd_monotone (r : route) (i k : nat) :
  i ≤ k → k < length r →
  amount_le (fwd_from_scratch r !!! i) (fwd_from_scratch r !!! k) = true.
Proof.
  intros Hik Hk.
  assert (Hall : ∀ l : route, Forall sized (job_amount <$> l)).
  { intros l. apply Forall_fmap, Forall_forall. intros; apply amounts_sized. }
  rewrite !fwd_from_scratch_lookup by lia.
  assert (Hsplit : take (S k) r = take (S i) r ++ drop (S i) (take (S k) r)).
  { rewrite <- (take_drop (S i) (take (S k) r)) at 1.
    rewrite take_take. by replace (S i `min` S k) with (S i) by lia. }
  rewrite Hsplit, fmap_app. unfold amount_sum at 2. rewrite fold_left_app.
  fold (amount_sum (job_amount <$> take (S i) r)).
  rewrite fold_amount_add; [| apply sized_fold; [apply sized_zero | apply Hall] | apply Hall].
  apply amount_add_le_mono_l.
  - transitivity amount_size.
    + apply sized_fold; [apply sized_zero | apply Hall].
    + symmetry. apply sized_fold; [apply sized_zero | apply Hall].
  - apply nonneg_sum, Forall_fmap, Forall_forall. intros; apply amounts_nonneg.
Qed.

(** Backward amounts shrink with the rank. *)
Lemma bwd_monotone (r : route) (i k : nat) :
  i ≤ k → k < length r →
  amount_le (bwd_from_fwd (fwd_from_scratch r) !!! k)
            (bwd_from_fwd (fwd_from_scratch r) !!! i) = true.
Proof.
  intros Hik Hk.
  assert (Hlen : length (fwd_from_scratch r) = length r).
  { unfold fwd_from_scratch. by rewrite length_cumulated, length_fmap. }
  rewrite !bwd_from_fwd_lookup by lia.
  apply amount_sub_le_mono; [|by apply fwd_monotone].
  rewrite back_fwd_from_scratch.
  transitivity amount_size.
  - apply sized_fold; [apply sized_zero|].
    apply Forall_fmap, Forall_forall. intros; apply amounts_sized.
  - symmetry. apply sized_lookup. lia.
Qed.

Lemma two_opt_scan_exhaustive (x : search) (s sr t : nat) :
  amounts_coherent (sol x) t →
  two_opt_t_ranks x s sr t
  = filter (λ tr, two_opt_bound x s sr t tr = true) (reverse (seq 0 (size x t))).
Proof.
  intros [Hfwd Hbwd]. apply ranks_until_break_filter.
  intros i j y z Hi Hj Hij Hy.
  apply reverse_lookup_Some in Hi as [Hi Hli], Hj as [Hj Hlj].
  rewrite length_seq in *.
  apply lookup_seq in Hi as [-> _], Hj as [-> _]. simpl in *.
  destruct (two_opt_bound x s sr t (size x t - S j)) eqn:Hz; [|done].
  rewrite <- Hy. symmetry. unfold two_opt_bound, get2 in *.
  rewrite Hbwd, Hfwd in *.
  eapply amount_le_trans; [|exact Hz].
  apply bwd_monotone; unfold size in *; lia.
Qed.

Lemma reverse_two_opt_scan_exhaustive (x : search) (s sr t : nat) :
  amounts_coherent (sol x) t →
  reverse_two_opt_t_ranks x s sr t
  = filter (λ tr, reverse_two_opt_bound x s sr t tr = true) (seq 0 (size x t)).
Proof.
  intros [Hfwd Hbwd]. apply ranks_until_break_filter.
  intros i j y z Hi Hj Hij Hy.
  apply lookup_seq in Hi as [-> Hli], Hj as [-> Hlj]. simpl in *.
  destruct (reverse_two_opt_bound x s sr t j) eqn:Hz; [|done].
  rewrite <- Hy. symmetry. unfold reverse_two_opt_bound, get2 in *.
  rewrite Hfwd in *.
  eapply amount_le_trans; [|exact Hz].
  apply fwd_monotone; unfold size in *; lia.
Qed.

End Monotone.

(** On a state whose amount caches are coherent for the target routes,
    the scans with the break are the scans of all the ranks that keep the
    ranks within the bound. *)
Lemma early_break_scans_coherent (x : search) :
  (∀ j, length (job_amount j) = amount_size) →
  (∀ j, Forall (λ z, 0 ≤ z)%Z (job_amount j)) →
  (∀ s t, (s, t) ∈ s_t_pairs x → amounts_coherent (sol x) t) →
  two_opt_candidates x = two_opt_candidates_exhaustive x
  ∧ reverse_two_opt_candidates x = reverse_two_opt_candidates_exhaustive x.
Proof.
  intros Hsz Hnn Hcoh. split.
  - apply bind_ext_elem. intros [s t] Hst.
    destruct (t <=? s); [done|].
    apply bind_ext_elem. intros sr _.
    rewrite two_opt_scan_exhaustive; [done | done | done | by eapply Hcoh].
  - apply bind_ext_elem. intros [s t] Hst.
    apply bind_ext_elem. intros sr _.
    rewrite reverse_two_opt_scan_exhaustive; [done | done | done | by eapply Hcoh].
Qed.

End EarlyBreak.


(** ** Vectors of vectors *)

Section Matrices.
Context {A : Type} `{Inhabited A}.

(** An [n] by [n] matrix, as [run()] allocates [best_gains] and [best_ops]. *)
Definition square (n : nat) (m : list (list A)) : Prop :=
  length m = n ∧ ∀ s, s < n → length (m !!! s) = n.

Lemma square_replicate (n : nat) (a : A) : square n (replicate n (replicate n a)).
Proof.
  split; [apply length_replicate|]. intros s Hs.
  rewrite lookup_total_replicate_2 by done. apply length_replicate.
Qed.

Lemma square_insert_row (n : nat) (m : list (list A)) (s : nat) (row : list A) :
  square n m → length row = n → square n (<[s := row]> m).
Proof.
  intros [Hm Hrows] Hrow. split; [by rewrite length_insert|].
  intros s' Hs'. rewrite list_lookup_total_insert.
  case_decide; [done | by apply Hrows].
Qed.

Lemma square_set2 (n : nat) (m : list (list A)) (s t : nat) (a : A) :
  square n m → square n (set2 m s t a).
Proof.
  intros Hsq. unfold set2. destruct (decide (s < n)) as [Hs|Hs].
  - apply square_insert_row; [done|]. rewrite length_insert. by apply Hsq.
  - rewrite list_insert_ge; [done|]. destruct Hsq as [-> _]. lia.
Qed.

Lemma get2_set2 (n : nat) (m : list (list A)) (s t : nat) (a : A) (s' t' : nat) :
  square n m → s < n → t < n →
  get2 (set2 m s t a) s' t' = if decide (s = s' ∧ t = t') then a else get2 m s' t'.
Proof.
  intros [Hm Hrows] Hs Ht. unfold get2, set2.
  rewrite list_lookup_total_insert. rewrite Hm.
  destruct (decide (s = s')) as [<-|Hne].
  - rewrite decide_True by done. rewrite list_lookup_total_insert.
    rewrite Hrows by done.
    destruct (decide (t = t')) as [<-|Hnt].
    + by rewrite !decide_True by done.
    + by rewrite !decide_False by (intros [??]; done).
  - by rewrite !decide_False by (intros [??]; done).
Qed.

Lemma set2_out_of_range (n : nat) (m : list (list A)) (s t : nat) (a : A) :
  square n m → ¬ (s < n ∧ t < n) → set2 m s t a = m.
Proof.
  intros [Hm Hrows] Hno. unfold set2.
  destruct (decide (s < n)) as [Hs|Hs].
  - rewrite (list_insert_ge (m !!! s)) by (rewrite Hrows by done; lia).
    apply list_insert_id. apply list_lookup_lookup_total_lt. lia.
  - apply list_insert_ge. lia.
Qed.

Lemma get2_out_of_range (n : nat) (m : list (list A)) (s t : nat) :
  square n m → ¬ (s < n ∧ t < n) → get2 m s t = inhabitant.
Proof.
  intros [Hm Hrows] Hno. unfold get2.
  destruct (decide (s < n)) as [Hs|Hs].
  - rewrite (list_lookup_total_alt (m !!! s)), lookup_ge_None_2; [done|].
    rewrite Hrows by done. lia.
  - rewrite (list_lookup_total_alt m), lookup_ge_None_2 by lia. done.
Qed.

End Matrices.

Lemma fold_left_preserves {A B} (P : A → Prop) (f : A → B → A) (l : list B) (a : A) :
  (∀ a b, P a → P (f a b)) → P a → P (fold_left f l a).
Proof.
  intros Hf. revert a. induction l as [|b l IH]; intros a Ha; [done|].
  simpl. by apply IH, Hf.
Qed.

(** ** The round loop *)

Section Rounds.
Context `{Collaborators}.

(** *** The evaluation phase *)

(** Whatever every candidate consideration preserves, the whole
    evaluation phase preserves. *)
Lemma evaluate_preserves (P : search → Prop) :
  (∀ k x c, P x → P (consider k x c)) →
  ∀ x, P x → P (evaluate x).
Proof.
  intros Hc x Hx. unfold evaluate.
  assert (Hloop : ∀ k (guard : search → nat → nat → bool)
                    (skip : search → nat → nat → nat → bool)
                    (s_ranks : search → nat → list nat) y,
    P y →
    P (fold_left
         (λ x '(s, t),
            if guard x s t then x
            else fold_left
                   (λ x sr,
                      if skip x s t sr then x
                      else fold_left (λ x tr, consider k x (s, sr, t, tr))
                                     (seq 0 (S (size x t))) x)
                   (s_ranks x s) x)
         (s_t_pairs y) y)).
  { intros k guard skip s_ranks y Hy.
    apply fold_left_preserves; [|done]. intros a [s t] Ha.
    destruct (guard a s t); [done|].
    apply fold_left_preserves; [|done]. intros a' sr Ha'.
    destruct (skip a' s t sr); [done|].
    apply fold_left_preserves; [|done]. intros a'' tr Ha''. by apply Hc. }
  unfold or_opt_loop, relocate_loop.
  apply (Hloop OrOpt
           (λ x s t, (size x s <? 2)
                     || negb (amount_le (amount_add (total_amount (sol_state (sol x)) t)
                                                    double_amount_lower_bound)
                                        (capacity t)))
           (λ x s t sr, (get2 (edge_gains (sol_state (sol x))) s sr
                         <=? get2 (best_gains x) s t)%Z)
           (λ x s, seq 0 (size x s - 1))).
  apply (Hloop Relocate
           (λ x s t, (size x s =? 0)
                     || negb (amount_le (amount_add (total_amount (sol_state (sol x)) t)
                                                    amount_lower_bound)
                                        (capacity t)))
           (λ x s t sr, (get2 (node_gains (sol_state (sol x))) s sr
                         <=? get2 (best_gains x) s t)%Z)
           (λ x s, seq 0 (size x s))).
  repeat (apply fold_left_preserves; [intros; by apply Hc|]). done.
Qed.

Lemma consider_sol (k : operator_kind) (x : search) (c : nat * nat * nat * nat) :
  sol (consider k x c) = sol x ∧ s_t_pairs (consider k x c) = s_t_pairs x.
Proof.
  destruct c as [[[s sr] t] tr]. unfold consider. by destruct (_ && _).
Qed.

Lemma evaluate_sol (x : search) :
  sol (evaluate x) = sol x ∧ s_t_pairs (evaluate x) = s_t_pairs x.
Proof.
  apply (evaluate_preserves (λ y, sol y = sol x ∧ s_t_pairs y = s_t_pairs x));
    [|done].
  intros k y c [Hs Hp]. destruct (consider_sol k y c) as [-> ->]. done.
Qed.

(** *** Gains and stored moves *)

Definition squares (x : search) : Prop :=
  square V (best_gains x) ∧ square V (best_ops x).

(** A positive best gain comes with a stored move. *)
Definition ops_cover_gains (x : search) : Prop :=
  ∀ s t, s < V → t < V →
    (0 < get2 (best_gains x) s t)%Z → get2 (best_ops x) s t ≠ None.

Lemma consider_squares (k : operator_kind) (x : search) (c : nat * nat * nat * nat) :
  squares x → squares (consider k x c).
Proof.
  intros [Hg Ho]. destruct c as [[[s sr] t] tr]. unfold consider.
  destruct (_ && _); [|done]. split; simpl; by apply square_set2.
Qed.

Lemma consider_ops_cover_gains (k : operator_kind) (x : search) (c : nat * nat * nat * nat) :
  squares x → ops_cover_gains x → ops_cover_gains (consider k x c).
Proof.
  intros [Hg Ho] Hcov. destruct c as [[[s sr] t] tr]. unfold consider.
  destruct (_ && _); [|done]. intros s' t' Hs' Ht'. simpl.
  destruct (decide (s < V ∧ t < V)) as [[Hs Ht]|Hout].
  - rewrite !(get2_set2 V) by done. case_decide; [done | by apply Hcov].
  - rewrite !(set2_out_of_range V) by done. by apply Hcov.
Qed.

Lemma evaluate_ops_cover_gains (x : search) :
  squares x → ops_cover_gains x →
  squares (evaluate x) ∧ ops_cover_gains (evaluate x).
Proof.
  intros Hsq Hcov.
  apply (evaluate_preserves (λ y, squares y ∧ ops_cover_gains y)); [|done].
  intros k y c [Hy1 Hy2]. split;
    [by apply consider_squares | by apply consider_ops_cover_gains].
Qed.

(** *** The selection *)

Lemma find_best_spec (gains : list (list Z)) :
  let '(g, s, t) := find_best gains in
  ((g = 0%Z ∧ s = 0 ∧ t = 0)
   ∨ (s ≠ t ∧ s < V ∧ t < V ∧ get2 gains s t = g ∧ (0 < g)%Z))
  ∧ ∀ s' t', s' < V → t' < V → s' ≠ t' → (get2 gains s' t' ≤ g)%Z.
Proof.
  set (inner := λ (s_v : nat) (b : Z * nat * nat) (t_v : nat),
         if decide (s_v = t_v) then b
         else if (b.1.1 <? get2 gains s_v t_v)%Z
              then (get2 gains s_v t_v, s_v, t_v) else b).
  set (good := λ (b : Z * nat * nat),
         (b.1.1 = 0%Z ∧ b.1.2 = 0 ∧ b.2 = 0)
         ∨ (b.1.2 ≠ b.2 ∧ b.1.2 < V ∧ b.2 < V
            ∧ get2 gains b.1.2 b.2 = b.1.1 ∧ (0 < b.1.1)%Z)).
  assert (Hinner : ∀ s_v n b,
    s_v < V → n ≤ V → good b →
    let b' := fold_left (inner s_v) (seq 0 n) b in
    good b' ∧ (b.1.1 ≤ b'.1.1)%Z
    ∧ ∀ t', t' < n → s_v ≠ t' → (get2 gains s_v t' ≤ b'.1.1)%Z).
  { intros s_v n b Hs. induction n as [|n IH]; intros Hn Hb.
    - simpl. split; [done|]. split; [lia|]. intros; lia.
    - rewrite seq_S, fold_left_app. simpl.
      destruct IH as (Hg & Hmono & Hbound); [lia | done |].
      set (b1 := fold_left (inner s_v) (seq 0 n) b) in *.
      clearbody b1. unfold inner. destruct (decide (s_v = n)) as [->|Hne].
      + split; [done|]. split; [done|]. intros t' Ht' Hnt'. apply Hbound; lia.
      + destruct (b1.1.1 <? get2 gains s_v n)%Z eqn:Hlt.
        * apply Z.ltb_lt in Hlt. simpl. split; [|split].
          -- right. simpl. destruct Hg as [(Hz & _)|(_ & _ & _ & _ & Hpos)];
               repeat split; try done; lia.
          -- lia.
          -- intros t' Ht' Hnt'. destruct (decide (t' = n)) as [->|]; [lia|].
             specialize (Hbound t'). lia.
        * apply Z.ltb_ge in Hlt. split; [done|]. split; [done|].
          intros t' Ht' Hnt'. destruct (decide (t' = n)) as [->|]; [lia|].
          apply Hbound; lia. }
  assert (Houter : ∀ n, n ≤ V →
    let b' := fold_left (λ b s_v, fold_left (inner s_v) (seq 0 V) b)
                        (seq 0 n) (0%Z, 0, 0) in
    good b'
    ∧ ∀ s' t', s' < n → t' < V → s' ≠ t' → (get2 gains s' t' ≤ b'.1.1)%Z).
  { induction n as [|n IH]; intros Hn.
    - simpl. split; [by left|]. intros; lia.
    - rewrite seq_S, fold_left_app. simpl.
      destruct IH as (Hg & Hbound); [lia|].
      set (b1 := fold_left _ (seq 0 n) (0%Z, 0, 0)) in *.
      destruct (Hinner n V b1) as (Hg' & Hmono & Hbound'); [lia | lia | done |].
      split; [done|]. intros s' t' Hs' Ht' Hne.
      destruct (decide (s' = n)) as [->|]; [by apply Hbound'|].
      specialize (Hbound s' t'). lia. }
  destruct (Houter V) as (Hg & Hbound); [lia|].
  unfold find_best. fold inner.
  destruct (fold_left _ (seq 0 V) (0%Z, 0, 0)) as [[g s] t]. split; [|done].
  exact Hg.
Qed.

(** *** The reset of the gains *)

Ltac decide_goal :=
  repeat match goal with |- context [decide ?P] => destruct (decide P) end;
  first [reflexivity | exfalso; destruct_and?; destruct_or?; destruct_and?; lia].

Lemma reset_gains_spec (bs bt : nat) (g : list (list Z)) :
  square V g → bs < V → bt < V →
  square V (reset_gains bs bt g)
  ∧ ∀ s t, s < V → t < V →
      get2 (reset_gains bs bt g) s t
      = if decide (s = bs ∨ s = bt ∨ t = bs ∨ t = bt) then 0%Z else get2 g s t.
Proof.
  intros Hg Hbs Hbt. unfold reset_gains.
  set (g1 := <[bt := replicate V 0%Z]> (<[bs := replicate V 0%Z]> g)).
  assert (Hg1 : square V g1).
  { repeat apply square_insert_row; try done; apply length_replicate. }
  assert (Hrows : ∀ s t, s < V → t < V →
            get2 g1 s t = if decide (s = bs ∨ s = bt) then 0%Z else get2 g s t).
  { intros s t Hs Ht. unfold get2, g1. destruct Hg as [Hlen _].
    rewrite list_lookup_total_insert, length_insert, Hlen.
    destruct (decide (bt = s)) as [->|Hne1].
    { rewrite decide_True by done. rewrite decide_True by auto.
      by apply lookup_total_replicate_2. }
    rewrite decide_False by (intros [??]; done).
    rewrite list_lookup_total_insert, Hlen.
    destruct (decide (bs = s)) as [->|Hne2].
    { rewrite decide_True by done. rewrite decide_True by auto.
      by apply lookup_total_replicate_2. }
    rewrite decide_False by (intros [??]; done).
    rewrite decide_False by (intros [?|?]; done). done. }
  set (step := λ (g : list (list Z)) (v : nat),
         if decide (v = bs ∨ v = bt) then g
         else set2 (set2 (set2 (set2 g v bs 0%Z) bs v 0%Z) v bt 0%Z) bt v 0%Z).
  assert (Hfold : ∀ n, n ≤ V →
    square V (fold_left step (seq 0 n) g1)
    ∧ ∀ s t, s < V → t < V →
        get2 (fold_left step (seq 0 n) g1) s t
        = if decide ((s < n ∧ s ≠ bs ∧ s ≠ bt ∧ (t = bs ∨ t = bt))
                     ∨ (t < n ∧ t ≠ bs ∧ t ≠ bt ∧ (s = bs ∨ s = bt)))
          then 0%Z else get2 g1 s t).
  { induction n as [|n IH]; intros Hn.
    - split; [done|]. intros s t Hs Ht.
      rewrite decide_False; [done|]. lia.
    - destruct IH as [Hsq Hval]; [lia|].
      rewrite seq_S, fold_left_app. simpl.
      set (gn := fold_left step (seq 0 n) g1) in *. clearbody gn.
      assert (Hstep : step gn n
                      = if decide (n = bs ∨ n = bt) then gn
                        else set2 (set2 (set2 (set2 gn n bs 0%Z) bs n 0%Z) n bt 0%Z)
                                  bt n 0%Z) by done.
      rewrite Hstep. clear Hstep.
      destruct (decide (n = bs ∨ n = bt)) as [Hn'|Hn'].
      + split; [done|]. intros s t Hs Ht. rewrite Hval by done.
        clear Hval Hrows Hg Hg1 Hsq. clearbody g1. clear step. decide_goal.
      + split; [by repeat apply square_set2|]. intros s t Hs Ht.
        rewrite !(get2_set2 V) by (try lia; by repeat apply square_set2).
        rewrite Hval by done.
        clear Hval Hrows Hg Hg1 Hsq. clearbody g1. clear step. decide_goal. }
  destruct (Hfold V) as [Hsq Hval]; [lia|]. fold step. split; [done|].
  intros s t Hs Ht. rewrite Hval, Hrows by done.
  clear Hval Hrows Hfold Hg Hg1 Hsq. clearbody g1. clear step. decide_goal.
Qed.

(** *** What a round does to the state around the solution *)

Lemma round_continues (x x' : search) :
  round x = inr (x', true) →
  ∃ g bs bt,
    find_best (best_gains (evaluate x)) = (g, bs, bt) ∧ (0 < g)%Z
    ∧ apply_best g bs bt (evaluate x) = inr x'.
Proof.
  unfold round. destruct (find_best _) as [[g bs] bt] eqn:Hbest.
  destruct (0 <? g)%Z eqn:Hg; [|by intros [=]].
  apply Z.ltb_lt in Hg.
  destruct (apply_best g bs bt (evaluate x)) as [f|y] eqn:Happly; [done|].
  intros [= <-]. by exists g, bs, bt.
Qed.

Lemma apply_best_search (g : Z) (bs bt : nat) (x x' : search) :
  apply_best g bs bt x = inr x' →
  best_ops x' = best_ops x
  ∧ best_gains x' = reset_gains bs bt (best_gains x)
  ∧ s_t_pairs x' = next_pairs bs bt.
Proof.
  unfold apply_best. destruct (get2 (best_ops x) bs bt) as [o|]; [|done].
  case_decide; [|done]. by intros [= <-].
Qed.

Lemma initial_squares (s0 : solution) : squares (initial_search s0).
Proof. split; apply square_replicate. Qed.

Lemma initial_gains (s0 : solution) (s t : nat) :
  s < V → t < V → get2 (best_gains (initial_search s0)) s t = 0%Z.
Proof.
  intros Hs Ht. unfold get2. simpl. by rewrite !lookup_total_replicate_2.
Qed.

Lemma reachable_ops_cover_gains (s0 : solution) (x : search) :
  reachable s0 x → squares x ∧ ops_cover_gains x.
Proof.
  induction 1 as [|x x' Hreach [Hsq Hcov] Hround].
  - split; [apply initial_squares|]. intros s t Hs Ht.
    rewrite initial_gains by done. lia.
  - destruct (evaluate_ops_cover_gains x Hsq Hcov) as [[Hg Ho] Hcov'].
    destruct (round_continues _ _ Hround) as (g & bs & bt & Hbest & Hpos & Happly).
    destruct (apply_best_search _ _ _ _ _ Happly) as (Hops & Hgains & _).
    pose proof (find_best_spec (best_gains (evaluate x))) as Hspec.
    rewrite Hbest in Hspec. destruct Hspec as [[(-> & _)|(_ & Hbs & Hbt & _)] _]; [lia|].
    destruct (reset_gains_spec bs bt _ Hg Hbs Hbt) as [Hsq' Hval].
    split; [split; [by rewrite Hgains | by rewrite Hops]|].
    intros s t Hs Ht. rewrite Hgains, Hops.
    rewrite Hval by done. case_decide; [lia | by apply Hcov'].
Qed.

(** C10.  In every round of [run()], after the evaluation phase, a
    strictly positive entry of [best_gains] has a stored move in
    [best_ops]; so the assertion of line 380 holds for the selected pair
    and the round does not fail on a null operator. *)
Theorem positive_gain_has_operator (s0 : solution) (x : search) :
  reachable s0 x →
  (∀ s t, s < V → t < V →
     (0 < get2 (best_gains (evaluate x)) s t)%Z →
     get2 (best_ops (evaluate x)) s t ≠ None)
  ∧ round x ≠ inl null_operator.
Proof.
  intros Hreach. destruct (reachable_ops_cover_gains _ _ Hreach) as [Hsq Hcov].
  destruct (evaluate_ops_cover_gains x Hsq Hcov) as [[Hg Ho] Hcov'].
  split; [exact Hcov'|].
  unfold round. pose proof (find_best_spec (best_gains (evaluate x))) as Hspec.
  destruct (find_best _) as [[g bs] bt].
  destruct (0 <? g)%Z eqn:Hpos; [|done]. apply Z.ltb_lt in Hpos.
  destruct Hspec as [[(-> & _)|(_ & Hbs & Hbt & Hgain & _)] _]; [lia|].
  specialize (Hcov' bs bt Hbs Hbt). rewrite Hgain in Hcov'. specialize (Hcov' Hpos).
  unfold apply_best. destruct (get2 (best_ops (evaluate x)) bs bt); [|done].
  case_decide; done.
Qed.

End Rounds.

(** ** Job reinsertion *)

Section Reinsertion.
Context `{Collaborators}.

Lemma fold_indexed_inv {A St} (P : nat → St → Prop) (body : St → nat → A → St)
    (l : list A) (s : St) :
  P 0 s →
  (∀ k x st, l !! k = Some x → P k st → P (S k) (body st k x)) →
  P (length l) (fold_indexed body 0 l s).
Proof.
  assert (Hgen : ∀ l i s,
    P i s →
    (∀ k x st, l !! k = Some x → P (i + k) st → P (i + S k) (body st (i + k) x)) →
    P (i + length l) (fold_indexed body i l s)).
  { clear l s. induction l as [|a l IH]; intros i s Hs Hstep; simpl.
    - by rewrite Nat.add_0_r.
    - replace (i + S (length l)) with (S i + length l) by lia.
      apply IH.
      + specialize (Hstep 0 a s). rewrite Nat.add_0_r, Nat.add_1_r in Hstep.
        by apply Hstep.
      + intros k x st Hk Hst.
        specialize (Hstep (S k) x st Hk).
        replace (i + S k) with (S i + k) in Hstep by lia.
        replace (i + S (S k)) with (S i + S k) in Hstep by lia.
        by apply Hstep. }
  intros Hs Hstep. apply (Hgen l 0 s Hs). intros k x st. apply Hstep.
Qed.

(** *** The cheapest rank of a route (lines 58-68) *)

(** What the scan of the ranks of route [r] of vehicle [v] leaves for job
    [j]: the cost of the cheapest valid rank, at the first rank that has
    it, or [gain_max] when no valid rank costs less. *)
Lemma scan_ranks_spec (j v : index) (r : route) :
  let valid := λ rank, is_valid_addition_for_tw v r j rank = true in
  let cost := λ rank, addition_cost j v r rank in
  let c := (scan_ranks j v r).1 in
  let rk := (scan_ranks j v r).2 in
  ((c = gain_max ∧ rk = 0)
   ∨ ((c < gain_max)%Z ∧ rk ≤ length r ∧ valid rk ∧ cost rk = c
      ∧ ∀ k, k < rk → valid k → (c < cost k)%Z))
  ∧ ∀ k, k ≤ length r → valid k → (c ≤ cost k)%Z.
Proof.
  intros valid cost. unfold scan_ranks.
  set (step := λ (best : Z * nat) (rank : nat),
         if is_valid_addition_for_tw v r j rank then
           let current_cost := addition_cost j v r rank in
           if (current_cost <? best.1)%Z then (current_cost, rank) else best
         else best).
  assert (Hinv : ∀ n,
    let b := fold_left step (seq 0 n) (gain_max, 0) in
    ((b.1 = gain_max ∧ b.2 = 0)
     ∨ ((b.1 < gain_max)%Z ∧ b.2 < n ∧ valid b.2 ∧ cost b.2 = b.1
        ∧ ∀ k, k < b.2 → valid k → (b.1 < cost k)%Z))
    ∧ ∀ k, k < n → valid k → (b.1 ≤ cost k)%Z).
  { induction n as [|n [IH1 IH2]].
    - simpl. split; [by left | intros; lia].
    - rewrite seq_S, fold_left_app. simpl.
      set (b := fold_left step (seq 0 n) (gain_max, 0)) in *. clearbody b.
      set (b' := step b n).
      assert (Hb' : b' = if is_valid_addition_for_tw v r j n then
                           if (addition_cost j v r n <? b.1)%Z
                           then (addition_cost j v r n, n) else b
                         else b) by done.
      clearbody b'. unfold valid, cost in *.
      destruct (is_valid_addition_for_tw v r j n) eqn:Hn.
      + destruct (addition_cost j v r n <? b.1)%Z eqn:Hlt; subst b'.
        * apply Z.ltb_lt in Hlt. simpl. split.
          -- right. split; [destruct IH1 as [[? _]|(? & _)]; lia|].
             split; [lia|]. split; [done|]. split; [done|].
             intros k Hk Hvk. specialize (IH2 k Hk Hvk). lia.
          -- intros k Hk Hvk. destruct (decide (k = n)) as [->|]; [lia|].
             assert (k < n) as Hk' by lia. specialize (IH2 k Hk' Hvk). lia.
        * apply Z.ltb_ge in Hlt. split.
          -- destruct IH1 as [?|(? & ? & ?)]; [by left|]. right.
             split; [done|]. split; [lia | done].
          -- intros k Hk Hvk. destruct (decide (k = n)) as [->|]; [lia|].
             apply IH2; [lia | done].
      + subst b'. split.
        * destruct IH1 as [?|(? & ? & ?)]; [by left|]. right.
          split; [done|]. split; [lia | done].
        * intros k Hk Hvk. destruct (decide (k = n)) as [->|]; [congruence|].
          apply IH2; [lia | done]. }
  destruct (Hinv (S (length r))) as [H1 H2]. fold step. cbv zeta in H1, H2.
  set (b := fold_left step (seq 0 (S (length r))) (gain_max, 0)) in *. clearbody b.
  split.
  - destruct H1 as [?|(? & ? & ?)]; [by left|]. right. split; [done|]. split; [lia|done].
  - intros k Hk. apply H2. lia.
Qed.

(** *** The two smallest costs (lines 72-84) *)

(** [smallest] is the least of the costs (or [gain_max]), [smallest_idx]
    the first index that has it, and [second_smallest] the least of the
    costs at the other indices (or [gain_max]). *)
Definition two_smallest_of (costs : list Z) (n : nat) (two : Z * Z * option nat) : Prop :=
  let '(sm, sec, idx) := two in
  (sm ≤ sec)%Z ∧ (sec ≤ gain_max)%Z
  ∧ (∀ i c, i < n → costs !! i = Some c → (sm ≤ c)%Z)
  ∧ ((idx = None ∧ sm = gain_max ∧ sec = gain_max)
     ∨ ∃ i, idx = Some i ∧ i < n ∧ costs !! i = Some sm ∧ (sm < gain_max)%Z
            ∧ (∀ i' c, i' < i → costs !! i' = Some c → (sm < c)%Z)
            ∧ (∀ i' c, i' < n → i' ≠ i → costs !! i' = Some c → (sec ≤ c)%Z)
            ∧ (sec = gain_max
               ∨ ∃ i', i' < n ∧ i' ≠ i ∧ costs !! i' = Some sec)).

Lemma two_smallest_spec (costs : list Z) :
  two_smallest_of costs (length costs) (two_smallest costs).
Proof.
  unfold two_smallest.
  apply (fold_indexed_inv (two_smallest_of costs)).
  - simpl. split; [lia|]. split; [lia|]. split; [intros; lia|]. by left.
  - intros k c [[sm sec] idx] Hk (Hle & Hsec & Hmin & Hidx).
    destruct (c <? sm)%Z eqn:Hlt; [|destruct (c <? sec)%Z eqn:Hlt2].
    + apply Z.ltb_lt in Hlt. split; [lia|]. split; [lia|]. split.
      { intros i c' Hi Hc'. destruct (decide (i = k)) as [->|].
        - rewrite Hk in Hc'. injection Hc' as <-. lia.
        - assert (i < k) as Hi' by lia. specialize (Hmin i c' Hi' Hc'). lia. }
      right. exists k. split; [done|]. split; [lia|]. split; [done|].
      split; [lia|]. split.
      { intros i' c' Hi' Hc'. specialize (Hmin i' c' Hi' Hc'). lia. }
      split.
      { intros i' c' Hi' Hne Hc'. apply (Hmin i' c'); [lia | done]. }
      destruct Hidx as [(_ & -> & _)|(i & _ & Hi & Hci & _)]; [by left|].
      right. exists i. split; [lia|]. split; [lia | done].
    + apply Z.ltb_ge in Hlt. apply Z.ltb_lt in Hlt2.
      split; [lia|]. split; [lia|]. split.
      { intros i c' Hi Hc'. destruct (decide (i = k)) as [->|].
        - rewrite Hk in Hc'. injection Hc' as <-. lia.
        - apply (Hmin i c'); [lia | done]. }
      destruct Hidx as [(_ & Hsm & Hsec')|(i & Hsome & Hi & Hci & Hsmlt & Hfirst & Hothers & _)];
        [lia|].
      right. exists i. split; [done|]. split; [lia|]. split; [done|].
      split; [done|]. split; [done|]. split.
      { intros i' c' Hi' Hne Hc'. destruct (decide (i' = k)) as [->|].
        - rewrite Hk in Hc'. injection Hc' as <-. lia.
        - assert (i' < k) as Hi'' by lia.
          specialize (Hothers i' c' Hi'' Hne Hc'). lia. }
      right. exists k. split; [lia|]. split; [lia | done].
    + apply Z.ltb_ge in Hlt, Hlt2.
      split; [lia|]. split; [lia|]. split.
      { intros i c' Hi Hc'. destruct (decide (i = k)) as [->|].
        - rewrite Hk in Hc'. injection Hc' as <-. lia.
        - apply (Hmin i c'); [lia | done]. }
      destruct Hidx as [?|(i & Hsome & Hi & Hci & Hsmlt & Hfirst & Hothers & Hsecw)];
        [by left|].
      right. exists i. split; [done|]. split; [lia|]. split; [done|].
      split; [done|]. split; [done|]. split.
      { intros i' c' Hi' Hne Hc'. destruct (decide (i' = k)) as [->|].
        - rewrite Hk in Hc'. injection Hc' as <-. lia.
        - apply (Hothers i' c'); [lia | done | done]. }
      destruct Hsecw as [?|(i' & ? & ? & ?)]; [by left|].
      right. exists i'. split; [lia | done].
Qed.

(** *** The choice of a pass (lines 40-112) *)

(** The entry [(best_costs[i], best_ranks[i])] computed for job [j], the
    value [eval] computed from it, and the choice recorded when it wins. *)
Definition entry (s : solution) (routes : list index) (j : index) (i : nat) : Z * nat :=
  best_per_route s routes j !!! i.

Definition score (regret_coeff : double) (s : solution) (routes : list index)
    (j : index) (i : nat) : double :=
  eval regret_coeff (entry s routes j i).1
       (regret_cost (two_smallest ((best_per_route s routes j).*1)) i).

Definition finite_choice (s : solution) (routes : list index) (j : index) (i : nat) : Prop :=
  i < length routes ∧ (entry s routes j i).1 ≠ gain_max.

Definition choice_of (regret_coeff : double) (s : solution) (routes : list index)
    (j : index) (i : nat) : choice :=
  {| best_cost := score regret_coeff s routes j i;
     best_job := j;
     best_route := routes !!! i;
     best_rank := (entry s routes j i).2 |}.

Definition no_choice : choice :=
  {| best_cost := double_max; best_job := 0; best_route := 0; best_rank := 0 |}.

(** [<] on [double] is a strict order. *)
Definition double_lt_strict : Prop :=
  (∀ a, double_lt a a = false)
  ∧ (∀ a b c, double_lt a b = true → double_lt b c = true → double_lt a c = true).

Lemma fold_left_inv_prefix {A B} (P : list B → A → Prop) (f : A → B → A)
    (l : list B) (a : A) :
  P [] a →
  (∀ pre x a, P pre a → P (pre ++ [x]) (f a x)) →
  P l (fold_left f l a).
Proof.
  intros Ha Hstep.
  assert (Hgen : ∀ l pre a, P pre a → P (pre ++ l) (fold_left f l a)).
  { clear l a Ha. induction l as [|x l IH]; intros pre a Ha; simpl.
    - by rewrite app_nil_r.
    - rewrite (cons_middle x pre l), app_assoc. by apply IH, Hstep. }
  by apply (Hgen l [] a).
Qed.

Section Choice.
Hypothesis double_order : double_lt_strict.
Variable regret_coeff : double.
Variable s : solution.
Variable routes : list index.

(** The running choice after the pairs (job, index) in [seen] have been
    examined. *)
Definition best_so_far (seen : index → nat → Prop) (b : choice) : Prop :=
  (b = no_choice
   ∨ ∃ j i, seen j i ∧ finite_choice s routes j i
            ∧ b = choice_of regret_coeff s routes j i
            ∧ double_lt (best_cost b) double_max = true)
  ∧ ∀ j i, seen j i → finite_choice s routes j i →
      double_lt (score regret_coeff s routes j i) (best_cost b) = false.

Lemma choose_route_best_so_far (seen : index → nat → Prop) (j : index) (b : choice) :
  best_so_far seen b →
  best_so_far (λ j' i', seen j' i' ∨ j' = j)
    (choose_route regret_coeff routes j (best_per_route s routes j) b).
Proof.
  destruct double_order as [Hirr Htrans]. intros Hb. unfold choose_route.
  set (bests := best_per_route s routes j).
  assert (Hlen : length bests = length routes).
  { unfold bests, best_per_route. by rewrite length_fmap. }
  assert (Hfold :
    best_so_far (λ j' i', seen j' i' ∨ (j' = j ∧ i' < length bests))
      (fold_indexed
         (λ b i best,
            if decide (best.1 = gain_max) then b
            else
              let e := eval regret_coeff best.1
                            (regret_cost (two_smallest (bests.*1)) i) in
              if double_lt e (best_cost b) then
                {| best_cost := e; best_job := j;
                   best_route := routes !!! i; best_rank := best.2 |}
              else b)
         0 bests b)).
  { apply (fold_indexed_inv
             (λ k b, best_so_far (λ j' i', seen j' i' ∨ (j' = j ∧ i' < k)) b)).
    - destruct Hb as [Hb1 Hb2]. split.
      + destruct Hb1 as [?|(j' & i' & ? & ?)]; [by left|].
        right. exists j', i'. split; [by left | done].
      + intros j' i' [?|[_ ?]]; [by apply Hb2 | lia].
    - intros k x b' Hk [Hb1 Hb2].
      assert (Hx : x = entry s routes j k).
      { unfold entry. fold bests. symmetry. by apply list_lookup_total_correct. }
      assert (Hmono : ∀ j' i', seen j' i' ∨ j' = j ∧ i' < k →
                               seen j' i' ∨ j' = j ∧ i' < S k).
      { intros j' i' [?|[? ?]]; [by left | right; split; [done | lia]]. }
      assert (Hkeep : ¬ (finite_choice s routes j k
                         ∧ double_lt (score regret_coeff s routes j k)
                                     (best_cost b') = true) →
        best_so_far (λ j' i', seen j' i' ∨ j' = j ∧ i' < S k) b').
      { intros Hno. split.
        - destruct Hb1 as [?|(j' & i' & ? & ?)]; [by left|].
          right. exists j', i'. split; [by apply Hmono | done].
        - intros j' i' [Hs|[-> Hi']] Hfin; [apply Hb2; [by left | done]|].
          destruct (decide (i' = k)) as [->|].
          + destruct (double_lt (score regret_coeff s routes j k) (best_cost b'))
              eqn:Hlt; [|done].
            exfalso. by apply Hno.
          + apply Hb2; [right; split; [done | lia] | done]. }
      destruct (decide (x.1 = gain_max)) as [Hmax|Hfin].
      { apply Hkeep. intros [[_ Hne] _]. apply Hne. by rewrite <- Hx. }
      cbv zeta.
      change (eval regret_coeff x.1 (regret_cost (two_smallest (bests.*1)) k))
        with (eval regret_coeff x.1
                (regret_cost (two_smallest ((best_per_route s routes j).*1)) k)).
      rewrite Hx. fold (score regret_coeff s routes j k).
      destruct (double_lt (score regret_coeff s routes j k) (best_cost b')) eqn:Hlt.
      2:{ apply Hkeep. intros [_ ?]. congruence. }
      assert (Hfc : finite_choice s routes j k).
      { split; [|by rewrite <- Hx].
        rewrite <- Hlen. by apply lookup_lt_Some in Hk. }
      split.
      + right. exists j, k. split; [right; split; [done | lia]|].
        split; [done|]. split; [done|]. simpl.
        destruct Hb1 as [-> |(_ & _ & _ & _ & _ & Hlt')]; [done|].
        by eapply Htrans.
      + intros j' i' Hseen Hfin'. simpl.
        destruct (double_lt (score regret_coeff s routes j' i')
                            (score regret_coeff s routes j k)) eqn:Hlt'; [|done].
        destruct Hseen as [Hs|[-> Hi']].
        * rewrite <- (Hb2 j' i'); [|by left | done]. symmetry. by eapply Htrans.
        * destruct (decide (i' = k)) as [->|]; [by rewrite Hirr in Hlt'|].
          rewrite <- (Hb2 j i'); [|right; split; [done | lia] | done].
          symmetry. by eapply Htrans. }
  destruct Hfold as [Hf1 Hf2]. split.
  - destruct Hf1 as [?|(j' & i' & Hseen & ?)]; [by left|].
    right. exists j', i'. split; [|done]. destruct Hseen as [?|[? _]]; auto.
  - intros j' i' [?| ->] Hfin; apply Hf2; [by left | done | | done].
    right. split; [done|]. rewrite Hlen. apply Hfin.
Qed.

(** The choice of a pass: either no finite choice was found and the
    initial values are left, or the recorded choice is a finite choice for
    an unassigned job; in both cases no finite choice for an unassigned job
    has a value below the recorded one. *)
Lemma best_addition_spec :
  best_so_far (λ j _, j ∈ unassigned (sol_state s))
              (best_addition routes regret_coeff s).
Proof.
  unfold best_addition.
  apply (fold_left_inv_prefix (λ pre b, best_so_far (λ j _, j ∈ pre) b)).
  - split; [by left|]. intros j i Hj. by apply elem_of_nil in Hj.
  - intros pre j b Hb.
    pose proof (choose_route_best_so_far _ j b Hb) as [H1 H2]. split.
    + destruct H1 as [?|(j' & i' & Hseen & ?)]; [by left|].
      right. exists j', i'. split; [|done]. apply elem_of_app.
      destruct Hseen as [?| ->]; [by left | right; by apply list_elem_of_singleton].
    + intros j' i' Hin. apply H2. apply elem_of_app in Hin as [?|Hin]; [by left|].
      right. by apply list_elem_of_singleton in Hin.
Qed.

Lemma job_added_no_choice : job_added no_choice = false.
Proof. destruct double_order as [Hirr _]. apply Hirr. Qed.

Lemma job_added_choice :
  job_added (best_addition routes regret_coeff s) = true →
  ∃ j i, j ∈ unassigned (sol_state s) ∧ finite_choice s routes j i
         ∧ best_addition routes regret_coeff s = choice_of regret_coeff s routes j i.
Proof.
  intros Hadded. destruct best_addition_spec as [[Hno|(j & i & ? & ? & ? & _)] _].
  - rewrite Hno, job_added_no_choice in Hadded. done.
  - by exists j, i.
Qed.

End Choice.

(** *** The loop of passes *)

Lemma length_filter_ne (j : index) (l : list index) :
  j ∈ l → length (filter (λ j', j' ≠ j) l) < length l.
Proof.
  induction l as [|a l IH]; intros Hin; [by apply elem_of_nil in Hin|].
  rewrite filter_cons. destruct (decide (a ≠ j)) as [Hne|Heq]; simpl.
  - apply elem_of_cons in Hin as [->|Hin]; [done|]. specialize (IH Hin). lia.
  - pose proof (length_filter (λ j', j' ≠ j) l). lia.
Qed.

Lemma add_job_unassigned (b : choice) (s : solution) :
  unassigned (sol_state (add_job b s))
  = filter (λ j, j ≠ best_job b) (unassigned (sol_state s)).
Proof. done. Qed.

Lemma try_job_additions_preserves (P : solution → Prop)
    (routes : list index) (c : double) (s : solution) :
  P s →
  (∀ s', P s' → job_added (best_addition routes c s') = true →
         P (add_job (best_addition routes c s') s')) →
  P (try_job_additions routes c s).
Proof.
  intros Hs Hstep. unfold try_job_additions.
  generalize (S (length (unassigned (sol_state s)))). intros fuel.
  revert s Hs. induction fuel as [|fuel IH]; intros s Hs; simpl; [done|].
  destruct (job_added _) eqn:Hadded; [|done]. by apply IH, Hstep.
Qed.

Section Passes.
Hypothesis double_order : double_lt_strict.
Variable regret_coeff : double.
Variable routes : list index.

Lemma add_job_shrinks (s : solution) :
  job_added (best_addition routes regret_coeff s) = true →
  length (unassigned (sol_state (add_job (best_addition routes regret_coeff s) s)))
  < length (unassigned (sol_state s)).
Proof.
  intros Hadded. rewrite add_job_unassigned.
  destruct (job_added_choice double_order _ _ _ Hadded) as (j & i & Hj & _ & ->).
  by apply length_filter_ne.
Qed.

(** More passes than there are unassigned jobs are never used. *)
Lemma try_job_additions_loop_enough (n m : nat) (s : solution) :
  length (unassigned (sol_state s)) < n →
  length (unassigned (sol_state s)) < m →
  try_job_additions_loop n routes regret_coeff s
  = try_job_additions_loop m routes regret_coeff s.
Proof.
  revert m s. induction n as [|n IH]; intros m s Hn Hm; [lia|].
  destruct m as [|m]; [lia|]. simpl.
  destruct (job_added _) eqn:Hadded; [|done].
  pose proof (add_job_shrinks s Hadded). apply IH; lia.
Qed.

Lemma try_job_additions_unfold (s : solution) :
  try_job_additions routes regret_coeff s
  = if job_added (best_addition routes regret_coeff s)
    then try_job_additions routes regret_coeff
           (add_job (best_addition routes regret_coeff s) s)
    else s.
Proof.
  unfold try_job_additions at 1. simpl.
  destruct (job_added _) eqn:Hadded; [|done].
  pose proof (add_job_shrinks s Hadded).
  unfold try_job_additions. apply try_job_additions_loop_enough; lia.
Qed.

(** The loop stops on a pass that adds nothing. *)
Lemma try_job_additions_fixpoint (s : solution) :
  job_added (best_addition routes regret_coeff
               (try_job_additions routes regret_coeff s)) = false.
Proof.
  remember (length (unassigned (sol_state s))) as n eqn:Hn.
  revert s Hn. induction (lt_wf n) as [n _ IH]. intros s ->.
  rewrite try_job_additions_unfold.
  destruct (job_added (best_addition routes regret_coeff s)) eqn:Hadded; [|done].
  eapply IH; [|done]. by apply add_job_shrinks.
Qed.

End Passes.

(** *** The reinsertion as a whole *)

Lemma entry_lookup (s : solution) (routes : list index) (j : index) (i : nat) :
  i < length routes →
  entry s routes j i = best_for_route s j (routes !!! i).
Proof.
  intros Hi. unfold entry, best_per_route. apply list_lookup_total_correct.
  rewrite list_lookup_fmap, (list_lookup_lookup_total_lt routes i Hi). done.
Qed.

(** An insertion of job [j] at [rank] of the route of vehicle [v] that
    [try_job_additions] considers: the vehicle has the skills, its load
    with the job fits its capacity, and the time windows allow it. *)
Definition compatible (s : solution) (j v : index) (rank : nat) : Prop :=
  vehicle_ok_with_job v j = true
  ∧ amount_le (amount_add (total_amount (sol_state s) v) (job_amount j))
              (capacity v) = true
  ∧ rank ≤ length (tw_sol s !!! v)
  ∧ is_valid_addition_for_tw v (tw_sol s !!! v) j rank = true.

Lemma best_for_route_spec (s : solution) (j v : index) :
  let e := best_for_route s j v in
  ((e.1 = gain_max ∧ e.2 = 0)
   ∨ ((e.1 < gain_max)%Z ∧ compatible s j v e.2
      ∧ addition_cost j v (tw_sol s !!! v) e.2 = e.1))
  ∧ ∀ rank, compatible s j v rank →
      (e.1 ≤ addition_cost j v (tw_sol s !!! v) rank)%Z.
Proof.
  unfold best_for_route, compatible.
  destruct (vehicle_ok_with_job v j); simpl; [|split; [by left | by intros ? [? _]]].
  destruct (amount_le _ _); simpl; [|split; [by left | by intros ? (_ & ? & _)]].
  destruct (scan_ranks_spec j v (tw_sol s !!! v)) as [H1 H2]. split.
  - destruct H1 as [?|(? & ? & ? & ? & _)]; [by left | by right].
  - intros rank (_ & _ & Hr & Hv). by apply H2.
Qed.

(** C5.  One pass of [try_job_additions] over the routes [routes] with
    regret coefficient [regret_coeff] (the order [<] on [double] being a
    strict order):
    - for every job and every route of the list, [best_costs] holds the
      cost of the cheapest insertion that is vehicle-compatible (skills,
      total amount plus job amount within capacity, time windows), with a
      rank that has it, or [gain_max] when there is none;
    - [smallest], [second_smallest] and [smallest_idx] are the least of
      these costs, the least of the others and the first index of the
      least;
    - when a job is added, it is an unassigned job, at a route of the list
      and at the recorded rank, with a finite best cost, and no finite
      choice for any unassigned job has a strictly smaller value of
      [best_costs[v] - regret_coeff * (second_smallest if v is the argmin
      else smallest)];
    - without a finite choice nothing is added and the solution stays;
    - a pass that adds a job is followed by another pass, and the loop
      ends on a pass that adds nothing;
    - a job is added exactly when some unassigned job has a finite choice
      whose value is below the initial [best_cost],
      [numeric_limits<double>::max()];
    - the job added is unassigned, its route is of the list, the insertion
      is vehicle-compatible at the recorded rank; the job is inserted at
      that rank into that route, erased from the unassigned jobs, and the
      cost of the route is recomputed, before the next pass;
    - when the loop ends no insertion is possible: on the solution it
      returns no unassigned job has a finite choice with a value below the
      initial one. *)
Theorem try_job_additions_spec (routes : list index) (regret_coeff : double)
    (s : solution) :
  double_lt_strict →
  let b := best_addition routes regret_coeff s in
  (∀ j i, i < length routes →
     let v := routes !!! i in
     let e := entry s routes j i in
     ((e.1 = gain_max ∧ e.2 = 0)
      ∨ ((e.1 < gain_max)%Z ∧ compatible s j v e.2
         ∧ addition_cost j v (tw_sol s !!! v) e.2 = e.1))
     ∧ ∀ rank, compatible s j v rank →
         (e.1 ≤ addition_cost j v (tw_sol s !!! v) rank)%Z)
  ∧ (∀ j, two_smallest_of ((best_per_route s routes j).*1) (length routes)
            (two_smallest ((best_per_route s routes j).*1)))
  ∧ (job_added b = true →
       ∃ j i, j ∈ unassigned (sol_state s) ∧ finite_choice s routes j i
              ∧ b = choice_of regret_coeff s routes j i)
  ∧ (∀ j i, j ∈ unassigned (sol_state s) → finite_choice s routes j i →
       double_lt (score regret_coeff s routes j i) (best_cost b) = false)
  ∧ ((∀ j i, j ∈ unassigned (sol_state s) → ¬ finite_choice s routes j i) →
       job_added b = false ∧ try_job_additions routes regret_coeff s = s)
  ∧ try_job_additions routes regret_coeff s
    = (if job_added b
       then try_job_additions routes regret_coeff (add_job b s)
       else s)
  ∧ job_added (best_addition routes regret_coeff
                 (try_job_additions routes regret_coeff s)) = false
  ∧ (job_added b = true
     ↔ ∃ j i, j ∈ unassigned (sol_state s) ∧ finite_choice s routes j i
              ∧ double_lt (score regret_coeff s routes j i) double_max = true)
  ∧ (job_added b = true →
       best_job b ∈ unassigned (sol_state s) ∧ best_route b ∈ routes
       ∧ compatible s (best_job b) (best_route b) (best_rank b)
       ∧ tw_sol (add_job b s)
         = <[best_route b :=
               insert_at (best_rank b) (best_job b) (tw_sol s !!! best_route b)]>
             (tw_sol s)
       ∧ unassigned (sol_state (add_job b s))
         = filter (λ j, j ≠ best_job b) (unassigned (sol_state s))
       ∧ route_costs (sol_state (add_job b s))
         = <[best_route b :=
               route_cost_for_vehicle (best_route b)
                 (insert_at (best_rank b) (best_job b) (tw_sol s !!! best_route b))]>
             (route_costs (sol_state s))
       ∧ try_job_additions routes regret_coeff s
         = try_job_additions routes regret_coeff (add_job b s))
  ∧ ∀ j i,
      let s' := try_job_additions routes regret_coeff s in
      j ∈ unassigned (sol_state s') → finite_choice s' routes j i →
      double_lt (score regret_coeff s' routes j i) double_max = false.
Proof.
  intros Hord b.
  assert (Hnone : (∀ j i, j ∈ unassigned (sol_state s) → ¬ finite_choice s routes j i) →
                  job_added b = false).
  { intros Hno. destruct (job_added b) eqn:Hadded; [|done].
    destruct (job_added_choice Hord _ _ _ Hadded) as (j & i & Hj & Hfin & _).
    by destruct (Hno j i Hj). }
  assert (Hbelow : ∀ s1 j i,
    j ∈ unassigned (sol_state s1) → finite_choice s1 routes j i →
    double_lt (score regret_coeff s1 routes j i) double_max = true →
    job_added (best_addition routes regret_coeff s1) = true).
  { intros s1 j i Hj Hfin Hlt.
    destruct (best_addition_spec Hord regret_coeff s1 routes) as [H1 H2].
    destruct H1 as [Hno|(_ & _ & _ & _ & _ & Hadded)]; [|done].
    specialize (H2 j i Hj Hfin). rewrite Hno in H2. simpl in H2. congruence. }
  split; [|split; [|split; [|split; [|split; [|split; [|split; [|split; [|split]]]]]]]].
  - intros j i Hi v e. unfold e. rewrite entry_lookup by done.
    apply best_for_route_spec.
  - intros j.
    replace (length routes) with (length ((best_per_route s routes j).*1))
      by (unfold best_per_route; by rewrite !length_fmap).
    apply two_smallest_spec.
  - by apply job_added_choice.
  - apply (best_addition_spec Hord regret_coeff s routes).
  - intros Hno. split; [by apply Hnone|].
    rewrite try_job_additions_unfold by done. fold b. by rewrite Hnone.
  - by apply try_job_additions_unfold.
  - by apply try_job_additions_fixpoint.
  - split.
    + intros Hadded.
      destruct (job_added_choice Hord _ _ _ Hadded) as (j & i & Hj & Hfin & Hb).
      exists j, i. split; [done|]. split; [done|].
      unfold job_added in Hadded. fold b in Hb. rewrite Hb in Hadded. exact Hadded.
    + intros (j & i & Hj & Hfin & Hlt). by apply (Hbelow s j i).
  - intros Hadded.
    destruct (job_added_choice Hord _ _ _ Hadded) as (j & i & Hj & [Hi Hfin] & Hb).
    fold b in Hb.
    assert (Hcompat : compatible s (best_job b) (best_route b) (best_rank b)).
    { rewrite Hb. simpl. rewrite entry_lookup in * by done.
      destruct (best_for_route_spec s j (routes !!! i)) as [[[? _]|(_ & Hc & _)] _];
        [done | exact Hc]. }
    split; [by rewrite Hb|].
    split; [rewrite Hb; simpl; by apply list_elem_of_lookup_total_2|].
    split; [exact Hcompat|]. split; [done|]. split; [done|]. split; [done|].
    rewrite (try_job_additions_unfold Hord regret_coeff routes s). fold b.
    by rewrite Hadded.
  - intros j i s' Hj Hfin.
    destruct (double_lt (score regret_coeff s' routes j i) double_max) eqn:Hlt; [|done].
    pose proof (Hbelow s' j i Hj Hfin Hlt) as Hadded.
    unfold s' in Hadded. by rewrite try_job_additions_fixpoint in Hadded.
Qed.

(** *** The list of routes given to the reinsertion *)

(** The claim in the spec's words: the list is only a hint, the outcome of
    the reinsertion does not depend on it. *)
Definition list_is_only_a_hint (regret_coeff : double) (s : solution) : Prop :=
  ∀ l1 l2, try_job_additions l1 regret_coeff s = try_job_additions l2 regret_coeff s.

Lemma apply_best_sol (g : Z) (bs bt : nat) (x x' : search) (o : ls_operator) :
  get2 (best_ops x) bs bt = Some o →
  apply_best g bs bt x = inr x' →
  sol x'
  = set_gains bs bt
      (try_job_additions
         (addition_candidates (kind o) (s_vehicle o) (t_vehicle o))
         (to_double 0) (before_reinsertion o bs bt (sol x))).
Proof.
  intros Ho. unfold apply_best. rewrite Ho. case_decide; [|done].
  by intros [= <-].
Qed.

Lemma add_job_other (b : choice) (s : solution) (v : index) :
  v ≠ best_route b → tw_sol (add_job b s) !!! v = tw_sol s !!! v.
Proof. intros Hne. simpl. by rewrite list_lookup_total_insert_ne. Qed.

Lemma job_added_route (routes : list index) (c : double) (s : solution) :
  double_lt_strict →
  job_added (best_addition routes c s) = true →
  best_route (best_addition routes c s) ∈ routes
  ∧ best_job (best_addition routes c s) ∈ unassigned (sol_state s).
Proof.
  intros Hord Hadded.
  destruct (job_added_choice Hord _ _ _ Hadded) as (j & i & Hj & [Hi _] & ->).
  split; [|done]. simpl. apply list_elem_of_lookup_total_2. done.
Qed.

Lemma try_job_additions_other (routes : list index) (c : double) (s : solution)
    (v : index) :
  double_lt_strict → v ∉ routes →
  tw_sol (try_job_additions routes c s) !!! v = tw_sol s !!! v.
Proof.
  intros Hord Hv.
  apply (try_job_additions_preserves (λ s', tw_sol s' !!! v = tw_sol s !!! v)); [done|].
  intros s' Hs' Hadded. rewrite add_job_other; [done|].
  intros ->. apply Hv. by apply job_added_route.
Qed.

(** C4, as amended.  The list [run()] passes to [try_job_additions] is
    the [addition_candidates()] of the move it has applied, and it is a
    list of routes (vehicle ranks), not of jobs: every pass examines every
    unassigned job (a job is added as soon as some unassigned job has a
    finite choice, with a value below the initial one, in a route of the
    list), but jobs are only added to routes of the list, and the routes
    outside it are left as they are. *)
Theorem reinsertion_is_limited_to_candidates (g : Z) (bs bt : nat)
    (x x' : search) (o : ls_operator) :
  double_lt_strict →
  get2 (best_ops x) bs bt = Some o →
  apply_best g bs bt x = inr x' →
  let routes := addition_candidates (kind o) (s_vehicle o) (t_vehicle o) in
  let s := before_reinsertion o bs bt (sol x) in
  sol x' = set_gains bs bt (try_job_additions routes (to_double 0) s)
  ∧ (∀ s1, job_added (best_addition routes (to_double 0) s1) = true →
       best_route (best_addition routes (to_double 0) s1) ∈ routes
       ∧ best_job (best_addition routes (to_double 0) s1)
         ∈ unassigned (sol_state s1))
  ∧ (∀ s1 j i, j ∈ unassigned (sol_state s1) → finite_choice s1 routes j i →
       double_lt (score (to_double 0) s1 routes j i) double_max = true →
       job_added (best_addition routes (to_double 0) s1) = true)
  ∧ (∀ v, v ∉ routes →
       tw_sol (try_job_additions routes (to_double 0) s) !!! v = tw_sol s !!! v).
Proof.
  intros Hord Ho Happly routes s.
  split; [by apply (apply_best_sol g)|]. split; [|split].
  - intros s1. by apply job_added_route.
  - intros s1 j i Hj Hfin Hlt.
    destruct (best_addition_spec Hord (to_double 0) s1 routes) as [H1 H2].
    destruct H1 as [Hno|(_ & _ & _ & _ & _ & Hadded)]; [|done].
    specialize (H2 j i Hj Hfin). rewrite Hno in H2. simpl in H2. congruence.
  - intros v Hv. by apply try_job_additions_other.
Qed.

End Reinsertion.

Section ReinsertionDemo.
#[local] Existing Instance Demo.instance.

Lemma demo_double_lt_strict : double_lt_strict.
Proof.
  split.
  - intros a. apply Z.ltb_irrefl.
  - intros a b c Hab Hbc. apply Z.ltb_lt in Hab, Hbc. apply Z.ltb_lt. lia.
Qed.

(** C5 on the small instance: with route 0 in the list, job 2 has a
    finite choice there, so a job is added; job 2 is added to route 0 and
    the next pass adds nothing. *)
Lemma try_job_additions_spec_witness :
  tw_sol (try_job_additions [0] (to_double 0) Demo.relocated) = [[2]; [0; 1]]
  ∧ job_added (best_addition [0] (to_double 0) (try_job_additions [0] (to_double 0) Demo.relocated))
    = false
  ∧ job_added (best_addition [0] (to_double 0) Demo.relocated) = true.
Proof.
  split; [vm_compute; reflexivity|].
  destruct (try_job_additions_spec [0] (to_double 0) Demo.relocated
              demo_double_lt_strict)
    as (_ & _ & _ & _ & _ & _ & Hend & Hiff & _).
  split; [exact Hend|]. apply Hiff. exists 2, 0.
  split; [by left|]. split; [|vm_compute; reflexivity].
  split; [simpl; lia|]. vm_compute. discriminate.
Defined.

(** C4 as the spec words it fails: job 2 is unassigned and fits on vehicle
    0, yet it is added or not according to the list. *)
Lemma list_is_only_a_hint_counterexample :
  tw_sol (try_job_additions [0] (to_double 0) Demo.relocated) = [[2]; [0; 1]]
  ∧ tw_sol (try_job_additions [1] (to_double 0) Demo.relocated) = [[]; [0; 1]]
  ∧ ¬ list_is_only_a_hint (to_double 0) Demo.relocated.
Proof.
  split; [vm_compute; reflexivity|]. split; [vm_compute; reflexivity|].
  intros Hhint. specialize (Hhint [0] [1]).
  apply (f_equal tw_sol) in Hhint. vm_compute in Hhint. discriminate Hhint.
Qed.

(** C4 on the small instance: the first round passes [[0]], the source
    route of its Relocate move. *)
Lemma reinsertion_is_limited_to_candidates_witness :
  sol Demo.after_first_round
  = set_gains 0 1
      (try_job_additions [0] (to_double 0)
         (before_reinsertion Demo.move 0 1
            (sol (evaluate (initial_search Demo.start))))).
Proof.
  apply (reinsertion_is_limited_to_candidates 10 0 1
           (evaluate (initial_search Demo.start)) Demo.after_first_round
           Demo.move demo_double_lt_strict);
    vm_compute; reflexivity.
Defined.

End ReinsertionDemo.

Section Pairs.
Context `{Collaborators}.

Lemma elem_of_ranks_until_break (ok : nat → bool) (l : list nat) (r : nat) :
  r ∈ ranks_until_break ok l
  ↔ ∃ i, l !! i = Some r ∧ ∀ k y, k ≤ i → l !! k = Some y → ok y = true.
Proof.
  induction l as [|a l IH]; simpl.
  - split; [by intros ?%elem_of_nil | by intros (i & ? & _)].
  - destruct (ok a) eqn:Ha.
    + rewrite elem_of_cons, IH. split.
      * intros [->|(i & Hi & Hall)].
        -- exists 0. split; [done|]. intros k y Hk Hy.
           assert (k = 0) as -> by lia. simpl in Hy. by injection Hy as <-.
        -- exists (S i). split; [done|]. intros [|k] y Hk Hy.
           ++ simpl in Hy. by injection Hy as <-.
           ++ apply (Hall k); [lia | done].
      * intros ([|i] & Hi & Hall).
        -- left. simpl in Hi. by injection Hi as <-.
        -- right. exists i. split; [done|]. intros k y Hk Hy.
           apply (Hall (S k)); [lia | done].
    + split; [by intros ?%elem_of_nil|]. intros (i & _ & Hall).
      specialize (Hall 0 a). simpl in Hall. rewrite Hall in Ha; [done | lia | done].
Qed.

Lemma elem_of_reverse_two_opt_t_ranks (x : search) (s sr t tr : nat) :
  tr ∈ reverse_two_opt_t_ranks x s sr t
  ↔ tr < size x t ∧ ∀ tr', tr' ≤ tr → reverse_two_opt_bound x s sr t tr' = true.
Proof.
  unfold reverse_two_opt_t_ranks. rewrite elem_of_ranks_until_break. split.
  - intros (i & Hi & Hall). apply lookup_seq in Hi as [-> Hi]. simpl.
    split; [done|]. intros tr' Htr'. apply (Hall tr'); [done|].
    apply lookup_seq. split; [done | lia].
  - intros [Htr Hall]. exists tr. split; [by apply lookup_seq|].
    intros k y Hk Hy. apply lookup_seq in Hy as [-> _]. by apply Hall.
Qed.

Lemma elem_of_two_opt_t_ranks (x : search) (s sr t tr : nat) :
  tr ∈ two_opt_t_ranks x s sr t
  ↔ tr < size x t
    ∧ ∀ tr', tr ≤ tr' → tr' < size x t → two_opt_bound x s sr t tr' = true.
Proof.
  unfold two_opt_t_ranks. rewrite elem_of_ranks_until_break. split.
  - intros (i & Hi & Hall).
    apply reverse_lookup_Some in Hi as [Hi Hlen]. rewrite length_seq in *.
    apply lookup_seq in Hi as [-> _]. simpl. split; [lia|].
    intros tr' Hle Hlt. apply (Hall (size x t - S tr')); [lia|].
    apply reverse_lookup_Some. rewrite length_seq. split; [|lia].
    apply lookup_seq. split; lia.
  - intros [Htr Hall]. exists (size x t - S tr). split.
    + apply reverse_lookup_Some. rewrite length_seq. split; [|lia].
      apply lookup_seq. split; lia.
    + intros k y Hk Hy.
      apply reverse_lookup_Some in Hy as [Hy Hlen]. rewrite length_seq in *.
      apply lookup_seq in Hy as [-> _]. simpl. apply Hall; lia.
Qed.

(** The pairs of the list are pairs of distinct vehicles. *)
Definition pairs_distinct (x : search) : Prop :=
  ∀ s t, (s, t) ∈ s_t_pairs x → s ≠ t ∧ s < V ∧ t < V.

Lemma all_pairs_distinct (s0 : solution) : pairs_distinct (initial_search s0).
Proof.
  intros s t Hst. simpl in Hst. unfold all_pairs in Hst.
  apply list_elem_of_bind in Hst as (s' & Hst & Hs').
  apply list_elem_of_bind in Hst as (t' & Hst & Ht').
  apply elem_of_seq in Hs', Ht'.
  destruct (decide (s' = t')); [by apply elem_of_nil in Hst|].
  apply list_elem_of_singleton in Hst. injection Hst as -> ->. lia.
Qed.

Lemma next_pairs_distinct (bs bt : nat) (s t : nat) :
  bs ≠ bt → bs < V → bt < V →
  (s, t) ∈ next_pairs bs bt → s ≠ t ∧ s < V ∧ t < V.
Proof.
  intros Hne Hbs Hbt Hst. unfold next_pairs in Hst.
  apply elem_of_app in Hst as [Hst|Hst].
  - apply elem_of_cons in Hst as [[= -> ->]|Hst]; [done|].
    apply list_elem_of_singleton in Hst as [= -> ->]. done.
  - apply list_elem_of_bind in Hst as (v & Hst & Hv). apply elem_of_seq in Hv.
    destruct (decide (v = bs ∨ v = bt)); [by apply elem_of_nil in Hst|].
    repeat (apply elem_of_cons in Hst as [[= -> ->]|Hst]; [lia|]).
    by apply elem_of_nil in Hst.
Qed.

Lemma reachable_pairs_distinct (s0 : solution) (x : search) :
  reachable s0 x → pairs_distinct x.
Proof.
  induction 1 as [|x x' Hreach IH Hround]; [apply all_pairs_distinct|].
  destruct (round_continues _ _ Hround) as (g & bs & bt & Hbest & Hpos & Happly).
  destruct (apply_best_search _ _ _ _ _ Happly) as (_ & _ & Hpairs).
  pose proof (find_best_spec (best_gains (evaluate x))) as Hspec.
  rewrite Hbest in Hspec. destruct Hspec as [[(-> & _)|(Hne & Hbs & Hbt & _)] _]; [lia|].
  intros s t Hst. rewrite Hpairs in Hst. by eapply next_pairs_distinct.
Qed.

(** C8.  In every round the pairs of the active list are pairs of
    distinct vehicles, and a move on [(s, s_rank, t, t_rank)] is built
    - by the Exchange, CROSS-exchange and 2-opt* loops only for pairs of
      the list with [s < t] (at all ranks for Exchange, at all ranks with a
      successor for CROSS-exchange, and for 2-opt* at the target ranks not
      cut off by the capacity bound);
    - by the Reverse 2-opt* loop for every pair of the list, whatever the
      order of [s] and [t], at all source ranks and at the target ranks not
      cut off by the capacity bound. *)
Theorem operator_loops_pairs (s0 : solution) (x : search) (s sr t tr : nat) :
  reachable s0 x →
  (∀ s' t', (s', t') ∈ s_t_pairs x → s' ≠ t' ∧ s' < V ∧ t' < V)
  ∧ ((s, sr, t, tr) ∈ exchange_candidates x
     ↔ (s, t) ∈ s_t_pairs x ∧ s < t ∧ sr < size x s ∧ tr < size x t)
  ∧ ((s, sr, t, tr) ∈ cross_exchange_candidates x
     ↔ (s, t) ∈ s_t_pairs x ∧ s < t ∧ S sr < size x s ∧ S tr < size x t)
  ∧ ((s, sr, t, tr) ∈ two_opt_candidates x
     ↔ (s, t) ∈ s_t_pairs x ∧ s < t ∧ sr < size x s ∧ tr < size x t
       ∧ ∀ tr', tr ≤ tr' → tr' < size x t → two_opt_bound x s sr t tr' = true)
  ∧ ((s, sr, t, tr) ∈ reverse_two_opt_candidates x
     ↔ (s, t) ∈ s_t_pairs x ∧ sr < size x s ∧ tr < size x t
       ∧ ∀ tr', tr' ≤ tr → reverse_two_opt_bound x s sr t tr' = true).
Proof.
  intros Hreach. split; [by apply (reachable_pairs_distinct s0)|].
  split; [|split; [|split]].
  - unfold exchange_candidates. rewrite list_elem_of_bind. split.
    + intros ([s' t'] & Hc & Hst).
      destruct ((t' <=? s') || (size x s' =? 0) || (size x t' =? 0)) eqn:Hguard;
        [by apply elem_of_nil in Hc|].
      apply orb_false_iff in Hguard as [Hguard _].
      apply orb_false_iff in Hguard as [Hguard _]. apply Nat.leb_gt in Hguard.
      apply list_elem_of_bind in Hc as (sr' & Hc & Hsr).
      apply list_elem_of_bind in Hc as (tr' & Hc & Htr).
      apply list_elem_of_singleton in Hc as [= -> -> -> ->].
      apply elem_of_seq in Hsr, Htr. repeat split; [done | lia ..].
    + intros (Hst & Hlt & Hsr & Htr). exists (s, t). split; [|done].
      replace ((t <=? s) || (size x s =? 0) || (size x t =? 0)) with false.
      2:{ symmetry. rewrite !orb_false_iff.
          repeat split; [apply Nat.leb_gt | apply Nat.eqb_neq ..]; lia. }
      apply list_elem_of_bind. exists sr. split; [|apply elem_of_seq; lia].
      apply list_elem_of_bind. exists tr. split; [|apply elem_of_seq; lia].
      by apply list_elem_of_singleton.
  - unfold cross_exchange_candidates. rewrite list_elem_of_bind. split.
    + intros ([s' t'] & Hc & Hst).
      destruct ((t' <=? s') || (size x s' <? 2) || (size x t' <? 2)) eqn:Hguard;
        [by apply elem_of_nil in Hc|].
      apply orb_false_iff in Hguard as [Hguard _].
      apply orb_false_iff in Hguard as [Hguard _]. apply Nat.leb_gt in Hguard.
      apply list_elem_of_bind in Hc as (sr' & Hc & Hsr).
      apply list_elem_of_bind in Hc as (tr' & Hc & Htr).
      apply list_elem_of_singleton in Hc as [= -> -> -> ->].
      apply elem_of_seq in Hsr, Htr. repeat split; [done | lia ..].
    + intros (Hst & Hlt & Hsr & Htr). exists (s, t). split; [|done].
      replace ((t <=? s) || (size x s <? 2) || (size x t <? 2)) with false.
      2:{ symmetry. rewrite !orb_false_iff.
          repeat split; [apply Nat.leb_gt | apply Nat.ltb_ge ..]; lia. }
      apply list_elem_of_bind. exists sr. split; [|apply elem_of_seq; lia].
      apply list_elem_of_bind. exists tr. split; [|apply elem_of_seq; lia].
      by apply list_elem_of_singleton.
  - unfold two_opt_candidates. rewrite list_elem_of_bind. split.
    + intros ([s' t'] & Hc & Hst).
      destruct (t' <=? s') eqn:Hguard; [by apply elem_of_nil in Hc|].
      apply Nat.leb_gt in Hguard.
      apply list_elem_of_bind in Hc as (sr' & Hc & Hsr).
      apply list_elem_of_bind in Hc as (tr' & Hc & Htr).
      apply list_elem_of_singleton in Hc as [= -> -> -> ->].
      apply elem_of_seq in Hsr. apply elem_of_two_opt_t_ranks in Htr as [Htr Hall].
      repeat split; [done | lia .. | done].
    + intros (Hst & Hlt & Hsr & Htr & Hall). exists (s, t). split; [|done].
      replace (t <=? s) with false by (symmetry; apply Nat.leb_gt; lia).
      apply list_elem_of_bind. exists sr. split; [|apply elem_of_seq; lia].
      apply list_elem_of_bind. exists tr.
      split; [by apply list_elem_of_singleton|].
      by apply elem_of_two_opt_t_ranks.
  - unfold reverse_two_opt_candidates. rewrite list_elem_of_bind. split.
    + intros ([s' t'] & Hc & Hst).
      apply list_elem_of_bind in Hc as (sr' & Hc & Hsr).
      apply list_elem_of_bind in Hc as (tr' & Hc & Htr).
      apply list_elem_of_singleton in Hc as [= -> -> -> ->].
      apply elem_of_seq in Hsr.
      apply elem_of_reverse_two_opt_t_ranks in Htr as [Htr Hall].
      repeat split; [done | lia .. | done].
    + intros (Hst & Hsr & Htr & Hall). exists (s, t). split; [|done].
      apply list_elem_of_bind. exists sr. split; [|apply elem_of_seq; lia].
      apply list_elem_of_bind. exists tr.
      split; [by apply list_elem_of_singleton|].
      by apply elem_of_reverse_two_opt_t_ranks.
Qed.

End Pairs.


(** ** Gains, costs and termination of the round loop *)

Section Accounting.
Context `{Collaborators}.

(** *** What is assumed of the collaborators *)

(** Modelled from the spec: "gain must equal cost_before(source) +
    cost_before(target) - cost_after(source) - cost_after(target) after
    application", for a move that is valid on the routes it is built on. *)
Definition gain_accounting : Prop :=
  ∀ k s rs sr t rt tr,
    op_is_valid k s rs sr t rt tr = true →
    (route_cost_for_vehicle s (op_apply k s rs sr t rt tr).1
     + route_cost_for_vehicle t (op_apply k s rs sr t rt tr).2
     + op_gain k s rs sr t rt tr
     = route_cost_for_vehicle s rs + route_cost_for_vehicle t rt)%Z.

(** Modelled from the spec: the routes a move proposes for reinsertion
    are among "the touched segments on both routes", its source and its
    target. *)
Definition candidates_touched : Prop :=
  ∀ k s t v, v ∈ addition_candidates k s t → v = s ∨ v = t.

(** [cost_t] is an unsigned type. *)
Definition costs_nonneg : Prop :=
  ∀ v r, (0 ≤ route_cost_for_vehicle v r)%Z.

(** *** The invariant of the loop *)

(** The cached route costs are those of the routes. *)
Definition costs_coherent (s : solution) : Prop :=
  length (tw_sol s) = V ∧ length (route_costs (sol_state s)) = V
  ∧ ∀ v, v < V →
      route_costs (sol_state s) !!! v = route_cost_for_vehicle v (tw_sol s !!! v).

(** A positive best gain belongs to a stored move of that pair that is
    valid, with that gain, on the routes as they are now. *)
Definition moves_fresh (x : search) : Prop :=
  ∀ s t, s < V → t < V → (0 < get2 (best_gains x) s t)%Z →
    ∃ o, get2 (best_ops x) s t = Some o
         ∧ s_vehicle o = s ∧ t_vehicle o = t
         ∧ gain o = get2 (best_gains x) s t
         ∧ op_is_valid (kind o) s (tw_sol (sol x) !!! s) (s_rank o)
                       t (tw_sol (sol x) !!! t) (t_rank o) = true
         ∧ op_gain (kind o) s (tw_sol (sol x) !!! s) (s_rank o)
                   t (tw_sol (sol x) !!! t) (t_rank o) = gain o.

Definition round_invariant (x : search) : Prop :=
  squares x ∧ moves_fresh x ∧ costs_coherent (sol x).

Lemma consider_moves_fresh (k : operator_kind) (x : search) (c : nat * nat * nat * nat) :
  squares x → moves_fresh x → moves_fresh (consider k x c).
Proof.
  intros [Hg Ho] Hfresh. destruct c as [[[s sr] t] tr]. unfold consider.
  destruct (op_is_valid _ _ _ _ _ _ _) eqn:Hvalid; simpl; [|done].
  destruct (_ <? _)%Z; [|done]. intros s' t' Hs' Ht'. simpl.
  destruct (decide (s < V ∧ t < V)) as [[Hs Ht]|Hout].
  - rewrite !(get2_set2 V) by done.
    destruct (decide (s = s' ∧ t = t')) as [[<- <-]|Hne]; [|by apply Hfresh].
    intros _. eexists. split; [done|]. simpl. done.
  - rewrite !(set2_out_of_range V) by done. by apply Hfresh.
Qed.

Lemma evaluate_round_invariant (x : search) :
  round_invariant x → round_invariant (evaluate x).
Proof.
  intros (Hsq & Hfresh & Hcoh).
  destruct (evaluate_sol x) as [Hsol _]. unfold round_invariant. rewrite Hsol.
  split; [|split; [|done]].
  - apply (evaluate_preserves squares); [|done]. intros; by apply consider_squares.
  - apply (evaluate_preserves (λ y, squares y ∧ moves_fresh y)); [|done].
    intros k y c [??]. split;
      [by apply consider_squares | by apply consider_moves_fresh].
Qed.

(** *** Sums of costs *)

Lemma fold_left_Zadd (l : list Z) (a : Z) :
  fold_left Z.add l a = (a + fold_left Z.add l 0)%Z.
Proof.
  revert a. induction l as [|z l IH]; intros a; simpl; [lia|].
  rewrite IH, (IH (0 + z)%Z). lia.
Qed.

Lemma sum_insert (l : list Z) (i : nat) (a : Z) :
  i < length l →
  fold_left Z.add (<[i := a]> l) 0%Z
  = (fold_left Z.add l 0 - l !!! i + a)%Z.
Proof.
  intros Hi. destruct (lookup_lt_is_Some_2 l i Hi) as [z Hz].
  rewrite (list_lookup_total_correct _ _ _ Hz).
  rewrite insert_take_drop by done.
  rewrite <- (take_drop_middle l i z Hz) at 3.
  rewrite !fold_left_app. simpl.
  rewrite (fold_left_Zadd (drop (S i) l) (_ + a)).
  rewrite (fold_left_Zadd (drop (S i) l) (_ + z)). lia.
Qed.

Lemma sum_nonneg (l : list Z) :
  Forall (λ z, 0 ≤ z)%Z l → (0 ≤ fold_left Z.add l 0)%Z.
Proof.
  induction 1 as [|z l Hz Hl IH]; simpl; [lia|].
  rewrite fold_left_Zadd. lia.
Qed.

Lemma total_cost_nonneg (s : solution) :
  costs_nonneg → costs_coherent s → (0 ≤ total_cost s)%Z.
Proof.
  intros Hnn (_ & Hlen & Hcoh). apply sum_nonneg, Forall_lookup.
  intros v z Hz. pose proof (lookup_lt_Some _ _ _ Hz) as Hv.
  rewrite <- (list_lookup_total_correct _ _ _ Hz), Hcoh by lia. apply Hnn.
Qed.

(** *** Each step of [apply_best] on the cached costs *)

Lemma costs_coherent_update (s s' : solution) (v : index) (r : route) :
  tw_sol s' = <[v := r]> (tw_sol s) →
  route_costs (sol_state s')
  = <[v := route_cost_for_vehicle v r]> (route_costs (sol_state s)) →
  costs_coherent s → costs_coherent s'.
Proof.
  intros Htw Hcosts (Hlt & Hlc & Hcoh). unfold costs_coherent.
  rewrite Htw, Hcosts, !length_insert. split; [done|]. split; [done|].
  intros v' Hv'. rewrite !list_lookup_total_insert, Hlt, Hlc.
  destruct (decide (v = v' ∧ v < V)) as [[<- _]|Hne]; [done | by apply Hcoh].
Qed.

Lemma costs_coherent_with_state (f : solution_state → solution_state) (s : solution) :
  (∀ st, route_costs (f st) = route_costs st) →
  costs_coherent s → costs_coherent (with_state f s).
Proof. intros Hf (? & ? & ?). unfold costs_coherent. simpl. by rewrite Hf. Qed.

Lemma straighten_route_costs_coherent (v : index) (s : solution) :
  costs_coherent s → costs_coherent (straighten_route v s).
Proof.
  intros Hcoh. unfold straighten_route. repeat case_match; try done.
  all: by eapply costs_coherent_update.
Qed.

Lemma add_job_costs_coherent (b : choice) (s : solution) :
  costs_coherent s → costs_coherent (add_job b s).
Proof. intros Hcoh. by eapply costs_coherent_update. Qed.

Lemma try_job_additions_costs_coherent (routes : list index) (c : double) (s : solution) :
  costs_coherent s → costs_coherent (try_job_additions routes c s).
Proof.
  intros Hcoh. apply (try_job_additions_preserves costs_coherent); [done|].
  intros; by apply add_job_costs_coherent.
Qed.

Lemma set_gains_costs_coherent (bs bt : index) (s : solution) :
  costs_coherent s → costs_coherent (set_gains bs bt s).
Proof.
  intros. unfold set_gains. by repeat apply costs_coherent_with_state.
Qed.

Lemma straighten_route_total_cost (v : index) (s : solution) :
  (total_cost (straighten_route v s) ≤ total_cost s)%Z.
Proof.
  unfold straighten_route. destruct (decide _); [|done].
  set (c := if _ || _ then _ else _). clearbody c.
  destruct (length c =? _); [|done].
  destruct (route_cost_for_vehicle v c <? _)%Z eqn:Hlt; [|done].
  apply Z.ltb_lt in Hlt. unfold total_cost. simpl.
  destruct (decide (v < length (route_costs (sol_state s)))) as [Hv|Hv].
  - rewrite sum_insert by done. lia.
  - rewrite list_insert_ge by lia. done.
Qed.

End Accounting.

Section RoundStep.
Context `{Collaborators}.
Hypothesis accounting : gain_accounting.
Hypothesis touched : candidates_touched.
Hypothesis double_order : double_lt_strict.

Section Move.
Variable o : ls_operator.
Variable s : solution.
Hypothesis coherent : costs_coherent s.
Hypothesis distinct : s_vehicle o ≠ t_vehicle o.
Hypothesis source_in_range : s_vehicle o < V.
Hypothesis target_in_range : t_vehicle o < V.
Hypothesis valid :
  op_is_valid (kind o) (s_vehicle o) (tw_sol s !!! s_vehicle o) (s_rank o)
              (t_vehicle o) (tw_sol s !!! t_vehicle o) (t_rank o) = true.

Let distinct' : t_vehicle o ≠ s_vehicle o.
Proof. intros Heq. by apply distinct. Qed.

Let r := op_apply (kind o) (s_vehicle o) (tw_sol s !!! s_vehicle o) (s_rank o)
                  (t_vehicle o) (tw_sol s !!! t_vehicle o) (t_rank o).
Let g := op_gain (kind o) (s_vehicle o) (tw_sol s !!! s_vehicle o) (s_rank o)
                 (t_vehicle o) (tw_sol s !!! t_vehicle o) (t_rank o).

Lemma after_costs_routes :
  tw_sol (after_costs o (s_vehicle o) (t_vehicle o) s)
  = <[t_vehicle o := r.2]> (<[s_vehicle o := r.1]> (tw_sol s)).
Proof. done. Qed.

Lemma after_costs_costs :
  route_costs (sol_state (after_costs o (s_vehicle o) (t_vehicle o) s))
  = <[t_vehicle o := route_cost_for_vehicle (t_vehicle o) r.2]>
      (<[s_vehicle o := route_cost_for_vehicle (s_vehicle o) r.1]>
         (route_costs (sol_state s))).
Proof.
  destruct coherent as (Hlt & Hlc & _).
  unfold after_costs, apply_operator. simpl. fold r.
  rewrite (list_lookup_total_insert_ne _ (t_vehicle o) (s_vehicle o)) by exact distinct'.
  rewrite list_lookup_total_insert_eq by (rewrite ?length_insert; lia).
  rewrite list_lookup_total_insert_eq by (rewrite ?length_insert; lia). done.
Qed.

(** The assertion of line 392. *)
Lemma cost_assertion :
  let s1 := apply_operator o s in
  let s3 := after_costs o (s_vehicle o) (t_vehicle o) s in
  (route_costs (sol_state s3) !!! s_vehicle o
   + route_costs (sol_state s3) !!! t_vehicle o + g
   = route_costs (sol_state s1) !!! s_vehicle o
     + route_costs (sol_state s1) !!! t_vehicle o)%Z.
Proof.
  intros s1 s3. unfold s3. rewrite after_costs_costs.
  destruct coherent as (Hlt & Hlc & Hcoh). simpl.
  rewrite (list_lookup_total_insert_ne _ (t_vehicle o) (s_vehicle o)) by exact distinct'.
  rewrite list_lookup_total_insert_eq by (rewrite ?length_insert; lia).
  rewrite list_lookup_total_insert_eq by (rewrite ?length_insert; lia).
  rewrite !Hcoh by done. apply accounting. exact valid.
Qed.

Lemma after_costs_coherent :
  costs_coherent (after_costs o (s_vehicle o) (t_vehicle o) s).
Proof.
  set (s' := {| tw_sol := <[s_vehicle o := r.1]> (tw_sol s);
                sol_state := update_route_cost r.1 (s_vehicle o) (sol_state s) |}).
  apply (costs_coherent_update s' _ (t_vehicle o) r.2);
    [by rewrite after_costs_routes | by rewrite after_costs_costs|].
  by apply (costs_coherent_update s s' (s_vehicle o) r.1).
Qed.

Lemma after_costs_total :
  total_cost (after_costs o (s_vehicle o) (t_vehicle o) s) = (total_cost s - g)%Z.
Proof.
  pose proof cost_assertion as Hassert. cbv zeta in Hassert.
  unfold total_cost. rewrite after_costs_costs in *.
  destruct coherent as (Hlt & Hlc & Hcoh). simpl in Hassert.
  rewrite (list_lookup_total_insert_ne _ (t_vehicle o) (s_vehicle o)) in Hassert by exact distinct'.
  rewrite list_lookup_total_insert_eq in Hassert by (rewrite ?length_insert; lia).
  rewrite list_lookup_total_insert_eq in Hassert by (rewrite ?length_insert; lia).
  rewrite !sum_insert by (rewrite ?length_insert; lia).
  rewrite (list_lookup_total_insert_ne _ (s_vehicle o) (t_vehicle o)) by exact distinct.
  lia.
Qed.

Lemma before_reinsertion_coherent :
  costs_coherent (before_reinsertion o (s_vehicle o) (t_vehicle o) s).
Proof.
  unfold before_reinsertion.
  repeat (apply costs_coherent_with_state; [done|]).
  repeat apply straighten_route_costs_coherent.
  apply after_costs_coherent.
Qed.

Lemma before_reinsertion_total :
  (total_cost (before_reinsertion o (s_vehicle o) (t_vehicle o) s)
   ≤ total_cost s - g)%Z.
Proof.
  rewrite <- after_costs_total. unfold before_reinsertion.
  etrans; [|apply (straighten_route_total_cost (s_vehicle o))].
  etrans; [|apply (straighten_route_total_cost (t_vehicle o))].
  done.
Qed.

Lemma before_reinsertion_unassigned :
  unassigned (sol_state (before_reinsertion o (s_vehicle o) (t_vehicle o) s))
  = unassigned (sol_state s).
Proof.
  unfold before_reinsertion. simpl. by rewrite !straighten_route_unassigned.
Qed.

Lemma before_reinsertion_other (v : index) :
  v ≠ s_vehicle o → v ≠ t_vehicle o →
  tw_sol (before_reinsertion o (s_vehicle o) (t_vehicle o) s) !!! v = tw_sol s !!! v.
Proof.
  intros Hs Ht. unfold before_reinsertion. simpl.
  rewrite !straighten_route_other by congruence. simpl.
  by rewrite !list_lookup_total_insert_ne by congruence.
Qed.

End Move.

Lemma try_job_additions_unassigned_le (routes : list index) (c : double) (s : solution) :
  length (unassigned (sol_state (try_job_additions routes c s)))
  ≤ length (unassigned (sol_state s)).
Proof.
  apply (try_job_additions_preserves
           (λ s', length (unassigned (sol_state s')) ≤ length (unassigned (sol_state s))));
    [done|].
  intros s' Hs' _. rewrite add_job_unassigned.
  pose proof (length_filter (λ j, j ≠ best_job (best_addition routes c s'))
                            (unassigned (sol_state s'))). lia.
Qed.

(** The reinsertion either leaves the solution as it is or assigns a job. *)
Lemma try_job_additions_progress (routes : list index) (c : double) (s : solution) :
  try_job_additions routes c s = s
  ∨ length (unassigned (sol_state (try_job_additions routes c s)))
    < length (unassigned (sol_state s)).
Proof.
  rewrite try_job_additions_unfold by done.
  destruct (job_added _) eqn:Hadded; [|by left]. right.
  pose proof (add_job_shrinks double_order c routes s Hadded).
  pose proof (try_job_additions_unassigned_le routes c
                (add_job (best_addition routes c s) s)). lia.
Qed.

End RoundStep.

Section Termination.
Context `{Collaborators}.
Hypothesis accounting : gain_accounting.
Hypothesis touched : candidates_touched.
Hypothesis double_order : double_lt_strict.

(** The claim in the spec's words: the total cost is strictly lower after
    a round that accepted a move. *)
Definition accepted_move_decreases_total_cost (x : search) : Prop :=
  ∀ x', round x = inr (x', true) → (total_cost (sol x') < total_cost (sol x))%Z.

(** What does decrease: the number of unassigned jobs, or else the total
    cost. *)
Definition round_progress (x x' : search) : Prop :=
  length (unassigned (sol_state (sol x'))) < length (unassigned (sol_state (sol x)))
  ∨ (unassigned (sol_state (sol x')) = unassigned (sol_state (sol x))
     ∧ (total_cost (sol x') < total_cost (sol x))%Z).

Lemma round_step (x : search) :
  round_invariant x →
  (∃ x', round x = inr (x', false))
  ∨ (∃ x', round x = inr (x', true) ∧ round_invariant x' ∧ round_progress x x').
Proof.
  intros Hinv.
  pose proof (evaluate_round_invariant x Hinv) as (Hsq & Hfresh & Hcoh).
  destruct (evaluate_sol x) as [Hsol _].
  pose proof (find_best_spec (best_gains (evaluate x))) as Hspec.
  unfold round, round_progress. rewrite <- Hsol.
  destruct (find_best _) as [[g bs] bt].
  destruct (0 <? g)%Z eqn:Hpos; [|left; eauto]. apply Z.ltb_lt in Hpos. right.
  destruct Hspec as [[(-> & _)|(Hne & Hbs & Hbt & Hgain & _)] _]; [lia|].
  destruct (Hfresh bs bt Hbs Hbt) as (o & Ho & Hso & Hto & Hgo & Hvalid & Hopgain);
    [lia|].
  subst bs bt. rewrite Hgain in Hgo.
  pose proof (cost_assertion accounting o (sol (evaluate x)) Hcoh Hne Hbs Hbt Hvalid)
    as Hassert.
  cbv zeta in Hassert. rewrite Hopgain, Hgo in Hassert.
  destruct (apply_best g (s_vehicle o) (t_vehicle o) (evaluate x)) as [f|x'] eqn:Happly.
  { exfalso. unfold apply_best in Happly. rewrite Ho in Happly.
    rewrite decide_True in Happly; [done | exact Hassert]. }
  exists x'. split; [done|].
  pose proof (apply_best_sol _ _ _ _ _ _ Ho Happly) as Hsol'.
  destruct (apply_best_search _ _ _ _ _ Happly) as (Hops & Hgains & _).
  set (routes := addition_candidates (kind o) (s_vehicle o) (t_vehicle o)) in *.
  set (sb := before_reinsertion o (s_vehicle o) (t_vehicle o) (sol (evaluate x))) in *.
  destruct Hsq as [Hsqg Hsqo].
  destruct (reset_gains_spec (s_vehicle o) (t_vehicle o) _ Hsqg Hbs Hbt) as [Hsq' Hval].
  assert (Hcoh' : costs_coherent sb).
  { by apply before_reinsertion_coherent. }
  split; [split; [|split]|].
  - split; [by rewrite Hgains | by rewrite Hops].
  - intros s t Hs Ht. rewrite Hgains, Hops, Hval by done.
    destruct (decide (s = s_vehicle o ∨ s = t_vehicle o
                      ∨ t = s_vehicle o ∨ t = t_vehicle o)) as [|Hother]; [lia|].
    intros Hgt. destruct (Hfresh s t Hs Ht Hgt) as (o' & Ho' & H').
    exists o'. split; [done|].
    assert (Hsame : ∀ v, v ≠ s_vehicle o → v ≠ t_vehicle o →
                         tw_sol (sol x') !!! v = tw_sol (sol (evaluate x)) !!! v).
    { intros v Hv1 Hv2. rewrite Hsol'. simpl.
      rewrite try_job_additions_other; [by apply before_reinsertion_other | done |].
      intros Hin. apply touched in Hin as [->| ->]; done. }
    rewrite !Hsame by tauto. exact H'.
  - rewrite Hsol'. apply set_gains_costs_coherent.
    by apply try_job_additions_costs_coherent.
  - rewrite Hsol'.
    assert (Hset : ∀ s', total_cost (set_gains (s_vehicle o) (t_vehicle o) s')
                         = total_cost s') by done.
    rewrite Hset. simpl.
    pose proof (before_reinsertion_unassigned o (sol (evaluate x))) as HU.
    pose proof (before_reinsertion_total accounting o (sol (evaluate x))
                  Hcoh Hne Hbs Hbt Hvalid) as Htot.
    fold sb in HU, Htot. rewrite Hopgain, Hgo in Htot.
    destruct (try_job_additions_progress double_order routes (to_double 0) sb)
      as [-> |Hlt].
    + right. split; [done|]. lia.
    + left. by rewrite <- HU.
Qed.

Lemma initial_round_invariant (routes : list route) :
  length routes = V → round_invariant (initial_search (initial_solution routes)).
Proof.
  intros Hlen. split; [apply initial_squares|]. split.
  - intros s t Hs Ht. rewrite initial_gains by done. lia.
  - split; [done|]. simpl. split; [by rewrite length_imap|].
    intros v Hv. apply list_lookup_total_correct.
    rewrite list_lookup_imap.
    destruct (lookup_lt_is_Some_2 routes v) as [r Hr]; [lia|].
    by rewrite Hr, (list_lookup_total_correct _ _ _ Hr).
Qed.

Lemma reachable_round_invariant (routes : list route) (x : search) :
  length routes = V →
  reachable (initial_solution routes) x → round_invariant x.
Proof.
  intros Hlen. induction 1 as [|x x' Hreach IH Hround];
    [by apply initial_round_invariant|].
  destruct (round_step x IH) as [[x'' Hr]|(x'' & Hr & Hinv & _)]; congruence.
Qed.

(** C1.  With operators whose gain is the cost they save on the routes
    they are built on, and whose addition candidates are their two routes:
    in every round of [run()] that applies a move, the two route costs
    recomputed after [apply()] plus the gain of the move equal the two
    cached costs from before, so that the assertion of line 392 holds and
    no run fails on it. *)
Theorem gain_assertion_holds (routes : list route) (x : search) :
  length routes = V →
  reachable (initial_solution routes) x →
  round x ≠ inl gain_mismatch
  ∧ ∀ fuel, run_loop fuel x ≠ inl gain_mismatch.
Proof.
  intros Hlen Hreach.
  assert (Hround : ∀ y, reachable (initial_solution routes) y →
                        round y ≠ inl gain_mismatch).
  { intros y Hy. pose proof (reachable_round_invariant routes y Hlen Hy) as Hinv.
    destruct (round_step y Hinv) as [[x' Hr]|(x' & Hr & _)]; by rewrite Hr. }
  split; [by apply Hround|]. intros fuel. revert x Hreach.
  induction fuel as [|fuel IH]; intros x Hreach; simpl; [done|].
  pose proof (Hround x Hreach) as Hx.
  destruct (round x) as [f|[x' [|]]] eqn:Hr; [by intros [= ->] | | done].
  apply IH. by eapply reachable_round.
Qed.

Lemma round_exit (x x' : search) (continue : bool) :
  round x = inr (x', continue) →
  continue = false
  ↔ ∀ s t, s < V → t < V → s ≠ t → (get2 (best_gains (evaluate x)) s t ≤ 0)%Z.
Proof.
  pose proof (find_best_spec (best_gains (evaluate x))) as Hspec.
  unfold round. destruct (find_best _) as [[g bs] bt].
  destruct Hspec as [Hg Hmax].
  destruct (0 <? g)%Z eqn:Hpos.
  - apply Z.ltb_lt in Hpos. destruct (apply_best _ _ _ _); [done|].
    intros [= _ <-]. split; [done|]. intros Hall.
    destruct Hg as [(-> & _)|(Hne & Hbs & Hbt & Hgain & _)]; [lia|].
    specialize (Hall bs bt Hbs Hbt Hne). lia.
  - apply Z.ltb_ge in Hpos. intros [= _ <-]. split; [|done].
    intros _ s t Hs Ht Hne. specialize (Hmax s t Hs Ht Hne). lia.
Qed.

Lemma run_loop_terminates (x : search) :
  costs_nonneg → round_invariant x →
  ∃ fuel x', run_loop fuel x = inr x'.
Proof.
  intros Hnn.
  assert (Hgen : ∀ n m y, round_invariant y →
            length (unassigned (sol_state (sol y))) = n →
            Z.to_nat (total_cost (sol y)) = m →
            ∃ fuel y', run_loop fuel y = inr y').
  { induction n as [n IHn] using lt_wf_ind.
    induction m as [m IHm] using lt_wf_ind. intros y Hinv Hn Hm.
    destruct (round_step y Hinv) as [[y' Hr]|(y' & Hr & Hinv' & Hprog)].
    - exists 1, y'. simpl. by rewrite Hr.
    - assert (Hrec : ∃ fuel y'', run_loop fuel y' = inr y'').
      { destruct Hprog as [Hlt|[Heq Hlt]].
        - eapply (IHn (length (unassigned (sol_state (sol y'))))); [lia | done ..].
        - eapply (IHm (Z.to_nat (total_cost (sol y')))); [|done | by rewrite Heq | done].
          pose proof (total_cost_nonneg (sol y') Hnn) as Hpos.
          destruct Hinv' as (_ & _ & Hcoh'). specialize (Hpos Hcoh'). lia. }
      destruct Hrec as (fuel & y'' & Hf). exists (S fuel), y''. simpl.
      by rewrite Hr. }
  intros Hinv. by eapply Hgen.
Qed.

(** C2, as amended.  [run()] ends on every solution with one route per
    vehicle (costs being non-negative, operators accounting for their gain
    and proposing their own routes for reinsertion).  A round ends the loop
    exactly when no pair of distinct vehicles has a positive best gain.  A
    round that accepts a move may leave a higher total cost, because the
    jobs it reinserts add to it; but it either leaves fewer jobs unassigned
    or leaves the same jobs unassigned and a strictly lower total cost,
    which is a non-negative integer. *)
Theorem run_terminates (routes : list route) :
  costs_nonneg → length routes = V →
  (∃ fuel s', run fuel (initial_solution routes) = inr s')
  ∧ ∀ x, reachable (initial_solution routes) x →
      ∃ x' continue,
        round x = inr (x', continue)
        ∧ (continue = false
           ↔ ∀ s t, s < V → t < V → s ≠ t →
               (get2 (best_gains (evaluate x)) s t ≤ 0)%Z)
        ∧ (continue = true →
             (0 ≤ total_cost (sol x'))%Z ∧ round_progress x x').
Proof.
  intros Hnn Hlen. split.
  - destruct (run_loop_terminates (initial_search (initial_solution routes)) Hnn)
      as (fuel & x' & Hrun); [by apply initial_round_invariant|].
    exists fuel, (sol x'). unfold run. by rewrite Hrun.
  - intros x Hreach.
    pose proof (reachable_round_invariant routes x Hlen Hreach) as Hinv.
    destruct (round_step x Hinv) as [[x' Hr]|(x' & Hr & Hinv' & Hprog)].
    + exists x', false. split; [done|]. split; [by eapply round_exit | done].
    + exists x', true. split; [done|]. split; [by eapply round_exit|].
      intros _. split; [|done]. apply total_cost_nonneg; [done | apply Hinv'].
Qed.

End Termination.

(** ** The small instance *)

Section RoundsDemo.
#[local] Existing Instance Demo.instance.

Lemma demo_gain_accounting : gain_accounting.
Proof.
  intros k s rs sr t rt tr. destruct k; simpl; try discriminate.
  intros _. lia.
Qed.

Lemma demo_candidates_touched : candidates_touched.
Proof.
  intros k s t v Hv. destruct k; simpl in Hv;
    repeat (apply elem_of_cons in Hv as [->|Hv]; [tauto|]);
    by apply elem_of_nil in Hv.
Qed.

Lemma demo_costs_nonneg : costs_nonneg.
Proof.
  intros v r. simpl. unfold Demo.cost. generalize 0%Z.
  induction r as [|j r IH]; intros from; simpl; [lia|].
  specialize (IH (Demo.location j)). lia.
Qed.

(** C10 on the small instance, first round. *)
Lemma positive_gain_has_operator_witness :
  round (initial_search Demo.start) ≠ inl null_operator.
Proof.
  apply (positive_gain_has_operator Demo.start (initial_search Demo.start)).
  apply reachable_initial.
Defined.

(** C8 on the small instance, first round: Reverse 2-opt* builds a move
    for the pair (1, 0). *)
Lemma operator_loops_pairs_witness :
  (1, 0, 0, 0) ∈ reverse_two_opt_candidates (initial_search Demo.start).
Proof.
  apply (operator_loops_pairs Demo.start (initial_search Demo.start) 1 0 0 0
           (reachable_initial Demo.start)).
  split; [|split; [|split]].
  - apply list_elem_of_In. vm_compute. tauto.
  - vm_compute. lia.
  - vm_compute. lia.
  - intros tr' Htr'. assert (tr' = 0) as -> by lia. vm_compute. reflexivity.
Defined.

(** C1 on the small instance, first round. *)
Lemma gain_assertion_holds_witness :
  round (initial_search Demo.start) ≠ inl gain_mismatch.
Proof.
  apply (gain_assertion_holds demo_gain_accounting demo_candidates_touched
           demo_double_lt_strict Demo.routes (initial_search Demo.start));
    [reflexivity | apply reachable_initial].
Defined.

(** C2 on the small instance. *)
Lemma run_terminates_witness :
  ∃ fuel s', run fuel Demo.start = inr s'.
Proof.
  apply (run_terminates demo_gain_accounting demo_candidates_touched
           demo_double_lt_strict Demo.routes demo_costs_nonneg).
  reflexivity.
Defined.

(** C2 as the spec words it fails: the first round of the small instance
    accepts a move of gain 10 (job 0 goes to vehicle 1) and then adds job 2
    to vehicle 0 at a cost of 40; the total cost goes from 20 to 50. *)
Lemma accepted_move_decreases_total_cost_counterexample :
  gain_accounting ∧ candidates_touched ∧ costs_nonneg ∧ double_lt_strict
  ∧ round (initial_search Demo.start) = inr (Demo.after_first_round, true)
  ∧ total_cost (sol (initial_search Demo.start)) = 20%Z
  ∧ total_cost (sol Demo.after_first_round) = 50%Z
  ∧ ¬ accepted_move_decreases_total_cost (initial_search Demo.start).
Proof.
  split; [apply demo_gain_accounting|]. split; [apply demo_candidates_touched|].
  split; [apply demo_costs_nonneg|]. split; [apply demo_double_lt_strict|].
  assert (Hround : round (initial_search Demo.start)
                   = inr (Demo.after_first_round, true))
    by (vm_compute; reflexivity).
  split; [exact Hround|]. split; [vm_compute; reflexivity|].
  split; [vm_compute; reflexivity|].
  intros Hclaim. specialize (Hclaim _ Hround). vm_compute in Hclaim.
  discriminate Hclaim.
Qed.

End RoundsDemo.

(** ** The amount caches along a run *)

Section AmountsAlongRun.
Context `{Collaborators}.
Hypothesis amounts_sized : ∀ j, length (job_amount j) = amount_size.
Hypothesis double_order : double_lt_strict.

(** The stored move of a pair is a move of that pair. *)
Definition ops_indexed (x : search) : Prop :=
  ∀ s t o, s < V → t < V → get2 (best_ops x) s t = Some o →
    s_vehicle o = s ∧ t_vehicle o = t.

(** The amount caches of all the vehicles agree with a recomputation. *)
Definition amounts_invariant (s : solution) : Prop :=
  length (tw_sol s) = V
  ∧ length (fwd_amounts (sol_state s)) = V
  ∧ length (bwd_amounts (sol_state s)) = V
  ∧ ∀ v, v < V → amounts_coherent s v.

Lemma consider_ops_indexed (k : operator_kind) (x : search) (c : nat * nat * nat * nat) :
  squares x → ops_indexed x → ops_indexed (consider k x c).
Proof.
  intros [Hg Ho] Hidx. destruct c as [[[s sr] t] tr]. unfold consider.
  destruct (_ && _); [|done]. intros s' t' o Hs' Ht'. simpl.
  destruct (decide (s < V ∧ t < V)) as [[Hs Ht]|Hout].
  - rewrite (get2_set2 V) by done.
    destruct (decide (s = s' ∧ t = t')) as [[<- <-]|Hne]; [|by apply Hidx].
    by intros [= <-].
  - rewrite (set2_out_of_range V) by done. by apply Hidx.
Qed.

Lemma evaluate_ops_indexed (x : search) :
  squares x → ops_indexed x → squares (evaluate x) ∧ ops_indexed (evaluate x).
Proof.
  intros Hsq Hidx.
  apply (evaluate_preserves (λ y, squares y ∧ ops_indexed y)); [|done].
  intros k y c [??]. split; [by apply consider_squares | by apply consider_ops_indexed].
Qed.

Lemma initial_amounts_invariant (routes : list route) :
  length routes = V → amounts_invariant (initial_solution routes).
Proof.
  intros Hlen. unfold amounts_invariant, amounts_coherent. simpl.
  rewrite !length_fmap. repeat split; try done.
  - apply list_lookup_total_correct. rewrite list_lookup_fmap.
    by rewrite (list_lookup_lookup_total_lt routes v) by lia.
  - rewrite (list_lookup_total_correct (fwd_from_scratch <$> routes) v
               (fwd_from_scratch (routes !!! v))).
    + apply list_lookup_total_correct. rewrite list_lookup_fmap.
      by rewrite (list_lookup_lookup_total_lt routes v) by lia.
    + rewrite list_lookup_fmap.
      by rewrite (list_lookup_lookup_total_lt routes v) by lia.
Qed.

Lemma straighten_route_fwd_amounts (v : index) (s : solution) :
  fwd_amounts (sol_state (straighten_route v s)) = fwd_amounts (sol_state s).
Proof. unfold straighten_route. repeat case_match; done. Qed.

Lemma straighten_route_bwd_amounts (v : index) (s : solution) :
  bwd_amounts (sol_state (straighten_route v s)) = bwd_amounts (sol_state s).
Proof. unfold straighten_route. repeat case_match; done. Qed.

Lemma before_reinsertion_amounts (o : ls_operator) (s : solution) :
  amounts_invariant s →
  amounts_invariant (before_reinsertion o (s_vehicle o) (t_vehicle o) s).
Proof.
  intros (Hlt & Hlf & Hlb & Hcoh).
  assert (Hlen : ∀ v s', length (tw_sol (straighten_route v s')) = length (tw_sol s')).
  { intros v s'. unfold straighten_route. repeat case_match; try done;
      simpl; by rewrite length_insert. }
  set (s4 := straighten_route (t_vehicle o)
               (straighten_route (s_vehicle o)
                  (after_costs o (s_vehicle o) (t_vehicle o) s))).
  assert (Htw : tw_sol (before_reinsertion o (s_vehicle o) (t_vehicle o) s) = tw_sol s4)
    by done.
  assert (Hfwd : fwd_amounts (sol_state (before_reinsertion o (s_vehicle o) (t_vehicle o) s))
                 = <[t_vehicle o := fwd_from_scratch (tw_sol s4 !!! t_vehicle o)]>
                     (<[s_vehicle o := fwd_from_scratch (tw_sol s4 !!! s_vehicle o)]>
                        (fwd_amounts (sol_state s)))).
  { unfold before_reinsertion. simpl. by rewrite !straighten_route_fwd_amounts. }
  assert (Hbwd : bwd_amounts (sol_state (before_reinsertion o (s_vehicle o) (t_vehicle o) s))
                 = <[t_vehicle o := bwd_from_fwd (fwd_from_scratch (tw_sol s4 !!! t_vehicle o))]>
                     (<[s_vehicle o := bwd_from_fwd (fwd_from_scratch (tw_sol s4 !!! s_vehicle o))]>
                        (bwd_amounts (sol_state s)))).
  { unfold before_reinsertion. simpl. by rewrite !straighten_route_bwd_amounts. }
  unfold amounts_invariant, amounts_coherent.
  rewrite Htw, Hfwd, Hbwd, !length_insert. unfold s4 at 1. rewrite !Hlen.
  split; [by rewrite after_costs_routes, !length_insert|].
  split; [done|]. split; [done|].
  intros v Hv. rewrite !list_lookup_total_insert, !length_insert, Hlf, Hlb.
  destruct (decide (t_vehicle o = v ∧ t_vehicle o < V)) as [[<- _]|Hnt]; [done|].
  destruct (decide (s_vehicle o = v ∧ s_vehicle o < V)) as [[<- _]|Hns]; [done|].
  assert (v ≠ s_vehicle o ∧ v ≠ t_vehicle o) as [Hs Ht].
  { split; intros ->; [apply Hns | apply Hnt]; done. }
  rewrite <- Htw, before_reinsertion_other by done. by apply Hcoh.
Qed.

Lemma add_job_amounts_invariant (b : choice) (s : solution) :
  best_rank b ≤ length (tw_sol s !!! best_route b) →
  amounts_invariant s → amounts_invariant (add_job b s).
Proof.
  intros Hrank (Hlt & Hlf & Hlb & Hcoh).
  destruct (decide (best_route b < V)) as [Hv|Hv].
  - destruct (Hcoh _ Hv) as [Hfwd Hbwd].
    destruct (add_job_amounts b s amounts_sized) as (Hr' & Hf' & Hb');
      [lia | lia | lia | done | done | done |].
    unfold amounts_invariant. simpl. rewrite !length_insert.
    split; [done|]. split; [done|]. split; [done|]. intros v Hv'.
    destruct (decide (v = best_route b)) as [->|Hne].
    + split; [exact Hf' | by rewrite Hb', Hf'].
    + unfold amounts_coherent. simpl.
      rewrite !list_lookup_total_insert_ne by done. by apply Hcoh.
  - unfold amounts_invariant, amounts_coherent. simpl.
    rewrite !list_insert_ge by lia. done.
Qed.

Lemma job_added_rank (routes : list index) (c : double) (s : solution) :
  job_added (best_addition routes c s) = true →
  best_rank (best_addition routes c s)
  ≤ length (tw_sol s !!! best_route (best_addition routes c s)).
Proof.
  intros Hadded.
  destruct (job_added_choice double_order _ _ _ Hadded)
    as (j & i & _ & [Hi Hfin] & ->).
  simpl. rewrite entry_lookup in * by done.
  destruct (best_for_route_spec s j (routes !!! i)) as [[[? _]|(_ & Hc & _)] _];
    [done|]. apply Hc.
Qed.

Lemma try_job_additions_amounts_invariant (routes : list index) (c : double)
    (s : solution) :
  amounts_invariant s → amounts_invariant (try_job_additions routes c s).
Proof.
  intros Hinv. apply (try_job_additions_preserves amounts_invariant); [done|].
  intros s' Hs' Hadded. apply add_job_amounts_invariant; [|done].
  by apply job_added_rank.
Qed.

Lemma reachable_amounts_invariant (routes : list route) (x : search) :
  length routes = V →
  reachable (initial_solution routes) x →
  squares x ∧ ops_indexed x ∧ amounts_invariant (sol x).
Proof.
  intros Hlen. induction 1 as [|x x' Hreach (Hsq & Hidx & Hinv) Hround].
  - split; [apply initial_squares|]. split; [|by apply initial_amounts_invariant].
    intros s t o Hs Ht. unfold get2. simpl.
    by rewrite !lookup_total_replicate_2.
  - destruct (evaluate_ops_indexed x Hsq Hidx) as [[Hg Ho] Hidx'].
    destruct (evaluate_sol x) as [Hsol _].
    destruct (round_continues _ _ Hround) as (g & bs & bt & Hbest & Hpos & Happly).
    destruct (apply_best_search _ _ _ _ _ Happly) as (Hops & Hgains & _).
    pose proof (find_best_spec (best_gains (evaluate x))) as Hspec.
    rewrite Hbest in Hspec.
    destruct Hspec as [[(-> & _)|(_ & Hbs & Hbt & _)] _]; [lia|].
    destruct (reset_gains_spec bs bt _ Hg Hbs Hbt) as [Hsq' _].
    split; [split; [by rewrite Hgains | by rewrite Hops]|].
    split; [unfold ops_indexed; by rewrite Hops|].
    destruct (get2 (best_ops (evaluate x)) bs bt) as [o|] eqn:Hget.
    2:{ unfold apply_best in Happly. by rewrite Hget in Happly. }
    rewrite (apply_best_sol _ _ _ _ _ _ Hget Happly).
    destruct (Hidx' bs bt o Hbs Hbt Hget) as [<- <-].
    assert (Hset : ∀ s', amounts_invariant s' →
                         amounts_invariant (set_gains (s_vehicle o) (t_vehicle o) s'))
      by done.
    apply Hset, try_job_additions_amounts_invariant, before_reinsertion_amounts.
    by rewrite Hsol.
Qed.

(** C6.  In every round of [run()] on a problem whose job amounts are
    componentwise non-negative (and of the dimension of the problem), the
    2-opt* and Reverse 2-opt* loops, which leave the scan of the target
    ranks at the first rank that violates the capacity bound, build moves
    for exactly the pairs [(s_rank, t_rank)], in the same order, as a scan
    of all the target ranks that keeps the ranks within the bound: the
    break skips no pair that satisfies the bound. *)
Theorem early_break_scans_are_exhaustive (routes : list route) (x : search) :
  (∀ j, Forall (λ z, 0 ≤ z)%Z (job_amount j)) →
  length routes = V →
  reachable (initial_solution routes) x →
  two_opt_candidates x = two_opt_candidates_exhaustive x
  ∧ reverse_two_opt_candidates x = reverse_two_opt_candidates_exhaustive x.
Proof.
  intros Hnn Hlen Hreach.
  destruct (reachable_amounts_invariant routes x Hlen Hreach)
    as (_ & _ & _ & _ & _ & Hcoh).
  apply early_break_scans_coherent; [done | done|].
  intros s t Hst. apply Hcoh.
  by destruct (reachable_pairs_distinct _ _ Hreach s t Hst) as (_ & _ & ?).
Qed.

End AmountsAlongRun.

Section EarlyBreakDemo.
#[local] Existing Instance Demo.instance.

Lemma demo_amounts_sized : ∀ j, length (job_amount j) = amount_size.
Proof. intros j. reflexivity. Qed.

(** C6 on the small instance, after its first round: vehicle 0 is full,
    the downward scan of the ranks of vehicle 1 stops after rank 1. *)
Lemma early_break_scans_are_exhaustive_witness :
  two_opt_candidates Demo.after_first_round = [(0, 0, 1, 1)]
  ∧ two_opt_candidates Demo.after_first_round
    = two_opt_candidates_exhaustive Demo.after_first_round.
Proof.
  split; [vm_compute; reflexivity|].
  apply (early_break_scans_are_exhaustive demo_amounts_sized demo_double_lt_strict
           Demo.routes Demo.after_first_round).
  - intros j. simpl. constructor; [lia | constructor].
  - reflexivity.
  - apply (reachable_round _ (initial_search Demo.start)); [apply reachable_initial|].
    vm_compute. reflexivity.
Defined.

End EarlyBreakDemo.


(** * Further properties of the code *)

(** ** The lists of pairs and the selection (lines 156-174, 360-376, 421-443) *)

Section PairLists.
Context `{Collaborators}.

Lemma elem_of_all_pairs (s t : nat) :
  (s, t) ∈ all_pairs ↔ s < V ∧ t < V ∧ s ≠ t.
Proof.
  unfold all_pairs. rewrite list_elem_of_bind. split.
  - intros (s' & Hst & Hs'). apply list_elem_of_bind in Hst as (t' & Hst & Ht').
    apply elem_of_seq in Hs', Ht'.
    destruct (decide (s' = t')); [by apply elem_of_nil in Hst|].
    apply list_elem_of_singleton in Hst as [= -> ->]. lia.
  - intros (Hs & Ht & Hne). exists s. split; [|apply elem_of_seq; lia].
    apply list_elem_of_bind. exists t. split; [|apply elem_of_seq; lia].
    rewrite decide_False by done. by apply list_elem_of_singleton.
Qed.

Lemma length_bind_const {A B} (f : A → list B) (l : list A) (n : nat) :
  (∀ a, a ∈ l → length (f a) = n) → length (l ≫= f) = length l * n.
Proof.
  induction l as [|a l IH]; intros Hf; [done|].
  rewrite bind_cons, length_app, Hf, IH; [simpl; lia | | by left].
  intros b Hb. apply Hf. by right.
Qed.

Lemma length_row_without (g : nat → nat * nat) (s n : nat) :
  length (t ← seq 0 n; if decide (s = t) then [] else [g t])
  = if decide (s < n) then n - 1 else n.
Proof.
  induction n as [|n IH]; [by destruct (decide _)|].
  rewrite seq_S, bind_app, length_app, IH. simpl.
  destruct (decide (s = n)) as [->|Hne]; simpl.
  - rewrite decide_False by lia. rewrite decide_True by lia. lia.
  - destruct (decide (s < n)); [rewrite decide_True by lia|rewrite decide_False by lia];
      simpl; lia.
Qed.

(** X1.  The list of pairs of the first round (lines 162-170) holds every
    ordered pair of distinct vehicles, each once: [V * (V - 1)] pairs. *)
Theorem all_pairs_spec :
  NoDup all_pairs
  ∧ length all_pairs = V * (V - 1)
  ∧ ∀ s t, (s, t) ∈ all_pairs ↔ s < V ∧ t < V ∧ s ≠ t.
Proof.
  split; [|split; [|apply elem_of_all_pairs]].
  - unfold all_pairs. apply NoDup_bind; [| |apply NoDup_seq].
    + intros s1 s2 [s t] _ _ H1 H2.
      apply list_elem_of_bind in H1 as (t1 & H1 & _).
      apply list_elem_of_bind in H2 as (t2 & H2 & _).
      destruct (decide (s1 = t1)); [by apply elem_of_nil in H1|].
      destruct (decide (s2 = t2)); [by apply elem_of_nil in H2|].
      apply list_elem_of_singleton in H1, H2. congruence.
    + intros s _. apply NoDup_bind; [| |apply NoDup_seq].
      * intros t1 t2 [s' t] _ _ H1 H2.
        destruct (decide (s = t1)); [by apply elem_of_nil in H1|].
        destruct (decide (s = t2)); [by apply elem_of_nil in H2|].
        apply list_elem_of_singleton in H1, H2. congruence.
      * intros t _. destruct (decide (s = t)); [constructor | apply NoDup_singleton].
  - unfold all_pairs.
    rewrite (length_bind_const _ _ (V - 1)); [by rewrite length_seq|].
    intros s Hs. apply elem_of_seq in Hs.
    rewrite (length_row_without (λ t, (s, t))). rewrite decide_True by lia. done.
Qed.

Lemma elem_of_next_pairs (bs bt s t : nat) :
  bs ≠ bt → bs < V → bt < V →
  (s, t) ∈ next_pairs bs bt
  ↔ s ≠ t ∧ s < V ∧ t < V ∧ (s = bs ∨ s = bt ∨ t = bs ∨ t = bt).
Proof.
  intros Hne Hbs Hbt. unfold next_pairs. rewrite elem_of_app. split.
  - intros [Hst|Hst].
    + apply elem_of_cons in Hst as [[= -> ->]|Hst]; [lia|].
      apply list_elem_of_singleton in Hst as [= -> ->]. lia.
    + apply list_elem_of_bind in Hst as (v & Hst & Hv). apply elem_of_seq in Hv.
      destruct (decide (v = bs ∨ v = bt)); [by apply elem_of_nil in Hst|].
      repeat (apply elem_of_cons in Hst as [[= -> ->]|Hst]; [lia|]).
      by apply elem_of_nil in Hst.
  - intros (Hst & Hs & Ht & Hin).
    destruct (decide (s = bs ∧ t = bt)) as [[-> ->]|H1]; [left; by left|].
    destruct (decide (s = bt ∧ t = bs)) as [[-> ->]|H2];
      [left; right; by left|].
    right. apply list_elem_of_bind.
    destruct (decide (s = bs ∨ s = bt)) as [Hs'|Hs'].
    + exists t. split; [|apply elem_of_seq; lia].
      rewrite decide_False by lia.
      destruct Hs' as [-> | ->]; [by left | right; right; by left].
    + exists s. split; [|apply elem_of_seq; lia].
      rewrite decide_False by done.
      assert (t = bs ∨ t = bt) as [-> | ->] by tauto;
        [right; by left | right; right; right; by left].
Qed.

Lemma length_blocks_without {B} (f : nat → list B) (bs bt n : nat) :
  bs ≠ bt → (∀ v, length (f v) = 4) →
  length (v ← seq 0 n; if decide (v = bs ∨ v = bt) then [] else f v)
  = 4 * (n - (if decide (bs < n) then 1 else 0) - (if decide (bt < n) then 1 else 0)).
Proof.
  intros Hne Hf. induction n as [|n IH]; [done|].
  rewrite seq_S, bind_app, length_app, IH. simpl. rewrite app_nil_r.
  destruct (decide (n = bs ∨ n = bt)) as [Hn|Hn]; simpl;
    [|rewrite Hf]; repeat case_decide; lia.
Qed.

(** X2.  After a move on the pair [(bs, bt)], the list of pairs built for
    the next round (lines 421-443) holds exactly the ordered pairs of
    distinct vehicles with [bs] or [bt] as source or target, each once,
    [4 * V - 6] pairs; and the entries of [best_gains] set to zero are, off
    the diagonal, exactly those of the pairs of that list: a gain that is
    kept belongs to a pair that is not evaluated again. *)
Theorem next_pairs_spec (bs bt : nat) (gains : list (list Z)) :
  bs ≠ bt → bs < V → bt < V → square V gains →
  NoDup (next_pairs bs bt)
  ∧ length (next_pairs bs bt) = 4 * V - 6
  ∧ (∀ s t, (s, t) ∈ next_pairs bs bt
            ↔ s ≠ t ∧ s < V ∧ t < V ∧ (s = bs ∨ s = bt ∨ t = bs ∨ t = bt))
  ∧ ∀ s t, s < V → t < V → s ≠ t →
      get2 (reset_gains bs bt gains) s t
      = if decide ((s, t) ∈ next_pairs bs bt) then 0%Z else get2 gains s t.
Proof.
  intros Hne Hbs Hbt Hsq.
  split; [|split; [|split; [intros; by apply elem_of_next_pairs|]]].
  - unfold next_pairs. apply NoDup_app. split; [|split].
    + apply NoDup_cons. split; [|apply NoDup_singleton].
      intros Hin. apply list_elem_of_singleton in Hin. congruence.
    + intros [s t] Hin Hin'.
      apply list_elem_of_bind in Hin' as (v & Hin' & _).
      destruct (decide (v = bs ∨ v = bt)); [by apply elem_of_nil in Hin'|].
      assert ((s = bs ∧ t = bt) ∨ (s = bt ∧ t = bs)) as Hst.
      { apply elem_of_cons in Hin as [[= -> ->]|Hin]; [by left|].
        apply list_elem_of_singleton in Hin as [= -> ->]. by right. }
      repeat (apply elem_of_cons in Hin' as [[= -> ->]|Hin']; [lia|]).
      by apply elem_of_nil in Hin'.
    + apply NoDup_bind; [| |apply NoDup_seq].
      * intros v1 v2 [s t] _ _ H1 H2.
        destruct (decide (v1 = bs ∨ v1 = bt)); [by apply elem_of_nil in H1|].
        destruct (decide (v2 = bs ∨ v2 = bt)); [by apply elem_of_nil in H2|].
        repeat (apply elem_of_cons in H1 as [H1e|H1]);
          try (by apply elem_of_nil in H1);
          repeat (apply elem_of_cons in H2 as [H2e|H2]);
          try (by apply elem_of_nil in H2);
          simplify_eq; first [done | exfalso; tauto].
      * intros v _. destruct (decide (v = bs ∨ v = bt)) as [|Hv]; [constructor|].
        repeat (apply NoDup_cons; split;
                [intros Hin;
                 repeat (apply elem_of_cons in Hin as [Hin'|Hin];
                         [simplify_eq; tauto|]);
                 by apply elem_of_nil in Hin|]).
        constructor.
  - unfold next_pairs. rewrite length_app.
    rewrite (length_blocks_without
               (λ v, [(bs, v); (v, bs); (bt, v); (v, bt)]) bs bt V Hne) by done.
    rewrite !decide_True by done. simpl. lia.
  - intros s t Hs Ht Hst.
    destruct (reset_gains_spec bs bt gains Hsq Hbs Hbt) as [_ Hval].
    rewrite Hval by done.
    destruct (decide (s = bs ∨ s = bt ∨ t = bs ∨ t = bt)) as [Hin|Hout].
    + rewrite decide_True; [done|]. by apply elem_of_next_pairs.
    + rewrite decide_False; [done|]. intros Hin.
      apply elem_of_next_pairs in Hin; tauto.
Qed.

(** The selection after the entries before row [s_v], and those of row
    [s_v] before column [n], have been compared. *)
Definition selected_so_far (gains : list (list Z)) (s_v n : nat) (b : Z * nat * nat) : Prop :=
  (∀ s' t', s' < V → t' < V → s' ≠ t' → s' < s_v ∨ (s' = s_v ∧ t' < n) →
     (get2 gains s' t' ≤ b.1.1)%Z)
  ∧ (b = (0%Z, 0, 0)
     ∨ ((0 < b.1.1)%Z ∧ b.1.2 ≠ b.2 ∧ b.1.2 < V ∧ b.2 < V
        ∧ get2 gains b.1.2 b.2 = b.1.1
        ∧ ∀ s' t', s' < V → t' < V → s' ≠ t' →
            s' < b.1.2 ∨ (s' = b.1.2 ∧ t' < b.2) → (get2 gains s' t' < b.1.1)%Z)).

Lemma find_best_selected (gains : list (list Z)) :
  selected_so_far gains V 0 (find_best gains).
Proof.
  set (inner := λ (s_v : nat) (b : Z * nat * nat) (t_v : nat),
         if decide (s_v = t_v) then b
         else if (b.1.1 <? get2 gains s_v t_v)%Z
              then (get2 gains s_v t_v, s_v, t_v) else b).
  assert (Hinner : ∀ s_v n b,
    s_v < V → n ≤ V → selected_so_far gains s_v 0 b →
    selected_so_far gains s_v n (fold_left (inner s_v) (seq 0 n) b)).
  { intros s_v n b Hs. induction n as [|n IH]; intros Hn Hb; [done|].
    rewrite seq_S, fold_left_app. simpl.
    specialize (IH ltac:(lia) Hb).
    set (b1 := fold_left (inner s_v) (seq 0 n) b) in *. clearbody b1.
    destruct IH as [Hbound Hsel]. unfold inner.
    destruct (decide (s_v = n)) as [->|Hne].
    { split; [|done]. intros s' t' Hs' Ht' Hne' Hin. apply Hbound; try done. lia. }
    destruct (b1.1.1 <? get2 gains s_v n)%Z eqn:Hlt.
    - apply Z.ltb_lt in Hlt.
      assert (Hnn : (0 ≤ b1.1.1)%Z).
      { destruct Hsel as [->|(? & _)]; simpl; lia. }
      split; simpl.
      + intros s' t' Hs' Ht' Hne' Hin.
        destruct (decide (s' = s_v ∧ t' = n)) as [[-> ->]|Hother]; [lia|].
        assert (get2 gains s' t' ≤ b1.1.1)%Z; [|lia].
        apply Hbound; try done. lia.
      + right. split; [lia|]. split; [done|]. split; [done|]. split; [lia|].
        split; [done|]. intros s' t' Hs' Ht' Hne' Hin.
        assert (get2 gains s' t' ≤ b1.1.1)%Z; [|lia].
        apply Hbound; try done.
    - apply Z.ltb_ge in Hlt. split; [|done].
      intros s' t' Hs' Ht' Hne' Hin.
      destruct (decide (s' = s_v ∧ t' = n)) as [[-> ->]|Hother]; [lia|].
      apply Hbound; try done. lia. }
  assert (Houter : ∀ n, n ≤ V →
    selected_so_far gains n 0
      (fold_left (λ b s_v, fold_left (inner s_v) (seq 0 V) b) (seq 0 n) (0%Z, 0, 0))).
  { induction n as [|n IH]; intros Hn.
    - split; [intros; lia | by left].
    - rewrite seq_S, fold_left_app. simpl.
      specialize (IH ltac:(lia)).
      set (b1 := fold_left _ (seq 0 n) (0%Z, 0, 0)) in *. clearbody b1.
      destruct (Hinner n V b1) as [Hbound Hsel]; [lia | lia | done|].
      split; [|done]. intros s' t' Hs' Ht' Hne' Hin. apply Hbound; try done. lia. }
  apply (Houter V). lia.
Qed.

(** X3.  The selection of lines 360-376 returns the largest entry of
    [best_gains] over the pairs of distinct vehicles when it is positive,
    at the first such pair in the order of the two loops (by source, then
    by target); a diagonal entry is never selected; and without a positive
    entry it returns gain 0 with source and target 0. *)
Theorem find_best_first_maximum (gains : list (list Z)) :
  let '(g, s, t) := find_best gains in
  (∀ s' t', s' < V → t' < V → s' ≠ t' → (get2 gains s' t' ≤ g)%Z)
  ∧ (0 ≤ g)%Z
  ∧ ((∀ s' t', s' < V → t' < V → s' ≠ t' → (get2 gains s' t' ≤ 0)%Z)
     ↔ (g, s, t) = (0%Z, 0, 0))
  ∧ ((0 < g)%Z →
     s ≠ t ∧ s < V ∧ t < V ∧ get2 gains s t = g
     ∧ ∀ s' t', s' < V → t' < V → s' ≠ t' →
         s' < s ∨ (s' = s ∧ t' < t) → (get2 gains s' t' < g)%Z).
Proof.
  pose proof (find_best_selected gains) as [Hbound Hsel].
  destruct (find_best gains) as [[g s] t]. simpl in *.
  assert (Hmax : ∀ s' t', s' < V → t' < V → s' ≠ t' → (get2 gains s' t' ≤ g)%Z).
  { intros s' t' Hs' Ht' Hne. apply Hbound; try done. lia. }
  split; [done|]. split; [destruct Hsel as [[= -> _ _]|(? & _)]; lia|].
  split; [split|].
  - intros Hall. destruct Hsel as [?|(Hpos & Hne & Hs & Ht & Hg & _)]; [done|].
    specialize (Hall s t Hs Ht Hne). lia.
  - intros [= -> _ _]. done.
  - intros Hpos. destruct Hsel as [[= -> _ _]|(_ & Hne & Hs & Ht & Hg & Hfirst)]; [lia|].
    done.
Qed.

End PairLists.

(** ** What the reinsertion keeps (lines 35-143) *)

Section ReinsertionKeeps.
Context `{Collaborators}.
Hypothesis double_order : double_lt_strict.

(** The load of a vehicle: the sum of the amounts of the jobs of its route. *)
Definition load (s : solution) (v : index) : amount :=
  amount_sum (job_amount <$> tw_sol s !!! v).

(** The jobs of a solution: those of the routes, then the unassigned ones. *)
Definition jobs_of (s : solution) : list index :=
  concat (tw_sol s) ++ unassigned (sol_state s).

Lemma add_job_route (b : choice) (s : solution) (v : index) :
  tw_sol (add_job b s) !!! v
  = if decide (best_route b = v ∧ best_route b < length (tw_sol s))
    then insert_at (best_rank b) (best_job b) (tw_sol s !!! best_route b)
    else tw_sol s !!! v.
Proof. simpl. by rewrite list_lookup_total_insert. Qed.

Lemma elem_of_insert_at {A} (r : nat) (x y : A) (l : list A) :
  y ∈ insert_at r x l ↔ y = x ∨ y ∈ l.
Proof.
  unfold insert_at. rewrite elem_of_app, elem_of_cons.
  rewrite <- (take_drop r l) at 3. rewrite elem_of_app. tauto.
Qed.

(** What a pass that adds a job has checked (lines 52-59). *)
Lemma job_added_compatible (routes : list index) (c : double) (s : solution) :
  job_added (best_addition routes c s) = true →
  let b := best_addition routes c s in
  best_job b ∈ unassigned (sol_state s) ∧ best_route b ∈ routes
  ∧ compatible s (best_job b) (best_route b) (best_rank b).
Proof.
  intros Hadded b. unfold b.
  destruct (job_added_choice double_order _ _ _ Hadded)
    as (j & i & Hj & [Hi Hfin] & ->).
  simpl. split; [done|]. split; [by apply list_elem_of_lookup_total_2|].
  rewrite entry_lookup in * by done.
  destruct (best_for_route_spec s j (routes !!! i)) as [[[? _]|(_ & Hc & _)] _];
    [done|]. exact Hc.
Qed.

(** X4.  Running the reinsertion again on its result, with the same list
    of routes and the same regret coefficient, changes nothing (the order
    [<] on [double] being a strict order, as in all of this section). *)
Theorem try_job_additions_idempotent (routes : list index) (c : double) (s : solution) :
  try_job_additions routes c (try_job_additions routes c s)
  = try_job_additions routes c s.
Proof.
  rewrite (try_job_additions_unfold double_order c routes
             (try_job_additions routes c s)).
  by rewrite try_job_additions_fixpoint.
Qed.

(** X5.  A job that the reinsertion has put on a route was unassigned, is
    no longer unassigned, and is a job that the vehicle of the route may
    serve; the route is one of the list; no job is ever taken off a route or
    made unassigned. *)
Theorem try_job_additions_adds_unassigned_jobs (routes : list index) (c : double)
    (s : solution) :
  let s' := try_job_additions routes c s in
  (∀ v j, j ∈ tw_sol s !!! v → j ∈ tw_sol s' !!! v)
  ∧ (∀ j, j ∈ unassigned (sol_state s') → j ∈ unassigned (sol_state s))
  ∧ ∀ v j, j ∈ tw_sol s' !!! v → j ∉ tw_sol s !!! v →
      v ∈ routes ∧ vehicle_ok_with_job v j = true
      ∧ j ∈ unassigned (sol_state s) ∧ j ∉ unassigned (sol_state s').
Proof.
  apply (try_job_additions_preserves
    (λ s',
       (∀ v j, j ∈ tw_sol s !!! v → j ∈ tw_sol s' !!! v)
       ∧ (∀ j, j ∈ unassigned (sol_state s') → j ∈ unassigned (sol_state s))
       ∧ ∀ v j, j ∈ tw_sol s' !!! v → j ∉ tw_sol s !!! v →
           v ∈ routes ∧ vehicle_ok_with_job v j = true
           ∧ j ∈ unassigned (sol_state s) ∧ j ∉ unassigned (sol_state s'))).
  { split; [done|]. split; [done|]. intros v j Hin Hout. done. }
  intros s1 (Hkeep & Hsub & Hnew) Hadded.
  destruct (job_added_compatible routes c s1 Hadded) as (Hj & Hr & Hok & _).
  set (b := best_addition routes c s1) in *.
  split; [|split].
  - intros v j Hin. rewrite add_job_route. case_decide as Hv; [|by apply Hkeep].
    destruct Hv as [<- _]. apply elem_of_insert_at. right. by apply Hkeep.
  - intros j. rewrite add_job_unassigned, list_elem_of_filter.
    intros [_ Hin]. by apply Hsub.
  - intros v j. rewrite add_job_route, add_job_unassigned, list_elem_of_filter.
    case_decide as Hv.
    + destruct Hv as [<- _]. rewrite elem_of_insert_at. intros [->|Hin] Hout.
      * split; [done|]. split; [done|]. split; [by apply Hsub|]. tauto.
      * destruct (Hnew _ _ Hin Hout) as (? & ? & ? & ?). tauto.
    + intros Hin Hout. destruct (Hnew _ _ Hin Hout) as (? & ? & ? & ?). tauto.
Qed.

Lemma Permutation_filter_ne (j : index) (l : list index) :
  NoDup l → j ∈ l → l ≡ₚ j :: filter (λ j', j' ≠ j) l.
Proof.
  induction 1 as [|a l Ha Hl IH]; intros Hin; [by apply elem_of_nil in Hin|].
  rewrite filter_cons. destruct (decide (a ≠ j)) as [Hne|Heq].
  - apply elem_of_cons in Hin as [->|Hin]; [done|].
    rewrite (IH Hin) at 1. apply perm_swap.
  - assert (a = j) as -> by (destruct (decide (a = j)); [done | tauto]).
    constructor. clear IH Hin Heq.
    induction l as [|a l IH]; [done|].
    apply NoDup_cons in Hl as [Hal Hl]. rewrite not_elem_of_cons in Ha.
    rewrite filter_cons, decide_True by (intros ->; tauto).
    constructor. apply IH; tauto.
Qed.

Lemma concat_insert (l : list route) (v : nat) (r : route) :
  v < length l → concat (<[v := r]> l) ≡ₚ r ++ concat (delete v l).
Proof.
  revert v. induction l as [|a l IH]; intros [|v] Hv; simpl in *; try lia; [done|].
  rewrite IH by lia. rewrite !app_assoc. apply Permutation_app_tail, Permutation_app_comm.
Qed.

Lemma concat_lookup_delete (l : list route) (v : nat) :
  v < length l → concat l ≡ₚ (l !!! v) ++ concat (delete v l).
Proof.
  intros Hv. rewrite <- (list_insert_id l v (l !!! v)) at 1
    by by apply list_lookup_lookup_total_lt.
  by apply concat_insert.
Qed.

(** X6.  The reinsertion moves jobs from the unassigned jobs to the routes
    and does nothing else to the jobs: as a multiset, the jobs of the routes
    together with the unassigned ones stay the same, no job becomes
    unassigned twice, and the number of routes is kept.  (The routes of the
    list are routes of the solution.) *)
Theorem try_job_additions_conserves_jobs (routes : list index) (c : double)
    (s : solution) :
  (∀ v, v ∈ routes → v < length (tw_sol s)) →
  NoDup (unassigned (sol_state s)) →
  let s' := try_job_additions routes c s in
  jobs_of s' ≡ₚ jobs_of s
  ∧ NoDup (unassigned (sol_state s'))
  ∧ length (tw_sol s') = length (tw_sol s).
Proof.
  intros Hroutes Hnd.
  apply (try_job_additions_preserves
    (λ s', jobs_of s' ≡ₚ jobs_of s
           ∧ NoDup (unassigned (sol_state s'))
           ∧ length (tw_sol s') = length (tw_sol s))); [done|].
  intros s1 (Hperm & Hnd1 & Hlen) Hadded.
  destruct (job_added_compatible routes c s1 Hadded) as (Hj & Hr & _).
  set (b := best_addition routes c s1) in *.
  assert (Hv : best_route b < length (tw_sol s1)).
  { rewrite Hlen. by apply Hroutes. }
  split; [|split].
  - rewrite <- Hperm. unfold jobs_of. rewrite add_job_unassigned.
    simpl tw_sol.
    etrans; [apply Permutation_app_tail, concat_insert, Hv|].
    etrans; [|symmetry; apply Permutation_app;
               [apply (concat_lookup_delete _ (best_route b) Hv)
               |apply (Permutation_filter_ne (best_job b)); done]].
    set (old := tw_sol s1 !!! best_route b).
    unfold insert_at. rewrite <- (take_drop (best_rank b) old) at 3.
    rewrite <- !app_assoc. simpl.
    rewrite <- !Permutation_middle. done.
  - rewrite add_job_unassigned. by apply NoDup_filter.
  - simpl. by rewrite length_insert.
Qed.

Section Capacity.
Hypothesis amounts_sized : ∀ j, length (job_amount j) = amount_size.

Lemma load_insert_at (rank : nat) (j : index) (r : route) :
  amount_sum (job_amount <$> insert_at rank j r)
  = amount_add (amount_sum (job_amount <$> r)) (job_amount j).
Proof.
  assert (Hall : ∀ l : route, Forall sized (job_amount <$> l)).
  { intros l. apply Forall_fmap, Forall_forall. intros; apply amounts_sized. }
  assert (Hsum : ∀ l : route, sized (amount_sum (job_amount <$> l))).
  { intros l. apply sized_fold; [apply sized_zero | apply Hall]. }
  unfold insert_at. rewrite <- (take_drop rank r) at 3.
  rewrite !fmap_app, fmap_cons. unfold amount_sum at 1 2.
  rewrite !fold_left_app. simpl.
  fold (amount_sum (job_amount <$> take rank r)).
  rewrite !fold_amount_add;
    [|apply Hsum | apply Hall | apply sized_add; [apply Hsum | apply amounts_sized]
     | apply Hall].
  apply amount_add_swap.
Qed.

(** X7.  The reinsertion never overloads a vehicle.  On a solution whose
    amount caches are coherent, a vehicle whose load was within its
    capacity still has a load within its capacity afterwards, and a vehicle
    that received a job has one whatever its load was before; the caches
    are still coherent. *)
Theorem try_job_additions_respects_capacity (routes : list index) (c : double)
    (s : solution) :
  amounts_invariant s →
  let s' := try_job_additions routes c s in
  amounts_invariant s'
  ∧ ∀ v, v < V →
      amount_le (load s v) (capacity v) = true ∨ tw_sol s' !!! v ≠ tw_sol s !!! v →
      amount_le (load s' v) (capacity v) = true.
Proof.
  intros Hinv.
  apply (try_job_additions_preserves
    (λ s', amounts_invariant s'
           ∧ ∀ v, v < V →
               amount_le (load s v) (capacity v) = true
               ∨ tw_sol s' !!! v ≠ tw_sol s !!! v →
               amount_le (load s' v) (capacity v) = true)).
  { split; [done|]. intros v Hv [?|?]; done. }
  intros s1 [Hinv1 Hcap] Hadded.
  destruct (job_added_compatible routes c s1 Hadded) as (_ & _ & _ & Hfit & Hrank & _).
  set (b := best_addition routes c s1) in *.
  split; [by apply add_job_amounts_invariant|].
  intros v Hv Hor. unfold load. rewrite add_job_route.
  case_decide as Hb.
  - destruct Hb as [<- _]. rewrite load_insert_at.
    destruct Hinv1 as (_ & _ & _ & Hcoh). destruct (Hcoh _ Hv) as [Hfwd _].
    unfold total_amount in Hfit. rewrite Hfwd, back_fwd_from_scratch in Hfit.
    exact Hfit.
  - apply Hcap; [done|]. destruct Hor as [?|Hne]; [by left|]. right.
    rewrite add_job_route in Hne. by rewrite decide_False in Hne.
Qed.

End Capacity.

End ReinsertionKeeps.

(** ** The moves within the reach of a round (lines 177-358) *)

Section Scope.
Context `{Collaborators}.

(** Validity and gain of the move [c] of kind [k] built on the routes of
    the solution [sl]. *)
Definition move_valid (k : operator_kind) (sl : solution) (c : nat * nat * nat * nat) : bool :=
  let '(s, sr, t, tr) := c in
  op_is_valid k s (tw_sol sl !!! s) sr t (tw_sol sl !!! t) tr.

Definition move_gain (k : operator_kind) (sl : solution) (c : nat * nat * nat * nat) : Z :=
  let '(s, sr, t, tr) := c in
  op_gain k s (tw_sol sl !!! s) sr t (tw_sol sl !!! t) tr.

(** The ranks at which the loop of kind [k] builds a move for the pair
    [(s, t)] on the solution [sl], when [g] is the best gain known for the
    pair: the bounds of the [for] loops, the orientation [s < t] of the
    symmetric operators, the capacity bounds of the two 2-opt* scans up to
    their break, and for Relocate and Or-opt the room left in the target
    vehicle and a node (edge) gain above [g]. *)
Definition in_scope (k : operator_kind) (sl : solution) (g : Z) (c : nat * nat * nat * nat) : Prop :=
  let '(s, sr, t, tr) := c in
  let size := λ v, length (tw_sol sl !!! v) in
  match k with
  | Exchange => s < t ∧ sr < size s ∧ tr < size t
  | CrossExchange => s < t ∧ S sr < size s ∧ S tr < size t
  | TwoOpt =>
      s < t ∧ sr < size s ∧ tr < size t
      ∧ ∀ tr', tr ≤ tr' → tr' < size t →
          two_opt_bound (initial_search sl) s sr t tr' = true
  | ReverseTwoOpt =>
      sr < size s ∧ tr < size t
      ∧ ∀ tr', tr' ≤ tr → reverse_two_opt_bound (initial_search sl) s sr t tr' = true
  | Relocate =>
      sr < size s ∧ tr ≤ size t
      ∧ amount_le (amount_add (total_amount (sol_state sl) t) amount_lower_bound)
                  (capacity t) = true
      ∧ (g < get2 (node_gains (sol_state sl)) s sr)%Z
  | OrOpt =>
      S sr < size s ∧ tr ≤ size t
      ∧ amount_le (amount_add (total_amount (sol_state sl) t) double_amount_lower_bound)
                  (capacity t) = true
      ∧ (g < get2 (edge_gains (sol_state sl)) s sr)%Z
  end.

(** No move within reach for the pair [(s, t)] is valid with a gain above
    the entry of [gains] for the pair. *)
Definition covered (sl : solution) (gains : list (list Z)) (k : operator_kind)
    (s t : index) : Prop :=
  ∀ sr tr, in_scope k sl (get2 gains s t) (s, sr, t, tr) →
    move_valid k sl (s, sr, t, tr) = true →
    (move_gain k sl (s, sr, t, tr) ≤ get2 gains s t)%Z.

(** The states of an evaluation phase: the solution and the list of pairs
    stay, the matrices stay square. *)
Definition tracks (sl : solution) (ps : list (index * index)) (u : search) : Prop :=
  sol u = sl ∧ s_t_pairs u = ps ∧ squares u.

Definition gains_le (g g' : list (list Z)) : Prop :=
  ∀ s t, s < V → t < V → (get2 g s t ≤ get2 g' s t)%Z.

Lemma gains_le_refl (g : list (list Z)) : gains_le g g.
Proof. intros s t _ _. lia. Qed.

Lemma gains_le_trans (g1 g2 g3 : list (list Z)) :
  gains_le g1 g2 → gains_le g2 g3 → gains_le g1 g3.
Proof. intros H1 H2 s t Hs Ht. specialize (H1 s t Hs Ht). specialize (H2 s t Hs Ht). lia. Qed.

Lemma in_scope_mono (k : operator_kind) (sl : solution) (g g' : Z) (c : nat * nat * nat * nat) :
  (g ≤ g')%Z → in_scope k sl g' c → in_scope k sl g c.
Proof.
  destruct c as [[[s sr] t] tr]. intros Hg.
  destruct k; simpl; try done; intros (? & ? & ? & ?); repeat split; try done; lia.
Qed.

Lemma covered_mono (sl : solution) (g g' : list (list Z)) (k : operator_kind) (s t : index) :
  s < V → t < V → gains_le g g' → covered sl g k s t → covered sl g' k s t.
Proof.
  intros Hs Ht Hle Hcov sr tr Hscope Hvalid. specialize (Hle s t Hs Ht).
  assert (move_gain k sl (s, sr, t, tr) ≤ get2 g s t)%Z; [|lia].
  apply Hcov; [|done]. by eapply in_scope_mono.
Qed.

Lemma consider_tracks (k : operator_kind) (sl : solution) (ps : list (index * index))
    (u : search) (c : nat * nat * nat * nat) :
  tracks sl ps u →
  tracks sl ps (consider k u c)
  ∧ gains_le (best_gains u) (best_gains (consider k u c)).
Proof.
  intros (Hsol & Hps & Hsq).
  destruct (consider_sol k u c) as [Hsol' Hps'].
  split; [split; [congruence | split; [congruence | by apply consider_squares]]|].
  destruct c as [[[s sr] t] tr]. unfold consider.
  destruct (op_is_valid _ _ _ _ _ _ _); simpl; [|apply gains_le_refl].
  destruct (_ <? _)%Z eqn:Hlt; [|apply gains_le_refl]. apply Z.ltb_lt in Hlt.
  intros s' t' Hs' Ht'. simpl. destruct Hsq as [Hg _].
  destruct (decide (s < V ∧ t < V)) as [[Hs Ht]|Hout].
  - rewrite (get2_set2 V) by done. case_decide as Heq; [|lia].
    destruct Heq as [<- <-]. lia.
  - rewrite (set2_out_of_range V) by done. lia.
Qed.

Lemma consider_covers (k : operator_kind) (u : search) (s sr t tr : nat) :
  squares u → s < V → t < V →
  move_valid k (sol u) (s, sr, t, tr) = true →
  (move_gain k (sol u) (s, sr, t, tr)
   ≤ get2 (best_gains (consider k u (s, sr, t, tr))) s t)%Z.
Proof.
  intros [Hg _] Hs Ht. unfold move_valid, move_gain, consider. intros ->. simpl.
  destruct (_ <? _)%Z eqn:Hlt; simpl.
  - rewrite (get2_set2 V) by done. rewrite decide_True by done. lia.
  - apply Z.ltb_ge in Hlt. lia.
Qed.

(** A loop over [l] whose body keeps the solution and only raises gains:
    what each iteration establishes about the gains still holds at the end,
    provided later raises do not spoil it. *)
Lemma fold_left_tracks {B} (sl : solution) (ps : list (index * index))
    (f : search → B → search) (Q : B → list (list Z) → Prop) (l : list B) (u : search) :
  tracks sl ps u →
  (∀ u b, b ∈ l → tracks sl ps u →
     tracks sl ps (f u b) ∧ gains_le (best_gains u) (best_gains (f u b))
     ∧ Q b (best_gains (f u b))) →
  (∀ b g g', b ∈ l → gains_le g g' → Q b g → Q b g') →
  tracks sl ps (fold_left f l u)
  ∧ gains_le (best_gains u) (best_gains (fold_left f l u))
  ∧ ∀ b, b ∈ l → Q b (best_gains (fold_left f l u)).
Proof.
  revert u. induction l as [|b l IH]; intros u Hu Hstep Hmono; simpl.
  - split; [done|]. split; [apply gains_le_refl|]. intros b Hb. by apply elem_of_nil in Hb.
  - destruct (Hstep u b) as (Hu' & Hle & Hq); [by left | done|].
    destruct (IH (f u b)) as (Hu'' & Hle' & Hq'); [done | |  |].
    { intros u1 b1 Hb1. apply Hstep. by right. }
    { intros b1 g g' Hb1. apply Hmono. by right. }
    split; [done|]. split; [by eapply gains_le_trans|].
    intros b' Hb'. apply elem_of_cons in Hb' as [->|Hb']; [|by apply Hq'].
    eapply Hmono; [by left | exact Hle' | done].
Qed.

(** The same for what every iteration preserves. *)
Lemma fold_left_preserves_elem {A B} (P : A → Prop) (f : A → B → A) (l : list B) (a : A) :
  (∀ a b, b ∈ l → P a → P (f a b)) → P a → P (fold_left f l a).
Proof.
  revert a. induction l as [|b l IH]; intros a Hf Ha; [done|]. simpl.
  apply IH; [|apply Hf; [by left | done]]. intros a' b' Hb'. apply Hf. by right.
Qed.

(** *** The four loops over lists of moves *)

(** The moves of the loops of Exchange, CROSS-exchange, 2-opt* and Reverse
    2-opt*, which do not depend on the gains found so far. *)
Definition candidates_of (k : operator_kind) (x : search) : list (nat * nat * nat * nat) :=
  match k with
  | Exchange => exchange_candidates x
  | CrossExchange => cross_exchange_candidates x
  | TwoOpt => two_opt_candidates x
  | ReverseTwoOpt => reverse_two_opt_candidates x
  | Relocate | OrOpt => []
  end.

Definition scans_a_list (k : operator_kind) : Prop := k ≠ Relocate ∧ k ≠ OrOpt.

Lemma elem_of_candidates_of (k : operator_kind) (x : search) (g : Z) (s sr t tr : nat) :
  scans_a_list k →
  (s, sr, t, tr) ∈ candidates_of k x
  ↔ (s, t) ∈ s_t_pairs x ∧ in_scope k (sol x) g (s, sr, t, tr).
Proof.
  intros [Hk1 Hk2]. destruct k; try done; simpl.
  - unfold exchange_candidates. rewrite list_elem_of_bind. split.
    + intros ([s' t'] & Hc & Hst).
      destruct ((t' <=? s') || (size x s' =? 0) || (size x t' =? 0)) eqn:Hguard;
        [by apply elem_of_nil in Hc|].
      apply orb_false_iff in Hguard as [Hguard _].
      apply orb_false_iff in Hguard as [Hguard _]. apply Nat.leb_gt in Hguard.
      apply list_elem_of_bind in Hc as (sr' & Hc & Hsr).
      apply list_elem_of_bind in Hc as (tr' & Hc & Htr).
      apply list_elem_of_singleton in Hc as [= -> -> -> ->].
      apply elem_of_seq in Hsr, Htr. unfold size in *. repeat split; [done | lia ..].
    + intros (Hst & Hlt & Hsr & Htr). exists (s, t). split; [|done].
      replace ((t <=? s) || (size x s =? 0) || (size x t =? 0)) with false.
      2:{ symmetry. rewrite !orb_false_iff. unfold size.
          repeat split; [apply Nat.leb_gt | apply Nat.eqb_neq ..]; lia. }
      apply list_elem_of_bind. exists sr. split; [|apply elem_of_seq; unfold size; lia].
      apply list_elem_of_bind. exists tr. split; [|apply elem_of_seq; unfold size; lia].
      by apply list_elem_of_singleton.
  - unfold cross_exchange_candidates. rewrite list_elem_of_bind. split.
    + intros ([s' t'] & Hc & Hst).
      destruct ((t' <=? s') || (size x s' <? 2) || (size x t' <? 2)) eqn:Hguard;
        [by apply elem_of_nil in Hc|].
      apply orb_false_iff in Hguard as [Hguard _].
      apply orb_false_iff in Hguard as [Hguard _]. apply Nat.leb_gt in Hguard.
      apply list_elem_of_bind in Hc as (sr' & Hc & Hsr).
      apply list_elem_of_bind in Hc as (tr' & Hc & Htr).
      apply list_elem_of_singleton in Hc as [= -> -> -> ->].
      apply elem_of_seq in Hsr, Htr. unfold size in *. repeat split; [done | lia ..].
    + intros (Hst & Hlt & Hsr & Htr). exists (s, t). split; [|done].
      replace ((t <=? s) || (size x s <? 2) || (size x t <? 2)) with false.
      2:{ symmetry. rewrite !orb_false_iff. unfold size.
          repeat split; [apply Nat.leb_gt | apply Nat.ltb_ge ..]; lia. }
      apply list_elem_of_bind. exists sr. split; [|apply elem_of_seq; unfold size; lia].
      apply list_elem_of_bind. exists tr. split; [|apply elem_of_seq; unfold size; lia].
      by apply list_elem_of_singleton.
  - unfold two_opt_candidates. rewrite list_elem_of_bind. split.
    + intros ([s' t'] & Hc & Hst).
      destruct (t' <=? s') eqn:Hguard; [by apply elem_of_nil in Hc|].
      apply Nat.leb_gt in Hguard.
      apply list_elem_of_bind in Hc as (sr' & Hc & Hsr).
      apply list_elem_of_bind in Hc as (tr' & Hc & Htr).
      apply list_elem_of_singleton in Hc as [= -> -> -> ->].
      apply elem_of_seq in Hsr. apply elem_of_two_opt_t_ranks in Htr as [Htr Hall].
      unfold size in *. repeat split; [done | lia .. | done].
    + intros (Hst & Hlt & Hsr & Htr & Hall). exists (s, t). split; [|done].
      replace (t <=? s) with false by (symmetry; apply Nat.leb_gt; lia).
      apply list_elem_of_bind. exists sr. split; [|apply elem_of_seq; unfold size; lia].
      apply list_elem_of_bind. exists tr.
      split; [by apply list_elem_of_singleton|].
      by apply elem_of_two_opt_t_ranks.
  - unfold reverse_two_opt_candidates. rewrite list_elem_of_bind. split.
    + intros ([s' t'] & Hc & Hst).
      apply list_elem_of_bind in Hc as (sr' & Hc & Hsr).
      apply list_elem_of_bind in Hc as (tr' & Hc & Htr).
      apply list_elem_of_singleton in Hc as [= -> -> -> ->].
      apply elem_of_seq in Hsr.
      apply elem_of_reverse_two_opt_t_ranks in Htr as [Htr Hall].
      unfold size in *. repeat split; [done | lia .. | done].
    + intros (Hst & Hsr & Htr & Hall). exists (s, t). split; [|done].
      apply list_elem_of_bind. exists sr. split; [|apply elem_of_seq; unfold size; lia].
      apply list_elem_of_bind. exists tr.
      split; [by apply list_elem_of_singleton|].
      by apply elem_of_reverse_two_opt_t_ranks.
Qed.

Definition pairs_in_range (ps : list (index * index)) : Prop :=
  ∀ s t, (s, t) ∈ ps → s ≠ t ∧ s < V ∧ t < V.

(** After the loop of kind [k], every pair of the list is covered for
    the moves of kind [k]. *)
Lemma list_loop_covers (k : operator_kind) (u : search) :
  scans_a_list k → squares u → pairs_in_range (s_t_pairs u) →
  let u' := fold_left (consider k) (candidates_of k u) u in
  tracks (sol u) (s_t_pairs u) u'
  ∧ gains_le (best_gains u) (best_gains u')
  ∧ ∀ s t, (s, t) ∈ s_t_pairs u → covered (sol u) (best_gains u') k s t.
Proof.
  intros Hk Hsq Hps u'.
  destruct (fold_left_tracks (sol u) (s_t_pairs u) (consider k)
              (λ c g, move_valid k (sol u) c = true
                      → (move_gain k (sol u) c ≤ get2 g c.1.1.1 c.1.2)%Z)
              (candidates_of k u) u) as (Htr & Hle & Hq).
  - done.
  - intros w [[[s sr] t] tr] Hc Hw.
    destruct (consider_tracks k _ _ w (s, sr, t, tr) Hw) as [Hw' Hle].
    split; [done|]. split; [done|]. simpl. intros Hvalid.
    apply (elem_of_candidates_of k u 0%Z) in Hc as [Hst _]; [|done].
    destruct (Hps s t Hst) as (_ & Hs & Ht).
    destruct Hw as (Hsol & _ & Hsqw). rewrite <- Hsol in *.
    by apply consider_covers.
  - intros [[[s sr] t] tr] g g' Hc Hle Hq Hvalid. simpl in *.
    apply (elem_of_candidates_of k u 0%Z) in Hc as [Hst _]; [|done].
    destruct (Hps s t Hst) as (_ & Hs & Ht).
    specialize (Hle s t Hs Ht). specialize (Hq Hvalid). lia.
  - split; [done|]. split; [done|]. intros s t Hst sr tr Hscope Hvalid.
    apply (Hq (s, sr, t, tr)); [|done].
    apply (elem_of_candidates_of k u (get2 (best_gains u') s t)); done.
Qed.

(** *** The loops of Relocate and Or-opt *)

(** The common shape of the two loops (lines 292-324 and 327-358): a test
    on the size of the source route and on the room left in the target
    vehicle, then a scan of the source ranks that skips a rank whose node
    (edge) gain does not exceed the best gain known for the pair. *)
Definition scan_loop (k : operator_kind) (too_small : nat → bool) (lower_bound : amount)
    (gains_of : solution_state → list (list Z)) (s_ranks : nat → list nat)
    (x : search) : search :=
  fold_left
    (λ x '(s, t),
       if too_small (size x s)
          || negb (amount_le (amount_add (total_amount (sol_state (sol x)) t)
                                         lower_bound)
                             (capacity t))
       then x
       else
         fold_left
           (λ x sr,
              if (get2 (gains_of (sol_state (sol x))) s sr
                  <=? get2 (best_gains x) s t)%Z
              then x
              else fold_left (λ x tr, consider k x (s, sr, t, tr))
                             (seq 0 (S (size x t))) x)
           (s_ranks (size x s)) x)
    (s_t_pairs x) x.

Lemma relocate_loop_scan (x : search) :
  relocate_loop x
  = scan_loop Relocate (λ n, n =? 0) amount_lower_bound node_gains (λ n, seq 0 n) x.
Proof. reflexivity. Qed.

Lemma or_opt_loop_scan (x : search) :
  or_opt_loop x
  = scan_loop OrOpt (λ n, n <? 2) double_amount_lower_bound edge_gains
      (λ n, seq 0 (n - 1)) x.
Proof. reflexivity. Qed.

Definition scan_scope (too_small : nat → bool) (lower_bound : amount)
    (gains_of : solution_state → list (list Z)) (s_ranks : nat → list nat)
    (sl : solution) (g : Z) (c : nat * nat * nat * nat) : Prop :=
  let '(s, sr, t, tr) := c in
  too_small (length (tw_sol sl !!! s)) = false
  ∧ amount_le (amount_add (total_amount (sol_state sl) t) lower_bound) (capacity t) = true
  ∧ sr ∈ s_ranks (length (tw_sol sl !!! s))
  ∧ tr ≤ length (tw_sol sl !!! t)
  ∧ (g < get2 (gains_of (sol_state sl)) s sr)%Z.

Section ScanLoop.
Variable k : operator_kind.
Variable too_small : nat → bool.
Variable lower_bound : amount.
Variable gains_of : solution_state → list (list Z).
Variable s_ranks : nat → list nat.

Let scope := scan_scope too_small lower_bound gains_of s_ranks.
Let loop := scan_loop k too_small lower_bound gains_of s_ranks.

Lemma scan_loop_covers (u : search) :
  squares u → pairs_in_range (s_t_pairs u) →
  tracks (sol u) (s_t_pairs u) (loop u)
  ∧ gains_le (best_gains u) (best_gains (loop u))
  ∧ ∀ s t, (s, t) ∈ s_t_pairs u → ∀ sr tr,
      scope (sol u) (get2 (best_gains (loop u)) s t) (s, sr, t, tr) →
      move_valid k (sol u) (s, sr, t, tr) = true →
      (move_gain k (sol u) (s, sr, t, tr) ≤ get2 (best_gains (loop u)) s t)%Z.
Proof.
  intros Hsq Hps. set (sl := sol u). set (ps := s_t_pairs u).
  assert (Hu : tracks sl ps u) by done.
  unfold loop, scan_loop. fold ps.
  destruct (fold_left_tracks sl ps
    (λ x '(s, t),
       if too_small (size x s)
          || negb (amount_le (amount_add (total_amount (sol_state (sol x)) t)
                                         lower_bound)
                             (capacity t))
       then x
       else
         fold_left
           (λ x sr,
              if (get2 (gains_of (sol_state (sol x))) s sr
                  <=? get2 (best_gains x) s t)%Z
              then x
              else fold_left (λ x tr, consider k x (s, sr, t, tr))
                             (seq 0 (S (size x t))) x)
           (s_ranks (size x s)) x)
    (λ p g, ∀ sr tr, scope sl (get2 g p.1 p.2) (p.1, sr, p.2, tr) →
       move_valid k sl (p.1, sr, p.2, tr) = true →
       (move_gain k sl (p.1, sr, p.2, tr) ≤ get2 g p.1 p.2)%Z)
    ps u Hu) as (Htr & Hle & Hq).
  - intros w [s t] Hst Hw. pose proof Hw as (Hsol & Hpsw & Hsqw).
    destruct (Hps s t Hst) as (_ & Hs & Ht). unfold size. rewrite Hsol. simpl.
    destruct (too_small _ || negb _) eqn:Hguard.
    { split; [done|]. split; [apply gains_le_refl|].
      intros sr tr (Hsmall & Hroom & _) _. rewrite Hsmall, Hroom in Hguard. done. }
    destruct (fold_left_tracks sl ps
      (λ x sr,
         if (get2 (gains_of (sol_state (sol x))) s sr <=? get2 (best_gains x) s t)%Z
         then x
         else fold_left (λ x tr, consider k x (s, sr, t, tr))
                        (seq 0 (S (length (tw_sol (sol x) !!! t)))) x)
      (λ sr g, (get2 g s t < get2 (gains_of (sol_state sl)) s sr)%Z →
         ∀ tr, tr ≤ length (tw_sol sl !!! t) →
           move_valid k sl (s, sr, t, tr) = true →
           (move_gain k sl (s, sr, t, tr) ≤ get2 g s t)%Z)
      (s_ranks (length (tw_sol sl !!! s))) w Hw) as (Htr' & Hle' & Hq').
    + intros w' sr Hsr Hw'. pose proof Hw' as (Hsol' & _ & Hsqw'). rewrite Hsol'.
      destruct (_ <=? _)%Z eqn:Hskip.
      { apply Z.leb_le in Hskip. split; [done|]. split; [apply gains_le_refl|].
        intros Hlt. lia. }
      destruct (fold_left_tracks sl ps
        (λ x tr, consider k x (s, sr, t, tr))
        (λ tr g, move_valid k sl (s, sr, t, tr) = true →
                 (move_gain k sl (s, sr, t, tr) ≤ get2 g s t)%Z)
        (seq 0 (S (length (tw_sol sl !!! t)))) w' Hw') as (Htr'' & Hle'' & Hq'').
      * intros w'' tr Htr Hw''.
        destruct (consider_tracks k _ _ w'' (s, sr, t, tr) Hw'') as [Hw3 Hle3].
        split; [done|]. split; [done|]. intros Hvalid.
        destruct Hw'' as (Hsol'' & _ & Hsq''). rewrite <- Hsol'' in *.
        by apply consider_covers.
      * intros tr g g' _ Hgg Hq Hvalid. specialize (Hgg s t Hs Ht).
        specialize (Hq Hvalid). lia.
      * split; [done|]. split; [done|]. intros _ tr Htr. apply Hq''.
        apply elem_of_seq. lia.
    + intros sr g g' _ Hgg Hq Hlt tr Htr Hvalid. specialize (Hgg s t Hs Ht).
      assert (move_gain k sl (s, sr, t, tr) ≤ get2 g s t)%Z; [|lia].
      apply Hq; [lia | done | done].
    + split; [done|]. split; [done|].
      intros sr tr (_ & _ & Hsr & Htr & Hlt) Hvalid. simpl in *.
      by apply (Hq' sr Hsr Hlt tr).
  - intros [s t] g g' Hst Hgg Hq sr tr Hscope Hvalid. simpl in *.
    destruct (Hps s t Hst) as (_ & Hs & Ht). specialize (Hgg s t Hs Ht).
    eapply Z.le_trans; [|exact Hgg].
    apply Hq; [|done]. destruct Hscope as (? & ? & ? & ? & ?).
    repeat split; try done. lia.
  - split; [done|]. split; [done|]. intros s t Hst. apply (Hq (s, t) Hst).
Qed.

(** Conversely, the loop builds moves within its scope only, the scope
    being taken with gains [g0] that the gains of the state exceed. *)
Lemma scan_loop_scoped (P : search → Prop) (sl : solution) (ps : list (index * index))
    (g0 : list (list Z)) (u : search) :
  pairs_in_range ps →
  (∀ w s sr t tr, tracks sl ps w → P w → (s, t) ∈ ps →
     scope sl (get2 g0 s t) (s, sr, t, tr) →
     P (consider k w (s, sr, t, tr))) →
  tracks sl ps u ∧ gains_le g0 (best_gains u) ∧ P u →
  tracks sl ps (loop u) ∧ gains_le g0 (best_gains (loop u)) ∧ P (loop u).
Proof.
  intros Hps Hstep HP. pose proof HP as ((_ & Hpsu & _) & _).
  unfold loop, scan_loop. rewrite Hpsu.
  apply (fold_left_preserves_elem
           (λ w, tracks sl ps w ∧ gains_le g0 (best_gains w) ∧ P w)); [|done].
  intros w [s t] Hst (Hw & Hgw & HPw). pose proof Hw as (Hsol & _ & _).
  destruct (Hps s t Hst) as (_ & Hs & Ht).
  unfold size. rewrite Hsol.
  destruct (too_small _ || negb _) eqn:Hguard; [done|].
  apply orb_false_iff in Hguard as [Hsmall Hroom].
  apply negb_false_iff in Hroom.
  apply (fold_left_preserves_elem
           (λ w, tracks sl ps w ∧ gains_le g0 (best_gains w) ∧ P w)); [|done].
  intros w' sr Hsr (Hw' & Hgw' & HPw'). pose proof Hw' as (Hsol' & _ & _).
  rewrite Hsol'.
  destruct (_ <=? _)%Z eqn:Hskip; [done|]. apply Z.leb_gt in Hskip.
  pose proof (Hgw' s t Hs Ht) as Hg0.
  apply (fold_left_preserves_elem
           (λ w, tracks sl ps w ∧ gains_le g0 (best_gains w) ∧ P w)); [|done].
  intros w'' tr Htr (Hw'' & Hgw'' & HPw''). apply elem_of_seq in Htr.
  destruct (consider_tracks k _ _ w'' (s, sr, t, tr) Hw'') as [Hw3 Hle3].
  split; [done|]. split; [by eapply gains_le_trans|].
  apply Hstep; try done. repeat split; try done; lia.
Qed.

End ScanLoop.

Lemma scan_scope_relocate (sl : solution) (g : Z) (c : nat * nat * nat * nat) :
  scan_scope (λ n, n =? 0) amount_lower_bound node_gains (λ n, seq 0 n) sl g c
  ↔ in_scope Relocate sl g c.
Proof.
  destruct c as [[[s sr] t] tr]. simpl. rewrite elem_of_seq, Nat.eqb_neq.
  split; intros ?; destruct_and!; repeat split; try done; lia.
Qed.

Lemma scan_scope_or_opt (sl : solution) (g : Z) (c : nat * nat * nat * nat) :
  scan_scope (λ n, n <? 2) double_amount_lower_bound edge_gains (λ n, seq 0 (n - 1)) sl g c
  ↔ in_scope OrOpt sl g c.
Proof.
  destruct c as [[[s sr] t] tr]. simpl. rewrite elem_of_seq, Nat.ltb_ge.
  split; intros ?; destruct_and!; repeat split; try done; lia.
Qed.

Lemma list_loop_scoped (P : search → Prop) (k : operator_kind) (sl : solution)
    (ps : list (index * index)) (g0 : list (list Z)) (u : search) :
  scans_a_list k →
  (∀ w s sr t tr, tracks sl ps w → P w → (s, t) ∈ ps →
     in_scope k sl (get2 g0 s t) (s, sr, t, tr) →
     P (consider k w (s, sr, t, tr))) →
  tracks sl ps u ∧ gains_le g0 (best_gains u) ∧ P u →
  let u' := fold_left (consider k) (candidates_of k u) u in
  tracks sl ps u' ∧ gains_le g0 (best_gains u') ∧ P u'.
Proof.
  intros Hk Hstep HP. pose proof HP as ((Hsol & Hpsu & _) & _).
  apply (fold_left_preserves_elem
           (λ w, tracks sl ps w ∧ gains_le g0 (best_gains w) ∧ P w)); [|done].
  intros w [[[s sr] t] tr] Hc (Hw & Hgw & HPw).
  apply (elem_of_candidates_of k u (get2 g0 s t)) in Hc as [Hst Hscope]; [|done].
  rewrite Hsol in Hscope. rewrite Hpsu in Hst.
  destruct (consider_tracks k _ _ w (s, sr, t, tr) Hw) as [Hw' Hle].
  split; [done|]. split; [by eapply gains_le_trans|]. by apply Hstep.
Qed.

Lemma evaluate_loops (x : search) :
  evaluate x
  = let x := fold_left (consider Exchange) (candidates_of Exchange x) x in
    let x := fold_left (consider CrossExchange) (candidates_of CrossExchange x) x in
    let x := fold_left (consider TwoOpt) (candidates_of TwoOpt x) x in
    let x := fold_left (consider ReverseTwoOpt) (candidates_of ReverseTwoOpt x) x in
    let x := scan_loop Relocate (λ n, n =? 0) amount_lower_bound node_gains
               (λ n, seq 0 n) x in
    scan_loop OrOpt (λ n, n <? 2) double_amount_lower_bound edge_gains
      (λ n, seq 0 (n - 1)) x.
Proof. reflexivity. Qed.

(** The evaluation phase builds moves within the scope of its loops only
    (taken with the gains at its start). *)
Lemma evaluate_scoped (P : search → Prop) (x : search) :
  squares x → pairs_in_range (s_t_pairs x) →
  (∀ k w s sr t tr, tracks (sol x) (s_t_pairs x) w → P w → (s, t) ∈ s_t_pairs x →
     in_scope k (sol x) (get2 (best_gains x) s t) (s, sr, t, tr) →
     P (consider k w (s, sr, t, tr))) →
  P x → P (evaluate x).
Proof.
  intros Hsq Hps Hstep HP. rewrite evaluate_loops. cbv zeta.
  assert (H0 : tracks (sol x) (s_t_pairs x) x
               ∧ gains_le (best_gains x) (best_gains x) ∧ P x).
  { split; [done|]. split; [apply gains_le_refl | done]. }
  apply (list_loop_scoped P Exchange) in H0; [|by split | by apply Hstep].
  apply (list_loop_scoped P CrossExchange) in H0; [|by split | by apply Hstep].
  apply (list_loop_scoped P TwoOpt) in H0; [|by split | by apply Hstep].
  apply (list_loop_scoped P ReverseTwoOpt) in H0; [|by split | by apply Hstep].
  cbv zeta in H0.
  apply (scan_loop_scoped Relocate (λ n, n =? 0) amount_lower_bound node_gains
           (λ n, seq 0 n) P) in H0; [|done|].
  2:{ intros w s sr t tr Hw HPw Hst Hscope. apply Hstep; try done.
      by apply scan_scope_relocate. }
  apply (scan_loop_scoped OrOpt (λ n, n <? 2) double_amount_lower_bound edge_gains
           (λ n, seq 0 (n - 1)) P) in H0; [|done|].
  2:{ intros w s sr t tr Hw HPw Hst Hscope. apply Hstep; try done.
      by apply scan_scope_or_opt. }
  apply H0.
Qed.

(** After the evaluation phase every pair of the list is covered, for the
    six kinds of moves. *)
Lemma evaluate_covers (x : search) :
  squares x → pairs_in_range (s_t_pairs x) →
  tracks (sol x) (s_t_pairs x) (evaluate x)
  ∧ gains_le (best_gains x) (best_gains (evaluate x))
  ∧ ∀ k s t, (s, t) ∈ s_t_pairs x → covered (sol x) (best_gains (evaluate x)) k s t.
Proof.
  intros Hsq Hps. rewrite evaluate_loops.
  set (sl := sol x). set (ps := s_t_pairs x).
  set (u1 := fold_left (consider Exchange) (candidates_of Exchange x) x).
  set (u2 := fold_left (consider CrossExchange) (candidates_of CrossExchange u1) u1).
  set (u3 := fold_left (consider TwoOpt) (candidates_of TwoOpt u2) u2).
  set (u4 := fold_left (consider ReverseTwoOpt) (candidates_of ReverseTwoOpt u3) u3).
  set (u5 := scan_loop Relocate (λ n, n =? 0) amount_lower_bound node_gains
               (λ n, seq 0 n) u4).
  set (u6 := scan_loop OrOpt (λ n, n <? 2) double_amount_lower_bound edge_gains
               (λ n, seq 0 (n - 1)) u5).
  cbv zeta. fold u1 u2 u3 u4 u5 u6.
  destruct (list_loop_covers Exchange x) as (T1 & L1 & C1); [by split | done | done|].
  fold u1 sl ps in T1, L1, C1. pose proof T1 as (S1 & P1 & Q1).
  destruct (list_loop_covers CrossExchange u1) as (T2 & L2 & C2);
    [by split | done | by rewrite P1|].
  fold u2 in T2, L2, C2. rewrite S1, P1 in T2, C2. pose proof T2 as (S2 & P2 & Q2).
  destruct (list_loop_covers TwoOpt u2) as (T3 & L3 & C3);
    [by split | done | by rewrite P2|].
  fold u3 in T3, L3, C3. rewrite S2, P2 in T3, C3. pose proof T3 as (S3 & P3 & Q3).
  destruct (list_loop_covers ReverseTwoOpt u3) as (T4 & L4 & C4);
    [by split | done | by rewrite P3|].
  fold u4 in T4, L4, C4. rewrite S3, P3 in T4, C4. pose proof T4 as (S4 & P4 & Q4).
  destruct (scan_loop_covers Relocate (λ n, n =? 0) amount_lower_bound node_gains
              (λ n, seq 0 n) u4) as (T5 & L5 & C5); [done | by rewrite P4|].
  fold u5 in T5, L5, C5. rewrite S4, P4 in T5, C5. pose proof T5 as (S5 & P5 & Q5).
  destruct (scan_loop_covers OrOpt (λ n, n <? 2) double_amount_lower_bound edge_gains
              (λ n, seq 0 (n - 1)) u5) as (T6 & L6 & C6); [done | by rewrite P5|].
  fold u6 in T6, L6, C6. rewrite S5, P5 in T6, C6.
  split; [done|].
  split; [repeat (eapply gains_le_trans; [eassumption|]); apply gains_le_refl|].
  intros k s t Hst. destruct (Hps s t Hst) as (_ & Hs & Ht).
  destruct k.
  - apply (covered_mono sl (best_gains u1)); [done | done | | by apply C1].
    repeat (eapply gains_le_trans; [eassumption|]); apply gains_le_refl.
  - apply (covered_mono sl (best_gains u2)); [done | done | | by apply C2].
    repeat (eapply gains_le_trans; [eassumption|]); apply gains_le_refl.
  - apply (covered_mono sl (best_gains u3)); [done | done | | by apply C3].
    repeat (eapply gains_le_trans; [eassumption|]); apply gains_le_refl.
  - apply (covered_mono sl (best_gains u4)); [done | done | | by apply C4].
    repeat (eapply gains_le_trans; [eassumption|]); apply gains_le_refl.
  - apply (covered_mono sl (best_gains u5)); [done | done | done|].
    intros sr tr Hscope. apply C5; [done|]. by apply scan_scope_relocate.
  - intros sr tr Hscope. apply C6; [done|]. by apply scan_scope_or_opt.
Qed.

End Scope.

(** ** What a round changes and what the round loop maintains (lines 153-448) *)

Section RunInvariant.
Context `{Collaborators}.
Hypothesis touched : candidates_touched.
Hypothesis double_order : double_lt_strict.

(** What the engine holds for vehicle [v]: its route and its entries of
    the caches of [solution_state]. *)
Definition row (s : solution) (v : index)
    : list nat * Z * list (list Z) * list (list Z) * list Z * list Z :=
  (tw_sol s !!! v, route_costs (sol_state s) !!! v,
   fwd_amounts (sol_state s) !!! v, bwd_amounts (sol_state s) !!! v,
   node_gains (sol_state s) !!! v, edge_gains (sol_state s) !!! v).

Lemma straighten_route_row (v v' : index) (s : solution) :
  v' ≠ v → row (straighten_route v s) v' = row s v'.
Proof.
  intros Hne. unfold straighten_route, row.
  repeat case_match; try done; simpl; by rewrite !list_lookup_total_insert_ne.
Qed.

Lemma before_reinsertion_row (o : ls_operator) (s : solution) (v : index) :
  v ≠ s_vehicle o → v ≠ t_vehicle o →
  row (before_reinsertion o (s_vehicle o) (t_vehicle o) s) v = row s v.
Proof.
  intros Hs Ht. unfold before_reinsertion.
  set (s3 := with_state _ (with_state _ (apply_operator o s))).
  assert (H3 : row s3 v = row s v).
  { unfold row, s3. simpl. by rewrite !list_lookup_total_insert_ne. }
  set (s5 := straighten_route _ (straighten_route _ s3)).
  assert (H5 : row s5 v = row s v).
  { unfold s5. by rewrite !straighten_route_row. }
  rewrite <- H5. unfold row. simpl. by rewrite !list_lookup_total_insert_ne.
Qed.

Lemma add_job_row (b : choice) (s : solution) (v : index) :
  v ≠ best_route b → row (add_job b s) v = row s v.
Proof. intros Hne. unfold row. simpl. by rewrite !list_lookup_total_insert_ne. Qed.

Lemma try_job_additions_row (routes : list index) (c : double) (s : solution) (v : index) :
  v ∉ routes → row (try_job_additions routes c s) v = row s v.
Proof.
  intros Hv.
  apply (try_job_additions_preserves (λ s', row s' v = row s v)); [done|].
  intros s' Hs' Hadded. rewrite add_job_row; [done|].
  intros ->. apply Hv. by apply job_added_route.
Qed.

Lemma set_gains_row (bs bt : index) (s : solution) (v : index) :
  v ≠ bs → v ≠ bt → row (set_gains bs bt s) v = row s v.
Proof.
  intros Hs Ht. unfold row, set_gains. simpl.
  by rewrite !list_lookup_total_insert_ne.
Qed.

Lemma in_scope_rows (k : operator_kind) (sl sl' : solution) (g : Z) (s sr t tr : nat) :
  row sl' s = row sl s → row sl' t = row sl t →
  in_scope k sl g (s, sr, t, tr) → in_scope k sl' g (s, sr, t, tr).
Proof.
  unfold row. intros [= Hs1 Hs2 Hs3 Hs4 Hs5 Hs6] [= Ht1 Ht2 Ht3 Ht4 Ht5 Ht6].
  destruct k; simpl;
    unfold two_opt_bound, reverse_two_opt_bound, s_free_amount, get2, total_amount;
    simpl; rewrite ?Hs1, ?Hs3, ?Hs4, ?Hs5, ?Hs6, ?Ht1, ?Ht3, ?Ht4; done.
Qed.

Lemma covered_rows (sl sl' : solution) (g g' : list (list Z)) (k : operator_kind)
    (s t : index) :
  row sl' s = row sl s → row sl' t = row sl t → get2 g' s t = get2 g s t →
  covered sl g k s t → covered sl' g' k s t.
Proof.
  intros Hs Ht Hg Hcov sr tr Hscope Hvalid. rewrite Hg in *.
  unfold move_valid, move_gain in *.
  pose proof Hs as [= Hs1 _ _ _ _ _]. pose proof Ht as [= Ht1 _ _ _ _ _].
  rewrite Hs1, Ht1 in *.
  apply Hcov; [|done]. by apply (in_scope_rows k sl' sl).
Qed.

(** *** The invariant *)

(** Before each round: the matrices are square, a stored move sits at its
    pair, a positive gain belongs to a stored move that is valid with that
    gain on the routes as they are, the pairs of the list are pairs of
    distinct vehicles, and every pair of distinct vehicles is on the list
    or covered. *)
Definition search_invariant (x : search) : Prop :=
  squares x ∧ ops_indexed x ∧ moves_fresh x
  ∧ pairs_in_range (s_t_pairs x)
  ∧ ∀ k s t, s < V → t < V → s ≠ t →
      (s, t) ∈ s_t_pairs x ∨ covered (sol x) (best_gains x) k s t.

Lemma initial_search_invariant (s0 : solution) : search_invariant (initial_search s0).
Proof.
  split; [apply initial_squares|]. split; [|split; [|split]].
  - intros s t o Hs Ht. unfold get2. simpl. by rewrite !lookup_total_replicate_2.
  - intros s t Hs Ht. rewrite initial_gains by done. lia.
  - apply all_pairs_distinct.
  - intros k s t Hs Ht Hne. left. simpl. by apply elem_of_all_pairs.
Qed.

Lemma evaluate_invariant (x : search) :
  search_invariant x →
  tracks (sol x) (s_t_pairs x) (evaluate x)
  ∧ ops_indexed (evaluate x) ∧ moves_fresh (evaluate x)
  ∧ ∀ k s t, s < V → t < V → s ≠ t →
      covered (sol x) (best_gains (evaluate x)) k s t.
Proof.
  intros (Hsq & Hidx & Hfresh & Hps & Hpending).
  destruct (evaluate_covers x Hsq Hps) as (Htr & Hle & Hcov).
  split; [done|]. split; [by apply evaluate_ops_indexed|]. split.
  - apply (evaluate_preserves (λ y, squares y ∧ moves_fresh y)); [|done].
    intros k y c [??]. split;
      [by apply consider_squares | by apply consider_moves_fresh].
  - intros k s t Hs Ht Hne. destruct (Hpending k s t Hs Ht Hne) as [Hst|Hc].
    + by apply Hcov.
    + by apply (covered_mono _ (best_gains x)).
Qed.

(** What a round that continues has done. *)
Lemma round_applies (x x' : search) :
  search_invariant x → round x = inr (x', true) →
  ∃ g bs bt o,
    find_best (best_gains (evaluate x)) = (g, bs, bt)
    ∧ (0 < g)%Z ∧ bs ≠ bt ∧ bs < V ∧ bt < V
    ∧ get2 (best_gains (evaluate x)) bs bt = g
    ∧ get2 (best_ops (evaluate x)) bs bt = Some o
    ∧ s_vehicle o = bs ∧ t_vehicle o = bt ∧ gain o = g
    ∧ move_valid (kind o) (sol x) (bs, s_rank o, bt, t_rank o) = true
    ∧ move_gain (kind o) (sol x) (bs, s_rank o, bt, t_rank o) = g
    ∧ sol x'
      = set_gains bs bt
          (try_job_additions (addition_candidates (kind o) bs bt) (to_double 0)
             (before_reinsertion o bs bt (sol x)))
    ∧ best_ops x' = best_ops (evaluate x)
    ∧ best_gains x' = reset_gains bs bt (best_gains (evaluate x))
    ∧ s_t_pairs x' = next_pairs bs bt.
Proof.
  intros Hinv Hround.
  destruct (evaluate_invariant x Hinv) as ((Hsol & _ & Hsq) & Hidx & Hfresh & _).
  destruct (round_continues _ _ Hround) as (g & bs & bt & Hbest & Hpos & Happly).
  pose proof (find_best_spec (best_gains (evaluate x))) as Hspec.
  rewrite Hbest in Hspec.
  destruct Hspec as [[(-> & _)|(Hne & Hbs & Hbt & Hgain & _)] _]; [lia|].
  destruct (Hfresh bs bt Hbs Hbt) as (o & Ho & Hso & Hto & Hgo & Hvalid & Hopgain);
    [lia|].
  pose proof (apply_best_sol _ _ _ _ _ _ Ho Happly) as Hsol'.
  destruct (apply_best_search _ _ _ _ _ Happly) as (Hops & Hgains & Hpairs).
  rewrite Hsol in *. rewrite Hso, Hto in Hsol'.
  exists g, bs, bt, o. unfold move_valid, move_gain.
  repeat split; try done; congruence.
Qed.

(** A round leaves the rows of the vehicles outside the selected pair. *)
Lemma round_rows (x x' : search) (g : Z) (bs bt : index) (o : ls_operator) :
  s_vehicle o = bs → t_vehicle o = bt →
  sol x'
  = set_gains bs bt
      (try_job_additions (addition_candidates (kind o) bs bt) (to_double 0)
         (before_reinsertion o bs bt (sol x))) →
  ∀ v, v ≠ bs → v ≠ bt → row (sol x') v = row (sol x) v.
Proof.
  intros <- <- -> v Hs Ht.
  rewrite set_gains_row, try_job_additions_row, before_reinsertion_row; try done.
  intros Hin. apply touched in Hin as [->| ->]; done.
Qed.

Lemma round_keeps_invariant (x x' : search) :
  search_invariant x → round x = inr (x', true) → search_invariant x'.
Proof.
  intros Hinv Hround.
  destruct (round_applies x x' Hinv Hround)
    as (g & bs & bt & o & Hbest & Hpos & Hne & Hbs & Hbt & Hgain & Ho & Hso & Hto
        & Hgo & Hvalid & Hopgain & Hsol' & Hops & Hgains & Hpairs).
  destruct (evaluate_invariant x Hinv) as ((Hsol & _ & [Hsqg Hsqo]) & Hidx & Hfresh & Hcov).
  destruct (reset_gains_spec bs bt _ Hsqg Hbs Hbt) as [Hsq' Hval].
  pose proof (round_rows x x' g bs bt o Hso Hto Hsol') as Hrows.
  split; [split; [by rewrite Hgains | by rewrite Hops]|].
  split; [unfold ops_indexed; by rewrite Hops|]. split; [|split].
  - intros s t Hs Ht. rewrite Hgains, Hops, Hval by done.
    destruct (decide (s = bs ∨ s = bt ∨ t = bs ∨ t = bt)) as [|Hother]; [lia|].
    intros Hgt. destruct (Hfresh s t Hs Ht Hgt) as (o' & Ho' & H').
    exists o'. split; [done|].
    assert (Hsame : ∀ v, v ≠ bs → v ≠ bt →
                         tw_sol (sol x') !!! v = tw_sol (sol (evaluate x)) !!! v).
    { intros v Hv1 Hv2. specialize (Hrows v Hv1 Hv2).
      injection Hrows as Hr _. by rewrite Hsol. }
    rewrite !Hsame by tauto. exact H'.
  - intros s t Hst. rewrite Hpairs in Hst. by eapply next_pairs_distinct.
  - intros k s t Hs Ht Hst.
    destruct (decide (s = bs ∨ s = bt ∨ t = bs ∨ t = bt)) as [Hin|Hout].
    + left. rewrite Hpairs. by apply elem_of_next_pairs.
    + right. apply (covered_rows (sol x) _ (best_gains (evaluate x))).
      * apply Hrows; tauto.
      * apply Hrows; tauto.
      * rewrite Hgains, Hval by done. by rewrite decide_False.
      * by apply Hcov.
Qed.

Lemma reachable_search_invariant (s0 : solution) (x : search) :
  reachable s0 x → search_invariant x.
Proof.
  induction 1 as [|x x' Hreach IH Hround]; [apply initial_search_invariant|].
  by eapply round_keeps_invariant.
Qed.

(** *** What follows for the rounds and for the result *)

Lemma round_stops (x x' : search) :
  round x = inr (x', false) → x' = evaluate x.
Proof.
  unfold round. destruct (find_best _) as [[g bs] bt].
  destruct (0 <? g)%Z; [|by intros [= <-]].
  destruct (apply_best _ _ _ _); [done | by intros [=]].
Qed.

Lemma run_loop_exit (s0 : solution) (fuel : nat) (x x' : search) :
  reachable s0 x → run_loop fuel x = inr x' →
  ∃ y, reachable s0 y ∧ round y = inr (x', false).
Proof.
  revert x. induction fuel as [|fuel IH]; intros x Hreach; simpl; [done|].
  destruct (round x) as [f|[x1 [|]]] eqn:Hround; [done | |].
  - apply IH. by eapply reachable_round.
  - intros [= <-]. by exists x.
Qed.

Lemma run_exit (s0 s' : solution) (fuel : nat) :
  run fuel s0 = inr s' →
  ∃ y, reachable s0 y ∧ round y = inr (evaluate y, false) ∧ s' = sol y.
Proof.
  unfold run. destruct (run_loop fuel (initial_search s0)) as [f|x'] eqn:Hrun; [done|].
  intros [= <-].
  destruct (run_loop_exit s0 fuel _ x' (reachable_initial s0) Hrun) as (y & Hy & Hround).
  exists y. pose proof (round_stops _ _ Hround) as ->.
  split; [done|]. split; [done|]. apply evaluate_sol.
Qed.

Lemma try_job_additions_unassigned_subseteq (routes : list index) (c : double)
    (s : solution) (j : index) :
  j ∈ unassigned (sol_state (try_job_additions routes c s)) →
  j ∈ unassigned (sol_state s).
Proof.
  apply (try_job_additions_preserves
           (λ s', j ∈ unassigned (sol_state s') → j ∈ unassigned (sol_state s)));
    [done|].
  intros s' Hs' _. rewrite add_job_unassigned, list_elem_of_filter.
  intros [_ ?]. by apply Hs'.
Qed.

(** X8.  A round that applies a move changes the routes of the selected
    pair [(bs, bt)] at most: for every other vehicle the route and the
    entries of the caches (cost, forward and backward amounts, node and edge
    gains) are what they were, no job becomes unassigned, and the pairs
    listed for the next round are those of [next_pairs bs bt].  (The routes
    a move proposes for reinsertion being its own two.) *)
Theorem round_touches_two_routes (s0 : solution) (x x' : search) :
  reachable s0 x → round x = inr (x', true) →
  ∃ g bs bt,
    find_best (best_gains (evaluate x)) = (g, bs, bt)
    ∧ bs ≠ bt ∧ bs < V ∧ bt < V
    ∧ (∀ v, v ≠ bs → v ≠ bt → row (sol x') v = row (sol x) v)
    ∧ (∀ j, j ∈ unassigned (sol_state (sol x')) → j ∈ unassigned (sol_state (sol x)))
    ∧ s_t_pairs x' = next_pairs bs bt.
Proof.
  intros Hreach Hround.
  pose proof (reachable_search_invariant s0 x Hreach) as Hinv.
  destruct (round_applies x x' Hinv Hround)
    as (g & bs & bt & o & Hbest & Hpos & Hne & Hbs & Hbt & Hgain & Ho & Hso & Hto
        & Hgo & Hvalid & Hopgain & Hsol' & Hops & Hgains & Hpairs).
  exists g, bs, bt. repeat split; try done.
  - by apply (round_rows x x' g bs bt o).
  - intros j. rewrite Hsol'. subst bs bt.
    change (unassigned (sol_state (set_gains (s_vehicle o) (t_vehicle o) ?s)))
      with (unassigned (sol_state s)).
    intros Hj. apply try_job_additions_unassigned_subseteq in Hj.
    by rewrite before_reinsertion_unassigned in Hj.
Qed.

(** X9.  The move that a round applies is current.  [best_ops] is never
    cleared, so it may hold moves built on routes that have changed since;
    but the move stored for the selected pair is a move of that pair, valid
    on the routes as they are, whose gain recomputed on these routes is the
    selected best gain. *)
Theorem applied_move_is_current (s0 : solution) (x x' : search) :
  reachable s0 x → round x = inr (x', true) →
  ∃ g bs bt o,
    find_best (best_gains (evaluate x)) = (g, bs, bt) ∧ (0 < g)%Z
    ∧ get2 (best_ops (evaluate x)) bs bt = Some o
    ∧ s_vehicle o = bs ∧ t_vehicle o = bt ∧ gain o = g
    ∧ op_is_valid (kind o) bs (tw_sol (sol x) !!! bs) (s_rank o)
                  bt (tw_sol (sol x) !!! bt) (t_rank o) = true
    ∧ op_gain (kind o) bs (tw_sol (sol x) !!! bs) (s_rank o)
              bt (tw_sol (sol x) !!! bt) (t_rank o) = g
    ∧ best_ops x' = best_ops (evaluate x).
Proof.
  intros Hreach Hround.
  pose proof (reachable_search_invariant s0 x Hreach) as Hinv.
  destruct (round_applies x x' Hinv Hround)
    as (g & bs & bt & o & Hbest & Hpos & Hne & Hbs & Hbt & Hgain & Ho & Hso & Hto
        & Hgo & Hvalid & Hopgain & Hsol' & Hops & Hgains & Hpairs).
  exists g, bs, bt, o. repeat split; done.
Qed.

(** A solution on which no move within the reach of the loops is valid
    with a positive gain. *)
Definition local_optimum (s : solution) : Prop :=
  ∀ k sv sr tv tr, sv < V → tv < V → sv ≠ tv →
    in_scope k s 0 (sv, sr, tv, tr) →
    op_is_valid k sv (tw_sol s !!! sv) sr tv (tw_sol s !!! tv) tr = true →
    (op_gain k sv (tw_sol s !!! sv) sr tv (tw_sol s !!! tv) tr ≤ 0)%Z.

Lemma exit_local_optimum (s0 : solution) (y : search) :
  reachable s0 y → round y = inr (evaluate y, false) → local_optimum (sol y).
Proof.
  intros Hreach Hround.
  pose proof (reachable_search_invariant s0 y Hreach) as Hinv.
  destruct (evaluate_invariant y Hinv) as (_ & _ & _ & Hcov).
  pose proof (proj1 (round_exit _ _ _ Hround) eq_refl) as Hexit.
  intros k sv sr tv tr Hs Ht Hne Hscope Hvalid.
  specialize (Hexit sv tv Hs Ht Hne).
  etrans; [|exact Hexit].
  apply (Hcov k sv tv Hs Ht Hne sr tr); [|done].
  by apply (in_scope_mono k _ _ 0%Z).
Qed.

(** On a local optimum the first round finds nothing and ends the loop. *)
Lemma local_optimum_is_left (s : solution) (n : nat) :
  local_optimum s → run (S n) s = inr s.
Proof.
  intros Hopt.
  assert (Heval : evaluate (initial_search s) = initial_search s).
  { apply (evaluate_scoped (λ w, w = initial_search s));
      [apply initial_squares | apply all_pairs_distinct | | done].
    intros k w sv sr tv tr _ -> Hst Hscope.
    destruct (all_pairs_distinct s sv tv Hst) as (Hne & Hs & Ht).
    rewrite initial_gains in Hscope by done.
    pose proof (initial_gains s sv tv Hs Ht) as Hzero. simpl in Hzero.
    unfold consider.
    destruct (op_is_valid _ _ _ _ _ _ _) eqn:Hvalid; simpl; [|done].
    rewrite Hzero.
    specialize (Hopt k sv sr tv tr Hs Ht Hne Hscope Hvalid).
    simpl in Hopt. apply Z.ltb_ge in Hopt. by rewrite Hopt. }
  unfold run. simpl. unfold round. rewrite Heval.
  pose proof (find_best_spec (best_gains (initial_search s))) as Hspec.
  destruct (find_best _) as [[g bs] bt].
  destruct Hspec as [[(-> & _)|(_ & Hbs & Hbt & Hgain & Hpos)] _]; [done|].
  rewrite initial_gains in Hgain by done. lia.
Qed.

(** X10.  [run()] ends on a local optimum, although a round only
    evaluates the pairs around the move of the round before: on the solution
    it returns, no Exchange, CROSS-exchange, 2-opt*, Reverse 2-opt*,
    Relocate or Or-opt move within the reach of the loops (for any pair of
    distinct vehicles) is valid with a positive gain.  (Operators being
    functions of their two routes that propose these two for reinsertion, and
    [<] on [double] a strict order, as in all of this section.) *)
Theorem run_ends_on_local_optimum (s0 s' : solution) (fuel : nat) :
  run fuel s0 = inr s' →
  ∀ k sv sr tv tr, sv < V → tv < V → sv ≠ tv →
    in_scope k s' 0 (sv, sr, tv, tr) →
    op_is_valid k sv (tw_sol s' !!! sv) sr tv (tw_sol s' !!! tv) tr = true →
    (op_gain k sv (tw_sol s' !!! sv) sr tv (tw_sol s' !!! tv) tr ≤ 0)%Z.
Proof.
  intros Hrun. destruct (run_exit s0 s' fuel Hrun) as (y & Hy & Hround & ->).
  by apply (exit_local_optimum s0).
Qed.

(** X11.  Running [run()] again on its result changes nothing: the first
    round finds no move and ends the loop. *)
Theorem run_is_idempotent (s0 s' : solution) (fuel n : nat) :
  run fuel s0 = inr s' → run (S n) s' = inr s'.
Proof.
  intros Hrun. destruct (run_exit s0 s' fuel Hrun) as (y & Hy & Hround & ->).
  apply local_optimum_is_left. by apply (exit_local_optimum s0).
Qed.

End RunInvariant.

Section RunEdges.
Context `{Collaborators}.

(** X12.  With fewer than two vehicles, or with no job on any route,
    [run()] returns the solution as it is after one round that builds no
    move: unassigned jobs stay unassigned, since jobs are only reinserted
    after a move. *)
Theorem run_without_moves (s : solution) (n : nat) :
  V ≤ 1 ∨ Forall (λ r, r = []) (tw_sol s) →
  run (S n) s = inr s.
Proof.
  intros Hedge. apply local_optimum_is_left.
  intros k sv sr tv tr Hs Ht Hne Hscope _. exfalso.
  destruct Hedge as [HV|Hempty]; [lia|].
  assert (Hsize : ∀ v, length (tw_sol s !!! v) = 0).
  { intros v. rewrite list_lookup_total_alt.
    destruct (tw_sol s !! v) as [r|] eqn:Hr; [|done].
    rewrite Forall_lookup in Hempty. by rewrite (Hempty v r Hr). }
  destruct k; simpl in Hscope; rewrite ?Hsize in Hscope; lia.
Qed.

End RunEdges.

(** ** What [indicators()] reports after [run()] (lines 480-493) *)

Section Indicators.
Context `{Collaborators}.

Lemma reachable_ops_indexed (s0 : solution) (x : search) :
  reachable s0 x → squares x ∧ ops_indexed x.
Proof.
  induction 1 as [|x x' Hreach (Hsq & Hidx) Hround].
  - split; [apply initial_squares|].
    intros s t o Hs Ht. unfold get2. simpl. by rewrite !lookup_total_replicate_2.
  - destruct (evaluate_ops_indexed x Hsq Hidx) as [[Hg Ho] Hidx'].
    destruct (round_continues _ _ Hround) as (g & bs & bt & Hbest & Hpos & Happly).
    destruct (apply_best_search _ _ _ _ _ Happly) as (Hops & Hgains & _).
    pose proof (find_best_spec (best_gains (evaluate x))) as Hspec.
    rewrite Hbest in Hspec.
    destruct Hspec as [[(-> & _)|(_ & Hbs & Hbt & _)] _]; [lia|].
    destruct (reset_gains_spec bs bt _ Hg Hbs Hbt) as [Hsq' _].
    split; [split; [by rewrite Hgains | by rewrite Hops]|].
    unfold ops_indexed. by rewrite Hops.
Qed.

(** Along a run the cached costs are those of the routes, and the number
    of unassigned jobs does not grow. *)
Lemma reachable_costs_coherent (routes : list route) (x : search) :
  length routes = V → reachable (initial_solution routes) x →
  costs_coherent (sol x)
  ∧ length (unassigned (sol_state (sol x)))
    ≤ length (unassigned (sol_state (initial_solution routes))).
Proof.
  intros Hlen Hreach.
  induction Hreach as [|x x' Hreach [Hcoh Hun] Hround].
  - split; [|done]. apply (initial_round_invariant routes Hlen).
  - destruct (reachable_ops_indexed _ _ Hreach) as [Hsq Hidx].
    destruct (evaluate_ops_indexed x Hsq Hidx) as [[Hg Ho] Hidx'].
    destruct (evaluate_sol x) as [Hsol _].
    destruct (round_continues _ _ Hround) as (g & bs & bt & Hbest & Hpos & Happly).
    pose proof (find_best_spec (best_gains (evaluate x))) as Hspec.
    rewrite Hbest in Hspec.
    destruct Hspec as [[(-> & _)|(Hne & Hbs & Hbt & _)] _]; [lia|].
    destruct (get2 (best_ops (evaluate x)) bs bt) as [o|] eqn:Hget.
    2:{ unfold apply_best in Happly. by rewrite Hget in Happly. }
    rewrite (apply_best_sol _ _ _ _ _ _ Hget Happly).
    destruct (Hidx' bs bt o Hbs Hbt Hget) as [<- <-]. rewrite Hsol. split.
    + apply set_gains_costs_coherent, try_job_additions_costs_coherent.
      by apply before_reinsertion_coherent.
    + change (unassigned (sol_state (set_gains (s_vehicle o) (t_vehicle o) ?s)))
        with (unassigned (sol_state s)).
      etrans; [apply try_job_additions_unassigned_le|].
      by rewrite before_reinsertion_unassigned.
Qed.

Lemma fold_left_ext_elem {A B} (f g : A → B → A) (l : list B) (a : A) :
  (∀ a b, b ∈ l → f a b = g a b) → fold_left f l a = fold_left g l a.
Proof.
  revert a. induction l as [|b l IH]; intros a Hfg; [done|]. simpl.
  rewrite Hfg by by left. apply IH. intros a' b' Hb'. apply Hfg. by right.
Qed.

Lemma sum_by_index (l : list Z) :
  fold_left (λ c v, (c + l !!! v)%Z) (seq 0 (length l)) 0%Z = fold_left Z.add l 0%Z.
Proof.
  induction l as [|a l IH] using rev_ind; [done|].
  rewrite length_app, Nat.add_1_r, seq_S, !fold_left_app. simpl.
  rewrite <- IH. f_equal.
  - apply fold_left_ext_elem. intros c v Hv. apply elem_of_seq in Hv.
    by rewrite lookup_total_app_l by lia.
  - rewrite lookup_total_app_r by lia. by rewrite Nat.sub_diag.
Qed.

(** X13.  After [run()] on a solution with one route per vehicle,
    [indicators()] reports as cost the sum over the vehicles of the costs of
    their routes, recomputed (the cached costs it adds up are current); it
    reports no more unassigned jobs than there were before [run()], and at
    most [V] used vehicles. *)
Theorem indicators_after_run (routes : list route) (fuel : nat) (s' : solution) :
  length routes = V →
  run fuel (initial_solution routes) = inr s' →
  si.cost (indicators s')
  = fold_left (λ c v, (c + route_cost_for_vehicle v (tw_sol s' !!! v))%Z) (seq 0 V) 0%Z
  ∧ si.cost (indicators s') = total_cost s'
  ∧ si.unassigned (indicators s') ≤ si.unassigned (indicators (initial_solution routes))
  ∧ si.used_vehicles (indicators s') ≤ V.
Proof.
  intros Hlen Hrun.
  destruct (run_exit _ _ _ Hrun) as (y & Hy & _ & ->).
  destruct (reachable_costs_coherent routes y Hlen Hy) as [(Hlt & Hlc & Hcoh) Hun].
  split; [|split; [|split]].
  - simpl. apply fold_left_ext_elem. intros c v Hv. apply elem_of_seq in Hv.
    rewrite Hcoh by lia. done.
  - unfold total_cost. simpl. rewrite <- Hlc. apply sum_by_index.
  - exact Hun.
  - simpl. rewrite <- Hlt. apply length_filter.
Qed.

End Indicators.

(** ** The caches after [run()] (lines 382-419) *)

Section CachesAlongRun.
Context `{Collaborators}.
Hypothesis touched : candidates_touched.
Hypothesis double_order : double_lt_strict.
Hypothesis amounts_sized : ∀ j, length (job_amount j) = amount_size.

(** The node and edge gains held for every vehicle are those of its route. *)
Definition gains_current (s : solution) : Prop :=
  length (node_gains (sol_state s)) = V ∧ length (edge_gains (sol_state s)) = V
  ∧ ∀ v, v < V →
      node_gains (sol_state s) !!! v = node_gains_for v (tw_sol s !!! v)
      ∧ edge_gains (sol_state s) !!! v = edge_gains_for v (tw_sol s !!! v).

Lemma initial_gains_current (routes : list route) :
  length routes = V → gains_current (initial_solution routes).
Proof.
  intros Hlen. unfold gains_current. simpl. rewrite !length_imap.
  split; [done|]. split; [done|]. intros v Hv.
  destruct (lookup_lt_is_Some_2 routes v) as [r Hr]; [lia|].
  rewrite (list_lookup_total_correct _ _ _ Hr).
  split; apply list_lookup_total_correct; rewrite list_lookup_imap, Hr; done.
Qed.

Lemma straighten_route_node_gains (v : index) (s : solution) :
  node_gains (sol_state (straighten_route v s)) = node_gains (sol_state s).
Proof. unfold straighten_route. repeat case_match; done. Qed.

Lemma straighten_route_edge_gains (v : index) (s : solution) :
  edge_gains (sol_state (straighten_route v s)) = edge_gains (sol_state s).
Proof. unfold straighten_route. repeat case_match; done. Qed.

Lemma before_reinsertion_gains (o : ls_operator) (bs bt : index) (s : solution) :
  node_gains (sol_state (before_reinsertion o bs bt s)) = node_gains (sol_state s)
  ∧ edge_gains (sol_state (before_reinsertion o bs bt s)) = edge_gains (sol_state s).
Proof.
  unfold before_reinsertion. simpl.
  by rewrite !straighten_route_node_gains, !straighten_route_edge_gains.
Qed.

Lemma try_job_additions_gains (routes : list index) (c : double) (s : solution) :
  node_gains (sol_state (try_job_additions routes c s)) = node_gains (sol_state s)
  ∧ edge_gains (sol_state (try_job_additions routes c s)) = edge_gains (sol_state s).
Proof.
  apply (try_job_additions_preserves
           (λ s', node_gains (sol_state s') = node_gains (sol_state s)
                  ∧ edge_gains (sol_state s') = edge_gains (sol_state s))); [done|].
  intros s' Hs' _. exact Hs'.
Qed.

Lemma round_gains_current (x x' : search) :
  search_invariant x → round x = inr (x', true) →
  gains_current (sol x) → gains_current (sol x').
Proof.
  intros Hinv Hround (Hln & Hle & Hcur).
  destruct (round_applies x x' Hinv Hround)
    as (g & bs & bt & o & Hbest & Hpos & Hne & Hbs & Hbt & Hgain & Ho & Hso & Hto
        & Hgo & Hvalid & Hopgain & Hsol' & Hops & Hgains & Hpairs).
  pose proof (round_rows touched double_order x x' g bs bt o Hso Hto Hsol') as Hrows.
  set (s2 := try_job_additions (addition_candidates (kind o) bs bt) (to_double 0)
               (before_reinsertion o bs bt (sol x))) in *.
  assert (Hn2 : node_gains (sol_state s2) = node_gains (sol_state (sol x))
                ∧ edge_gains (sol_state s2) = edge_gains (sol_state (sol x))).
  { unfold s2. destruct (try_job_additions_gains
      (addition_candidates (kind o) bs bt) (to_double 0)
      (before_reinsertion o bs bt (sol x))) as [-> ->].
    apply before_reinsertion_gains. }
  destruct Hn2 as [Hn2 He2].
  assert (Hnode : node_gains (sol_state (sol x'))
                  = <[bt := node_gains_for bt (tw_sol s2 !!! bt)]>
                      (<[bs := node_gains_for bs (tw_sol s2 !!! bs)]>
                         (node_gains (sol_state (sol x))))).
  { rewrite Hsol', <- Hn2. done. }
  assert (Hedge : edge_gains (sol_state (sol x'))
                  = <[bt := edge_gains_for bt (tw_sol s2 !!! bt)]>
                      (<[bs := edge_gains_for bs (tw_sol s2 !!! bs)]>
                         (edge_gains (sol_state (sol x))))).
  { rewrite Hsol', <- He2. done. }
  assert (Htw : tw_sol (sol x') = tw_sol s2) by (by rewrite Hsol').
  unfold gains_current. rewrite Hnode, Hedge, !length_insert.
  split; [done|]. split; [done|]. intros v Hv.
  rewrite Htw, !list_lookup_total_insert, !length_insert, Hln, Hle.
  destruct (decide (bt = v ∧ bt < V)) as [[<- _]|Hnt]; [done|].
  destruct (decide (bs = v ∧ bs < V)) as [[<- _]|Hns]; [done|].
  assert (v ≠ bs ∧ v ≠ bt) as [Hs Ht].
  { split; intros ->; [apply Hns | apply Hnt]; done. }
  specialize (Hrows v Hs Ht). injection Hrows as Hr _ _ _ _ _.
  rewrite <- Htw, Hr. by apply Hcur.
Qed.

Lemma reachable_gains_current (routes : list route) (x : search) :
  length routes = V → reachable (initial_solution routes) x → gains_current (sol x).
Proof.
  intros Hlen. induction 1 as [|x x' Hreach IH Hround];
    [by apply initial_gains_current|].
  eapply round_gains_current; [|done | done].
  by eapply (reachable_search_invariant touched double_order).
Qed.

(** X14.  On the solution that [run()] returns (started on one route per
    vehicle), every cache that the engine maintains is current, although
    the rounds only refresh the caches of the two routes of their move and
    the reinsertion updates the amounts in place: for every vehicle the
    cached cost is the cost of its route, the forward amounts are the
    running sums of the job amounts of the route, the backward amounts are
    the total minus the forward amounts, [total_amount] is the load of the
    route, and the node and edge gains are those of the route.  (The routes
    a move proposes for reinsertion being its own two, and [<] on [double] a
    strict order.) *)
Theorem caches_are_current_after_run (routes : list route) (fuel : nat)
    (s' : solution) :
  length routes = V →
  run fuel (initial_solution routes) = inr s' →
  ∀ v, v < V →
    route_costs (sol_state s') !!! v = route_cost_for_vehicle v (tw_sol s' !!! v)
    ∧ fwd_amounts (sol_state s') !!! v = fwd_from_scratch (tw_sol s' !!! v)
    ∧ bwd_amounts (sol_state s') !!! v
      = bwd_from_fwd (fwd_amounts (sol_state s') !!! v)
    ∧ total_amount (sol_state s') v = load s' v
    ∧ node_gains (sol_state s') !!! v = node_gains_for v (tw_sol s' !!! v)
    ∧ edge_gains (sol_state s') !!! v = edge_gains_for v (tw_sol s' !!! v).
Proof.
  intros Hlen Hrun v Hv.
  destruct (run_exit _ _ _ Hrun) as (y & Hy & _ & ->).
  destruct (reachable_costs_coherent routes y Hlen Hy) as [(_ & _ & Hcost) _].
  destruct (reachable_amounts_invariant amounts_sized double_order routes y Hlen Hy)
    as (_ & _ & _ & _ & _ & Hamounts).
  destruct (reachable_gains_current routes y Hlen Hy) as (_ & _ & Hgains).
  destruct (Hamounts v Hv) as [Hfwd Hbwd]. destruct (Hgains v Hv) as [Hn He].
  split; [by apply Hcost|]. split; [done|]. split; [done|].
  split; [|done].
  unfold total_amount, load. rewrite Hfwd. apply back_fwd_from_scratch.
Qed.

End CachesAlongRun.

(** ** The small instance, again *)

Section FurtherDemo.
#[local] Existing Instance Demo.instance.

Lemma demo_finish : run 2 Demo.start = inr Demo.finish.
Proof. vm_compute. reflexivity. Qed.

Lemma demo_relocated_amounts : amounts_invariant Demo.relocated.
Proof.
  split; [reflexivity|]. split; [reflexivity|]. split; [reflexivity|].
  intros [|[|v]] Hv; [split; reflexivity | split; reflexivity | simpl in Hv; lia].
Qed.

(** With two vehicles the next list holds the two orientations of the pair. *)
Lemma next_pairs_spec_witness :
  NoDup (next_pairs 0 1) ∧ length (next_pairs 0 1) = 2.
Proof.
  destruct (next_pairs_spec 0 1 (best_gains (initial_search Demo.start)))
    as (Hnd & Hlen & _);
    [discriminate | simpl; lia | simpl; lia | apply initial_squares|].
  split; [exact Hnd | exact Hlen].
Defined.

Lemma try_job_additions_idempotent_witness :
  try_job_additions [0] (to_double 0)
    (try_job_additions [0] (to_double 0) Demo.relocated)
  = try_job_additions [0] (to_double 0) Demo.relocated.
Proof.
  apply (try_job_additions_idempotent demo_double_lt_strict [0] (to_double 0)
           Demo.relocated).
Defined.

(** Job 2, added to the route of vehicle 0, was unassigned and may be
    served by vehicle 0. *)
Lemma try_job_additions_adds_unassigned_jobs_witness :
  vehicle_ok_with_job 0 2 = true ∧ 2 ∈ unassigned (sol_state Demo.relocated).
Proof.
  destruct (try_job_additions_adds_unassigned_jobs demo_double_lt_strict [0]
              (to_double 0) Demo.relocated) as (_ & _ & Hnew).
  destruct (Hnew 0 2) as (_ & Hok & Hin & _).
  - assert (Hr : tw_sol (try_job_additions [0] (to_double 0) Demo.relocated) !!! 0
                 = [2]) by (vm_compute; reflexivity).
    rewrite Hr. by left.
  - assert (Hr : tw_sol Demo.relocated !!! 0 = []) by reflexivity.
    rewrite Hr. apply not_elem_of_nil.
  - split; [exact Hok | exact Hin].
Defined.

Lemma try_job_additions_conserves_jobs_witness :
  jobs_of (try_job_additions [0] (to_double 0) Demo.relocated)
  ≡ₚ jobs_of Demo.relocated.
Proof.
  destruct (try_job_additions_conserves_jobs demo_double_lt_strict [0]
              (to_double 0) Demo.relocated) as (Hperm & _).
  - intros v Hv. apply list_elem_of_singleton in Hv as ->. simpl. lia.
  - apply NoDup_singleton.
  - exact Hperm.
Defined.

Lemma try_job_additions_respects_capacity_witness :
  amount_le (load (try_job_additions [0] (to_double 0) Demo.relocated) 0)
            (capacity 0) = true.
Proof.
  destruct (try_job_additions_respects_capacity demo_double_lt_strict
              demo_amounts_sized [0] (to_double 0) Demo.relocated
              demo_relocated_amounts) as [_ Hcap].
  apply Hcap; [simpl; lia|]. left. reflexivity.
Defined.

Lemma demo_first_round :
  round (initial_search Demo.start) = inr (Demo.after_first_round, true).
Proof. vm_compute. reflexivity. Qed.

Lemma demo_first_selection :
  find_best (best_gains (evaluate (initial_search Demo.start))) = (10%Z, 0, 1).
Proof. vm_compute. reflexivity. Qed.

Lemma round_touches_two_routes_witness :
  s_t_pairs Demo.after_first_round = next_pairs 0 1.
Proof.
  destruct (round_touches_two_routes demo_candidates_touched demo_double_lt_strict
              Demo.start (initial_search Demo.start) Demo.after_first_round
              (reachable_initial Demo.start) demo_first_round)
    as (g & bs & bt & Hbest & _ & _ & _ & _ & _ & Hpairs).
  rewrite demo_first_selection in Hbest. injection Hbest as <- <- <-.
  exact Hpairs.
Defined.

(** The move applied by the first round: job 0 goes to vehicle 1. *)
Lemma applied_move_is_current_witness :
  ∃ o, get2 (best_ops (evaluate (initial_search Demo.start))) 0 1 = Some o
       ∧ gain o = 10%Z
       ∧ op_gain (kind o) 0 (tw_sol Demo.start !!! 0) (s_rank o)
                 1 (tw_sol Demo.start !!! 1) (t_rank o) = 10%Z.
Proof.
  destruct (applied_move_is_current demo_candidates_touched demo_double_lt_strict
              Demo.start (initial_search Demo.start) Demo.after_first_round
              (reachable_initial Demo.start) demo_first_round)
    as (g & bs & bt & o & Hbest & _ & Ho & _ & _ & Hg & _ & Hgain & _).
  rewrite demo_first_selection in Hbest. injection Hbest as <- <- <-.
  exists o. split; [exact Ho|]. split; [exact Hg | exact Hgain].
Defined.

(** On the start with job 0 alone on vehicle 1, [run()] stops at once:
    moving job 0 to vehicle 0 is within reach and valid, and gains 0. *)
Lemma run_ends_on_local_optimum_witness :
  Z.le (op_gain Relocate 1 (tw_sol Demo.parked !!! 1) 0 0 (tw_sol Demo.parked !!! 0) 0)
       0%Z.
Proof.
  apply (run_ends_on_local_optimum demo_candidates_touched demo_double_lt_strict
           Demo.parked Demo.parked 1).
  - vm_compute. reflexivity.
  - simpl. lia.
  - simpl. lia.
  - discriminate.
  - split; [simpl; lia|]. split; [simpl; lia|]. split; [reflexivity|].
    vm_compute. reflexivity.
  - reflexivity.
Defined.

Lemma run_is_idempotent_witness : run 1 Demo.finish = inr Demo.finish.
Proof.
  apply (run_is_idempotent demo_candidates_touched demo_double_lt_strict
           Demo.start Demo.finish 2 0 demo_finish).
Defined.

(** Without a job on any route the three unassigned jobs stay unassigned. *)
Lemma run_without_moves_witness :
  run 1 Demo.idle = inr Demo.idle
  ∧ unassigned (sol_state Demo.idle) = [0; 1; 2].
Proof.
  split; [|reflexivity].
  apply (run_without_moves Demo.idle 0). right. repeat constructor.
Defined.

Lemma indicators_after_run_witness :
  si.cost (indicators Demo.finish) = 50%Z
  ∧ si.cost (indicators Demo.finish) = total_cost Demo.finish.
Proof.
  split; [reflexivity|].
  apply (indicators_after_run Demo.routes 2 Demo.finish); [reflexivity|].
  exact demo_finish.
Defined.

Lemma caches_are_current_after_run_witness :
  node_gains (sol_state Demo.finish) !!! 1
  = node_gains_for 1 (tw_sol Demo.finish !!! 1).
Proof.
  apply (caches_are_current_after_run demo_candidates_touched demo_double_lt_strict
           demo_amounts_sized Demo.routes 2 Demo.finish eq_refl demo_finish 1).
  simpl. lia.
Defined.

End FurtherDemo.

(** ** More on the phases of a round *)

Section Phases.
Context `{Collaborators}.

Lemma consider_elsewhere (k : operator_kind) (u : search) (c : nat * nat * nat * nat)
    (s t : nat) :
  squares u → (c.1.1.1, c.1.2) ≠ (s, t) →
  get2 (best_gains (consider k u c)) s t = get2 (best_gains u) s t
  ∧ get2 (best_ops (consider k u c)) s t = get2 (best_ops u) s t.
Proof.
  intros [Hg Ho] Hne. destruct c as [[[s' sr] t'] tr]. simpl in Hne.
  unfold consider. destruct (_ && _); [|done]. simpl.
  destruct (decide (s' < V ∧ t' < V)) as [[Hs Ht]|Hout].
  - rewrite !(get2_set2 V) by done.
    rewrite !decide_False by (intros [-> ->]; done). done.
  - by rewrite !(set2_out_of_range V) by done.
Qed.

(** X15.  The evaluation phase of a round (lines 177-358) changes neither
    the solution nor the list of pairs, never lowers an entry of
    [best_gains], and writes the entries of [best_gains] and [best_ops] of
    the pairs of the list only: the best gain and the stored move of a pair
    that is not on the list are kept as they are. *)
Theorem evaluate_writes_listed_pairs (s0 : solution) (x : search) :
  reachable s0 x →
  sol (evaluate x) = sol x
  ∧ s_t_pairs (evaluate x) = s_t_pairs x
  ∧ (∀ s t, s < V → t < V →
       (get2 (best_gains x) s t ≤ get2 (best_gains (evaluate x)) s t)%Z)
  ∧ ∀ s t, (s, t) ∉ s_t_pairs x →
      get2 (best_gains (evaluate x)) s t = get2 (best_gains x) s t
      ∧ get2 (best_ops (evaluate x)) s t = get2 (best_ops x) s t.
Proof.
  intros Hreach.
  destruct (reachable_ops_cover_gains _ _ Hreach) as [Hsq _].
  pose proof (reachable_pairs_distinct _ _ Hreach) as Hps.
  destruct (evaluate_covers x Hsq Hps) as ((Hsol & Hpairs & _) & Hle & _).
  split; [done|]. split; [done|]. split; [exact Hle|].
  intros s t Hst.
  apply (evaluate_scoped
           (λ w, get2 (best_gains w) s t = get2 (best_gains x) s t
                 ∧ get2 (best_ops w) s t = get2 (best_ops x) s t));
    [done | done | | done].
  intros k w s' sr t' tr (_ & _ & Hsqw) [Hg Ho] Hst' _.
  destruct (consider_elsewhere k w (s', sr, t', tr) s t Hsqw) as [-> ->]; [|done].
  simpl. intros [= -> ->]. done.
Qed.

(** X16.  Straightening a route (lines 450-478) either leaves the
    solution as it is or strictly lowers the total of the cached costs; it
    keeps the cached costs equal to the costs of the routes, leaves the rows
    of the other vehicles alone, and does not touch the caches of amounts and
    gains (which [run()] refreshes afterwards). *)
Theorem straighten_route_keeps_costs (v : index) (s : solution) :
  costs_coherent s →
  let s' := straighten_route v s in
  costs_coherent s'
  ∧ (s' = s ∨ (total_cost s' < total_cost s)%Z)
  ∧ (∀ v', v' ≠ v → row s' v' = row s v')
  ∧ fwd_amounts (sol_state s') = fwd_amounts (sol_state s)
  ∧ bwd_amounts (sol_state s') = bwd_amounts (sol_state s)
  ∧ node_gains (sol_state s') = node_gains (sol_state s)
  ∧ edge_gains (sol_state s') = edge_gains (sol_state s).
Proof.
  intros Hcoh s'.
  split; [by apply straighten_route_costs_coherent|].
  split; [|split; [intros v' Hv'; by apply straighten_route_row|]].
  2:{ unfold s'. rewrite straighten_route_fwd_amounts, straighten_route_bwd_amounts,
        straighten_route_node_gains, straighten_route_edge_gains. done. }
  unfold s', straighten_route.
  destruct (decide (0 < length (tw_sol s !!! v))) as [Hpos|]; [|by left].
  set (c := if _ || _ then _ else _). clearbody c.
  destruct (length c =? _); [|by left].
  destruct (route_cost_for_vehicle v c <? _)%Z eqn:Hlt; [|by left].
  apply Z.ltb_lt in Hlt. right. unfold total_cost. simpl.
  destruct Hcoh as (Hlt' & Hlc & _).
  assert (Hv : v < length (route_costs (sol_state s))).
  { rewrite Hlc, <- Hlt'. apply lookup_lt_is_Some.
    rewrite list_lookup_total_alt in Hpos.
    destruct (tw_sol s !! v); [eauto | simpl in Hpos; lia]. }
  rewrite sum_insert by done. lia.
Qed.

Section Reinsertion.
Hypothesis double_order : double_lt_strict.
Hypothesis amounts_sized : ∀ j, length (job_amount j) = amount_size.

(** X17.  When a round calls the reinsertion (line 404), the caches it
    relies on are current on the solution it is given: for every vehicle
    the cached cost is the cost of the route and the amount caches agree
    with a recomputation, the two routes of the move having been refreshed
    after the move and the straightening; and they are still current on the
    solution of the next round, the reinsertion updating them in place. *)
Theorem reinsertion_reads_current_caches (routes : list route) (x x' : search) :
  length routes = V →
  reachable (initial_solution routes) x → round x = inr (x', true) →
  ∃ o bs bt,
    get2 (best_ops (evaluate x)) bs bt = Some o
    ∧ s_vehicle o = bs ∧ t_vehicle o = bt
    ∧ sol x'
      = set_gains bs bt
          (try_job_additions (addition_candidates (kind o) bs bt) (to_double 0)
             (before_reinsertion o bs bt (sol x)))
    ∧ costs_coherent (before_reinsertion o bs bt (sol x))
    ∧ amounts_invariant (before_reinsertion o bs bt (sol x))
    ∧ costs_coherent (sol x') ∧ amounts_invariant (sol x').
Proof.
  intros Hlen Hreach Hround.
  destruct (reachable_ops_indexed _ _ Hreach) as [Hsq Hidx].
  destruct (evaluate_ops_indexed x Hsq Hidx) as [[Hg Ho] Hidx'].
  destruct (evaluate_sol x) as [Hsol _].
  destruct (round_continues _ _ Hround) as (g & bs & bt & Hbest & Hpos & Happly).
  pose proof (find_best_spec (best_gains (evaluate x))) as Hspec.
  rewrite Hbest in Hspec.
  destruct Hspec as [[(-> & _)|(Hne & Hbs & Hbt & _)] _]; [lia|].
  destruct (get2 (best_ops (evaluate x)) bs bt) as [o|] eqn:Hget.
  2:{ unfold apply_best in Happly. by rewrite Hget in Happly. }
  pose proof (apply_best_sol _ _ _ _ _ _ Hget Happly) as Hsol'.
  destruct (Hidx' bs bt o Hbs Hbt Hget) as [Hso Hto]. rewrite Hsol in Hsol'.
  destruct (reachable_costs_coherent routes x Hlen Hreach) as [Hcoh _].
  destruct (reachable_amounts_invariant amounts_sized double_order routes x Hlen Hreach)
    as (_ & _ & Hamounts).
  pose proof (reachable_round _ _ _ Hreach Hround) as Hreach'.
  destruct (reachable_costs_coherent routes x' Hlen Hreach') as [Hcoh' _].
  destruct (reachable_amounts_invariant amounts_sized double_order routes x' Hlen Hreach')
    as (_ & _ & Hamounts').
  exists o, bs, bt. rewrite <- Hso, <- Hto in *.
  split; [done|]. split; [done|]. split; [done|]. split; [exact Hsol'|].
  split; [by apply before_reinsertion_coherent|].
  split; [by apply before_reinsertion_amounts|]. done.
Qed.

End Reinsertion.

End Phases.

Section PhasesDemo.
#[local] Existing Instance Demo.instance.

Lemma straighten_route_keeps_costs_witness :
  costs_coherent (straighten_route 1 Demo.finish)
  ∧ straighten_route 1 Demo.finish = Demo.finish.
Proof.
  assert (Hcoh : costs_coherent Demo.finish).
  { split; [reflexivity|]. split; [reflexivity|].
    intros [|[|v]] Hv; [reflexivity | reflexivity | simpl in Hv; lia]. }
  split; [|reflexivity].
  apply (straighten_route_keeps_costs 1 Demo.finish Hcoh).
Defined.

(** After the first round only the pairs (0, 1) and (1, 0) are listed
    (there are two vehicles); the diagonal entries are kept. *)
Lemma evaluate_writes_listed_pairs_witness :
  sol (evaluate Demo.after_first_round) = sol Demo.after_first_round.
Proof.
  apply (evaluate_writes_listed_pairs Demo.start Demo.after_first_round).
  apply (reachable_round _ (initial_search Demo.start)); [apply reachable_initial|].
  exact demo_first_round.
Defined.

Lemma reinsertion_reads_current_caches_witness :
  ∃ o bs bt,
    get2 (best_ops (evaluate (initial_search Demo.start))) bs bt = Some o
    ∧ amounts_invariant (before_reinsertion o bs bt Demo.start).
Proof.
  destruct (reinsertion_reads_current_caches demo_double_lt_strict demo_amounts_sized
              Demo.routes (initial_search Demo.start) Demo.after_first_round
              eq_refl (reachable_initial Demo.start) demo_first_round)
    as (o & bs & bt & Ho & _ & _ & _ & _ & Ham & _).
  exists o, bs, bt. split; [exact Ho | exact Ham].
Defined.

End PhasesDemo.

(** ** The pruning of the Relocate and Or-opt loops (lines 302-307, 337-342) *)

Section Pruning.
Context `{Collaborators}.
Hypothesis touched : candidates_touched.
Hypothesis double_order : double_lt_strict.

(** "Except if addition cost in route s_t.second is negative (!!), overall
    gain can't exceed current known best gain": the gain of a valid
    Relocate (Or-opt) move is at most the node (edge) gain at its source
    rank. *)
Definition gains_capped : Prop :=
  ∀ s rs sr t rt tr,
    (op_is_valid Relocate s rs sr t rt tr = true →
     (op_gain Relocate s rs sr t rt tr ≤ node_gains_for s rs !!! sr)%Z)
    ∧ (op_is_valid OrOpt s rs sr t rt tr = true →
       (op_gain OrOpt s rs sr t rt tr ≤ edge_gains_for s rs !!! sr)%Z).

(** X18.  When the gain of a Relocate (Or-opt) move never exceeds the
    node (edge) gain of its source rank, skipping the source ranks whose
    node (edge) gain is not above the best known gain loses nothing: on the
    solution that [run()] returns, no Relocate or Or-opt move at ranks
    within bounds, into a vehicle with room for the smallest job (the two
    smallest jobs), is valid with a positive gain.  (The routes a move
    proposes for reinsertion being its own two.) *)
Theorem pruning_is_lossless (routes : list route) (fuel : nat) (s' : solution) :
  gains_capped → length routes = V →
  run fuel (initial_solution routes) = inr s' →
  ∀ sv sr tv tr, sv < V → tv < V → sv ≠ tv →
    tr ≤ length (tw_sol s' !!! tv) →
    (sr < length (tw_sol s' !!! sv) →
     amount_le (amount_add (total_amount (sol_state s') tv) amount_lower_bound)
               (capacity tv) = true →
     op_is_valid Relocate sv (tw_sol s' !!! sv) sr tv (tw_sol s' !!! tv) tr = true →
     (op_gain Relocate sv (tw_sol s' !!! sv) sr tv (tw_sol s' !!! tv) tr ≤ 0)%Z)
    ∧ (S sr < length (tw_sol s' !!! sv) →
       amount_le (amount_add (total_amount (sol_state s') tv) double_amount_lower_bound)
                 (capacity tv) = true →
       op_is_valid OrOpt sv (tw_sol s' !!! sv) sr tv (tw_sol s' !!! tv) tr = true →
       (op_gain OrOpt sv (tw_sol s' !!! sv) sr tv (tw_sol s' !!! tv) tr ≤ 0)%Z).
Proof.
  intros Hcap Hlen Hrun sv sr tv tr Hs Ht Hne Htr.
  destruct (run_exit _ _ _ Hrun) as (y & Hy & Hround & ->).
  pose proof (exit_local_optimum touched double_order _ y Hy Hround) as Hopt.
  destruct (reachable_gains_current touched double_order routes y Hlen Hy)
    as (_ & _ & Hgains).
  destruct (Hgains sv Hs) as [Hn He].
  destruct (Hcap sv (tw_sol (sol y) !!! sv) sr tv (tw_sol (sol y) !!! tv) tr)
    as [Hcn Hce].
  split.
  - intros Hsr Hroom Hvalid.
    destruct (decide (0 < get2 (node_gains (sol_state (sol y))) sv sr)%Z) as [Hpos|Hneg].
    + by apply (Hopt Relocate sv sr tv tr).
    + specialize (Hcn Hvalid). unfold get2 in Hneg. rewrite Hn in Hneg. lia.
  - intros Hsr Hroom Hvalid.
    destruct (decide (0 < get2 (edge_gains (sol_state (sol y))) sv sr)%Z) as [Hpos|Hneg].
    + by apply (Hopt OrOpt sv sr tv tr).
    + specialize (Hce Hvalid). unfold get2 in Hneg. rewrite He in Hneg. lia.
Qed.

End Pruning.

Section PruningDemo.
#[local] Existing Instance Demo.instance.

Lemma demo_travel_from (a b : Z) (r : route) :
  (Demo.travel a r ≤ Z.abs (a - b) + Demo.travel b r)%Z.
Proof. destruct r as [|j r]; simpl; lia. Qed.

Lemma demo_travel_insert (from : Z) (rank j : nat) (r : route) :
  (Demo.travel from r ≤ Demo.travel from (insert_at rank j r))%Z.
Proof.
  revert from rank. induction r as [|k r IH]; intros from rank.
  - unfold insert_at. rewrite take_nil, drop_nil. simpl. lia.
  - destruct rank as [|rank].
    + unfold insert_at. simpl.
      pose proof (demo_travel_from (Demo.location k) (Demo.location j) r). lia.
    + unfold insert_at in *. simpl. specialize (IH (Demo.location k) rank). lia.
Qed.

Lemma demo_gains_capped : gains_capped.
Proof.
  intros s rs sr t rt tr. split; [|discriminate]. simpl.
  intros Hvalid. apply andb_true_iff in Hvalid as [Hvalid _].
  apply andb_true_iff in Hvalid as [Hsr _]. apply Nat.ltb_lt in Hsr.
  rewrite (list_lookup_total_correct _ sr (Demo.cost rs - Demo.cost (delete sr rs))%Z).
  2:{ rewrite list_lookup_fmap, lookup_seq_lt by done. done. }
  unfold Demo.relocate.
  destruct (lookup_lt_is_Some_2 rs sr Hsr) as [j ->]. simpl.
  pose proof (demo_travel_insert 0 tr j rt). unfold Demo.cost. lia.
Qed.

Lemma pruning_is_lossless_witness :
  Z.le (op_gain Relocate 1 (tw_sol Demo.parked !!! 1) 0 0 (tw_sol Demo.parked !!! 0) 0)
       0%Z.
Proof.
  destruct (pruning_is_lossless demo_candidates_touched demo_double_lt_strict
              [[]; [0]] 1 Demo.parked demo_gains_capped eq_refl) with (sv := 1)
       (sr := 0) (tv := 0) (tr := 0) as [Hrelocate _].
  - vm_compute. reflexivity.
  - simpl. lia.
  - simpl. lia.
  - discriminate.
  - simpl. lia.
  - apply Hrelocate; [simpl; lia | reflexivity | reflexivity].
Defined.

End PruningDemo.
